(** * Falcor hit-information codec (Scene/HitInfo.slang)

    A shallow embedding of the packed hit-information format: the shared
    header (type tag, instance ID, primitive index), the five typed hits
    and the polymorphic [HitInfo] container, with the properties of the
    format proved over it.

    Conventions.
    - A [uint] is a [Z] in [[0, 2^32)]; every operation that can leave
      that range is wrapped explicitly.
    - A [float] is its binary32 bit pattern, so [asuint] and [asfloat] are
      the identity on words; arithmetic on floats is IEEE 754 arithmetic
      with round to nearest, ties to even.
    - [PackedHitInfo] is the list of its words ([uint2] or [uint4]);
      indexing outside the vector is an error ([None]). *)

From Stdlib Require Import ZArith QArith Qabs List Bool Lia.
Import ListNotations.
Local Open Scope Z_scope.

(** ** Words *)

Definition is_uint (x : Z) : Prop := 0 <= x < 2 ^ 32.

Definition wrap32 (x : Z) : Z := x mod 2 ^ 32.

(** [x << n] on a 32-bit word: bits moved past bit 31 are lost. *)
Definition shl32 (x n : Z) : Z := wrap32 (Z.shiftl x n).

(** [x >> n] on an unsigned 32-bit word. *)
Definition shr32 (x n : Z) : Z := Z.shiftr x n.

(** [(1 << n) - 1], the mask the header decoder builds, as a word. *)
Definition mask (n : Z) : Z := wrap32 (shl32 1 n - 1).

(** ** The error monad of vector indexing *)

Definition bind {A B : Type} (m : option A) (k : A -> option B) : option B :=
  match m with
  | Some a => k a
  | None => None
  end.

Notation "x <- m ;; k" := (bind m (fun x => k))
  (at level 61, m at next level, right associativity).

(** ** Packed words *)

Definition PackedHitInfo := list Z.

(** [packed[i]] as an r-value. *)
Definition rd (packed : PackedHitInfo) (i : nat) : option Z := nth_error packed i.

Fixpoint upd (packed : PackedHitInfo) (i : nat) (v : Z) : PackedHitInfo :=
  match packed, i with
  | [], _ => []
  | _ :: ws, O => v :: ws
  | w :: ws, S j => w :: upd ws j v
  end.

(** [packed[i] = v]. *)
Definition wr (packed : PackedHitInfo) (i : nat) (v : Z) : option PackedHitInfo :=
  if (i <? length packed)%nat then Some (upd packed i v) else None.

(** ** Hit types *)

(** Modelled from the spec: the enumeration [HitType] of
    [Scene.HitInfoType], which the source imports but does not contain.
    The spec lists None, Triangle, DisplacedTriangle, Curve, SDFGrid,
    Volume with None the zero value; the tags follow that order. An
    enumeration value is its underlying [uint], so [uint(type)] and
    [HitType(x)] are the identity. *)
Definition HitType := Z.

(** Modelled from the spec: the six tags in the order of the spec's
    listing, [None] being zero. *)
Module HitType.
Definition None : HitType := 0.
Definition Triangle : HitType := 1.
Definition DisplacedTriangle : HitType := 2.
Definition Curve : HitType := 3.
Definition SDFGrid : HitType := 4.
Definition Volume : HitType := 5.
End HitType.

(** ** Configuration *)

Inductive SDFGridImplementation : Type :=
| NDSDF
| SVS
| SBS
| SVO.

(** The defines the host sets for a session. [SCENE_HAS_*] stand for the
    four uses of the macro [SCENE_HAS_GEOMETRY_TYPE]. *)
Record Config : Type := {
  HIT_INFO_DEFINES : bool;
  HIT_INFO_USE_COMPRESSION : bool;
  HIT_INFO_TYPE_BITS : Z;
  HIT_INFO_INSTANCE_ID_BITS : Z;
  HIT_INFO_PRIMITIVE_INDEX_BITS : Z;
  SCENE_HAS_TRIANGLE_MESH : bool;
  SCENE_HAS_DISPLACED_TRIANGLE_MESH : bool;
  SCENE_HAS_CURVE : bool;
  SCENE_HAS_SDF_GRID : bool;
  SCENE_SDF_GRID_IMPLEMENTATION : SDFGridImplementation
}.

Record GeometryInstanceID : Type := { index : Z }.

Section HeaderCodec.

Variable cfg : Config.

Definition kTypeBits : Z :=
  if HIT_INFO_DEFINES cfg then HIT_INFO_TYPE_BITS cfg else 1.
Definition kInstanceIDBits : Z :=
  if HIT_INFO_DEFINES cfg then HIT_INFO_INSTANCE_ID_BITS cfg else 1.
Definition kPrimitiveIndexBits : Z :=
  if HIT_INFO_DEFINES cfg then HIT_INFO_PRIMITIVE_INDEX_BITS cfg else 1.

Definition kTypeOffset : Z := wrap32 (32 - kTypeBits).
Definition kInstanceIDOffset : Z := kPrimitiveIndexBits.
Definition kHeaderBits : Z :=
  wrap32 (kTypeBits + kInstanceIDBits + kPrimitiveIndexBits).

(** Number of words of [PackedHitInfo]: [uint2] or [uint4]. *)
Definition packedWords : nat :=
  if HIT_INFO_USE_COMPRESSION cfg then 2%nat else 4%nat.

(** [PackedHitInfo packed = {}]. *)
Definition packedZero : PackedHitInfo := repeat 0 packedWords.

(** [packHeader(packed, type)]. *)
Definition packHeaderType (packed : PackedHitInfo) (type : HitType)
  : option PackedHitInfo :=
  wr packed 0 (shl32 type kTypeOffset).

(** [packHeader(packed, type, instanceID, primitiveIndex)]. *)
Definition packHeader (packed : PackedHitInfo) (type : HitType)
    (instanceID : GeometryInstanceID) (primitiveIndex : Z)
  : option PackedHitInfo :=
  if kHeaderBits <=? 32 then
    wr packed 0
       (Z.lor (Z.lor (shl32 type kTypeOffset)
                     (shl32 (index instanceID) kInstanceIDOffset))
              primitiveIndex)
  else
    p <- wr packed 0 (Z.lor (shl32 type kTypeOffset) (index instanceID)) ;;
    wr p 1 primitiveIndex.

(** [unpackHeader(packed, instanceID, primitiveIndex)], the two [out]
    parameters returned as a pair. *)
Definition unpackHeader (packed : PackedHitInfo)
  : option (GeometryInstanceID * Z) :=
  if kHeaderBits <=? 32 then
    w0 <- rd packed 0 ;;
    Some ({| index := Z.land (shr32 w0 kInstanceIDOffset) (mask kInstanceIDBits) |},
          Z.land w0 (mask kPrimitiveIndexBits))
  else
    w0 <- rd packed 0 ;;
    w1 <- rd packed 1 ;;
    Some ({| index := Z.land w0 (mask kInstanceIDBits) |}, w1).

End HeaderCodec.

(** ** IEEE 754 binary formats

    A floating-point datum is its bit pattern. A finite pattern denotes
    [± sval / 2^scale], an integer multiple of the smallest subnormal.
    Every operation computes its exact rational result and rounds it once
    to the nearest representable value, ties to even. *)

Record Format : Type := { prec : Z; ebits : Z }.

Definition binary32 : Format := {| prec := 24; ebits := 8 |}.
Definition binary16 : Format := {| prec := 11; ebits := 5 |}.

(** Quotient of [n] by [d] rounded to nearest, ties to even. *)
Definition rne_div (n d : Z) : Z :=
  let q := n / d in
  match 2 * (n mod d) ?= d with
  | Lt => q
  | Gt => q + 1
  | Eq => if Z.even q then q else q + 1
  end.

Section Formats.

Variable fmt : Format.

Definition mbits : Z := prec fmt - 1.
Definition width : Z := prec fmt + ebits fmt.
Definition emaxField : Z := 2 ^ ebits fmt - 1.
Definition scale : Z := 2 ^ (ebits fmt - 1) + prec fmt - 3.

Definition fsign (b : Z) : bool := Z.testbit b (width - 1).
Definition fmagn (b : Z) : Z := b mod 2 ^ (width - 1).
Definition fexpo (b : Z) : Z := (b / 2 ^ mbits) mod 2 ^ ebits fmt.
Definition ffrac (b : Z) : Z := b mod 2 ^ mbits.

Definition is_finite (b : Z) : bool := fexpo b <? emaxField.
Definition is_nan (b : Z) : bool :=
  (fexpo b =? emaxField) && negb (ffrac b =? 0).

(** Magnitude of a finite pattern in units of [2^-scale]. *)
Definition sval (b : Z) : Z :=
  if fexpo b =? 0 then ffrac b
  else (2 ^ mbits + ffrac b) * 2 ^ (fexpo b - 1).

Definition ssval (b : Z) : Z := if fsign b then - sval b else sval b.

Definition infBits : Z := emaxField * 2 ^ mbits.
Definition nanBits : Z := infBits + 2 ^ (mbits - 1).

Definition withSign (s : bool) (mag : Z) : Z :=
  (if s then 2 ^ (width - 1) else 0) + mag.

(** Magnitude bits of the non-negative rational [n / d] rounded to the
    format; a result past the largest finite value is the infinity. *)
Definition roundMag (n d : Z) : Z :=
  let t := n * 2 ^ scale in
  let e := Z.max 0 (Z.log2 (t / d) - mbits) in
  Z.min (e * 2 ^ mbits + rne_div t (d * 2 ^ e)) infBits.

(** [T] units of [2^-scale] rounded to the format, again in units: what
    [roundMag n d] denotes when [n / d] is [T] units. *)
Definition roundUnits (T : Z) : Z :=
  let e := Z.max 0 (Z.log2 T - mbits) in
  rne_div T (2 ^ e) * 2 ^ e.

End Formats.

(** ** binary32 arithmetic *)

Definition float := Z.

Definition asuint (f : float) : Z := f.
Definition asfloat (w : Z) : float := w.

Module F32.

Definition bothFinite (x y : float) : bool :=
  is_finite binary32 x && is_finite binary32 y.
Definition anyNan (x y : float) : bool :=
  is_nan binary32 x || is_nan binary32 y.

(** The float nearest to the non-negative rational [n / d]: literals
    and the conversion from [uint]. *)
Definition lit (n d : Z) : float := roundMag binary32 n d.

Definition ofUint (u : Z) : float := lit u 1.

Definition mul (x y : float) : float :=
  if anyNan x y then nanBits binary32
  else
    let s := xorb (fsign binary32 x) (fsign binary32 y) in
    if bothFinite x y then
      withSign binary32 s
        (roundMag binary32 (sval binary32 x * sval binary32 y)
                  (2 ^ scale binary32 * 2 ^ scale binary32))
    else if (fmagn binary32 x =? 0) || (fmagn binary32 y =? 0)
         then nanBits binary32
         else withSign binary32 s (infBits binary32).

Definition add (x y : float) : float :=
  if anyNan x y then nanBits binary32
  else if bothFinite x y then
    let z := ssval binary32 x + ssval binary32 y in
    if z =? 0 then
      withSign binary32 (fsign binary32 x && fsign binary32 y) 0
    else
      withSign binary32 (z <? 0)
        (roundMag binary32 (Z.abs z) (2 ^ scale binary32))
  else if is_finite binary32 x then y
  else if is_finite binary32 y then x
  else if Bool.eqb (fsign binary32 x) (fsign binary32 y) then x
  else nanBits binary32.

Definition div (x y : float) : float :=
  if anyNan x y then nanBits binary32
  else
    let s := xorb (fsign binary32 x) (fsign binary32 y) in
    if bothFinite x y then
      if fmagn binary32 y =? 0 then
        if fmagn binary32 x =? 0 then nanBits binary32
        else withSign binary32 s (infBits binary32)
      else
        withSign binary32 s
          (roundMag binary32 (sval binary32 x) (sval binary32 y))
    else if is_finite binary32 y then withSign binary32 s (infBits binary32)
    else if is_finite binary32 x then withSign binary32 s 0
    else nanBits binary32.

(** [trunc]: the integral value nearest to the argument towards zero. *)
Definition trunc (x : float) : float :=
  if is_finite binary32 x then
    withSign binary32 (fsign binary32 x)
      (roundMag binary32 (sval binary32 x / 2 ^ scale binary32) 1)
  else x.

(** Conversion to [uint]: truncation, with a NaN and negative values at
    0 and values past the largest [uint] clamped to it. *)
Definition toUint (x : float) : Z :=
  if is_nan binary32 x then 0
  else if fsign binary32 x then 0
  else if is_finite binary32 x then
    Z.min (sval binary32 x / 2 ^ scale binary32) (2 ^ 32 - 1)
  else 2 ^ 32 - 1.

(** [f32tof16]: the binary16 pattern in the low half of the word. *)
Definition f32tof16 (x : float) : Z :=
  if is_nan binary32 x then withSign binary16 (fsign binary32 x) (nanBits binary16)
  else if is_finite binary32 x then
    withSign binary16 (fsign binary32 x)
      (roundMag binary16 (sval binary32 x) (2 ^ scale binary32))
  else withSign binary16 (fsign binary32 x) (infBits binary16).

(** [f16tof32]: reads the low half of the word. *)
Definition f16tof32 (w : Z) : float :=
  let h := w mod 2 ^ 16 in
  if is_nan binary16 h then withSign binary32 (fsign binary16 h) (nanBits binary32)
  else if is_finite binary16 h then
    withSign binary32 (fsign binary16 h)
      (roundMag binary32 (sval binary16 h) (2 ^ scale binary16))
  else withSign binary32 (fsign binary16 h) (infBits binary32).

(** [-x]: the sign bit flipped. *)
Definition neg (x : float) : float :=
  withSign binary32 (negb (fsign binary32 x)) (fmagn binary32 x).

(** [x - y]: IEEE 754 subtraction, the sum of [x] and [-y]. *)
Definition sub (x y : float) : float := add x (neg y).

(** The rational a finite float denotes. *)
Definition value (x : float) : Q := ssval binary32 x # (2 ^ 149).

(** Finite floats in [[0, 1)], in [[0, 1]] and in [[-1, 1]]. *)
Definition inUnit (x : float) : Prop :=
  is_finite binary32 x = true /\ (0 <= value x)%Q /\ (value x < 1)%Q.

Definition inClosedUnit (x : float) : Prop :=
  is_finite binary32 x = true /\ (0 <= value x)%Q /\ (value x <= 1)%Q.

Definition magnitudeAtMostOne (x : float) : Prop :=
  is_finite binary32 x = true /\ (Qabs (value x) <= 1)%Q.

(** The float is the image of a finite half float: it is representable
    in 16 bits without loss. *)
Definition isHalf (x : float) : Prop :=
  exists h, 0 <= h < 2 ^ 16 /\ is_finite binary16 h = true /\ x = f16tof32 h.

End F32.

(** ** Vectors of two floats *)

Module V2.
Record t : Type := { x : float; y : float }.
End V2.

Definition float2 : Type := V2.t.

(** ** Vectors of three floats *)

Module V3.
Record t : Type := { x : float; y : float; z : float }.
End V3.

Definition float3 : Type := V3.t.

(** ** Unsigned-normalized fixed point *)

(** [trunc(v * 16777215.f + 0.5f)] converted to [uint], one component of
    the quantisation in [DisplacedTriangleHit::pack]. *)
Definition quantize24 (v : float) : Z :=
  F32.toUint
    (F32.trunc (F32.add (F32.mul v (F32.lit 16777215 1)) (F32.lit 1 2))).

(** [float(u) * (1.f / 16777215)], one component of the decoding in
    [DisplacedTriangleHit::__init]. *)
Definition dequantize24 (u : Z) : float :=
  F32.mul (F32.ofUint u) (F32.div (F32.lit 1 1) (F32.ofUint 16777215)).

(** Modelled from the spec: [packUnorm2x16_unsafe] and [unpackUnorm2x16]
    of [Utils.Math.FormatConversion], which the source imports but does
    not contain. The spec has both barycentrics packed unclamped as 16-bit
    unsigned-normalized fixed point into one word; the quantisation is the
    16-bit form of the one the spec gives: multiply by the largest code,
    add 0.5, truncate; decoding divides by the largest code. The first
    component takes the low half of the word. *)
Definition packUnorm16_unsafe (v : float) : Z :=
  F32.toUint
    (F32.trunc (F32.add (F32.mul v (F32.lit 65535 1)) (F32.lit 1 2))).

(** Modelled from the spec: both components in one word, [v.x] in the
    low half, [v.y] in the high half, neither clamped. *)
Definition packUnorm2x16_unsafe (v : float2) : Z :=
  Z.lor (shl32 (packUnorm16_unsafe (V2.y v)) 16) (packUnorm16_unsafe (V2.x v)).

(** Modelled from the spec: the low 16 bits of the word divided by the
    largest code. *)
Definition unpackUnorm16 (packed : Z) : float :=
  F32.div (F32.ofUint (Z.land packed 65535)) (F32.lit 65535 1).

(** Modelled from the spec: the inverse of [packUnorm2x16_unsafe], low
    half to [x], high half to [y]. *)
Definition unpackUnorm2x16 (packed : Z) : float2 :=
  {| V2.x := unpackUnorm16 packed; V2.y := unpackUnorm16 (shr32 packed 16) |}.

(** ** Typed hits *)

Record GeometryHit : Type := {
  instanceID : GeometryInstanceID;
  primitiveIndex : Z;
  barycentrics : float2
}.

(** The value of [this = {}]. *)
Definition GeometryHit_default : GeometryHit :=
  {| instanceID := {| index := 0 |};
     primitiveIndex := 0;
     barycentrics := {| V2.x := 0; V2.y := 0 |} |}.

Module GeometryHit.

(** [getBarycentricWeights()]:
    [float3(1.f - barycentrics.x - barycentrics.y, barycentrics.x,
    barycentrics.y)], the subtractions from left to right. *)
Definition getBarycentricWeights (this : GeometryHit) : float3 :=
  {| V3.x := F32.sub (F32.sub (F32.lit 1 1) (V2.x (barycentrics this)))
                     (V2.y (barycentrics this));
     V3.y := V2.x (barycentrics this);
     V3.z := V2.y (barycentrics this) |}.

End GeometryHit.

Definition TriangleHit := GeometryHit.
Definition CurveHit := GeometryHit.

(** [struct DisplacedTriangleHit : GeometryHit]: the base sub-object and
    the field the struct adds. *)
Record DisplacedTriangleHit : Type := {
  geometry : GeometryHit;
  displacement : float
}.

Definition DisplacedTriangleHit_default : DisplacedTriangleHit :=
  {| geometry := GeometryHit_default; displacement := 0 |}.

(** Modelled from the spec: [SDFGridHitData] of
    [Scene.SDFs.SDFGridHitData], which the source imports but does not
    contain: one of the integer fields [lod], [primitiveID], [svoIndex],
    selected by the active backend, and [hitT]. The record carries the
    three integer fields; a codec reads and writes the one of its backend
    and leaves the others at their default. *)
Record SDFGridHitData : Type := {
  lod : Z;
  primitiveID : Z;
  svoIndex : Z;
  hitT : float
}.

(** The field [instanceID] of the struct is [gridInstanceID] here: the
    name is taken by [GeometryHit]. *)
Record SDFGridHit : Type := {
  gridInstanceID : GeometryInstanceID;
  hitData : SDFGridHitData
}.

Definition SDFGridHit_default : SDFGridHit :=
  {| gridInstanceID := {| index := 0 |};
     hitData := {| lod := 0; primitiveID := 0; svoIndex := 0; hitT := 0 |} |}.

Record VolumeHit : Type := { t : float; g : float }.

Module TriangleHit.

(** [__init(const PackedHitInfo packed)]. *)
Definition init (cfg : Config) (packed : PackedHitInfo) : option TriangleHit :=
  if SCENE_HAS_TRIANGLE_MESH cfg then
    hdr <- unpackHeader cfg packed ;;
    if HIT_INFO_USE_COMPRESSION cfg then
      w1 <- rd packed 1 ;;
      Some {| instanceID := fst hdr; primitiveIndex := snd hdr;
              barycentrics := unpackUnorm2x16 w1 |}
    else
      w2 <- rd packed 2 ;;
      w3 <- rd packed 3 ;;
      Some {| instanceID := fst hdr; primitiveIndex := snd hdr;
              barycentrics := {| V2.x := asfloat w2; V2.y := asfloat w3 |} |}
  else Some GeometryHit_default.

Definition pack (cfg : Config) (this : TriangleHit) : option PackedHitInfo :=
  let packed := packedZero cfg in
  if SCENE_HAS_TRIANGLE_MESH cfg then
    p <- packHeader cfg packed HitType.Triangle
           (instanceID this) (primitiveIndex this) ;;
    if HIT_INFO_USE_COMPRESSION cfg then
      wr p 1 (packUnorm2x16_unsafe (barycentrics this))
    else
      p2 <- wr p 2 (asuint (V2.x (barycentrics this))) ;;
      wr p2 3 (asuint (V2.y (barycentrics this)))
  else Some packed.

End TriangleHit.

Module DisplacedTriangleHit.

Definition init (cfg : Config) (packed : PackedHitInfo)
  : option DisplacedTriangleHit :=
  if SCENE_HAS_DISPLACED_TRIANGLE_MESH cfg then
    hdr <- unpackHeader cfg packed ;;
    w2 <- rd packed 2 ;;
    w3 <- rd packed 3 ;;
    let ux := shr32 w2 8 in
    let uy := Z.lor (shl32 (Z.land w2 255) 16) (shr32 w3 16) in
    Some {| geometry :=
              {| instanceID := fst hdr; primitiveIndex := snd hdr;
                 barycentrics := {| V2.x := dequantize24 ux;
                                    V2.y := dequantize24 uy |} |};
            displacement := F32.f16tof32 w3 |}
  else Some DisplacedTriangleHit_default.

Definition pack (cfg : Config) (this : DisplacedTriangleHit)
  : option PackedHitInfo :=
  let packed := packedZero cfg in
  if SCENE_HAS_DISPLACED_TRIANGLE_MESH cfg then
    p <- packHeader cfg packed HitType.DisplacedTriangle
           (instanceID (geometry this)) (primitiveIndex (geometry this)) ;;
    let ux := quantize24 (V2.x (barycentrics (geometry this))) in
    let uy := quantize24 (V2.y (barycentrics (geometry this))) in
    p2 <- wr p 2 (Z.lor (shl32 ux 8) (shr32 uy 16)) ;;
    wr p2 3 (Z.lor (shl32 uy 16) (F32.f32tof16 (displacement this)))
  else Some packed.

End DisplacedTriangleHit.

Module CurveHit.

Definition init (cfg : Config) (packed : PackedHitInfo) : option CurveHit :=
  if SCENE_HAS_CURVE cfg then
    hdr <- unpackHeader cfg packed ;;
    w2 <- rd packed 2 ;;
    w3 <- rd packed 3 ;;
    Some {| instanceID := fst hdr; primitiveIndex := snd hdr;
            barycentrics := {| V2.x := asfloat w2; V2.y := asfloat w3 |} |}
  else Some GeometryHit_default.

Definition pack (cfg : Config) (this : CurveHit) : option PackedHitInfo :=
  let packed := packedZero cfg in
  if SCENE_HAS_CURVE cfg then
    p <- packHeader cfg packed HitType.Curve
           (instanceID this) (primitiveIndex this) ;;
    p2 <- wr p 2 (asuint (V2.x (barycentrics this))) ;;
    wr p2 3 (asuint (V2.y (barycentrics this)))
  else Some packed.

End CurveHit.

Module SDFGridHit.

(** The integer field of the active backend, which [pack] stores in
    the primitive-index slot of the header. *)
Definition primitiveDataOf (cfg : Config) (d : SDFGridHitData) : Z :=
  match SCENE_SDF_GRID_IMPLEMENTATION cfg with
  | NDSDF => lod d
  | SVS | SBS => primitiveID d
  | SVO => svoIndex d
  end.

Definition init (cfg : Config) (packed : PackedHitInfo) : option SDFGridHit :=
  if SCENE_HAS_SDF_GRID cfg then
    hdr <- unpackHeader cfg packed ;;
    let primitiveData := snd hdr in
    w2 <- rd packed 2 ;;
    Some {| gridInstanceID := fst hdr;
            hitData :=
              match SCENE_SDF_GRID_IMPLEMENTATION cfg with
              | NDSDF =>
                  {| lod := primitiveData; primitiveID := 0; svoIndex := 0;
                     hitT := asfloat w2 |}
              | SVS | SBS =>
                  {| lod := 0; primitiveID := primitiveData; svoIndex := 0;
                     hitT := asfloat w2 |}
              | SVO =>
                  {| lod := 0; primitiveID := 0; svoIndex := primitiveData;
                     hitT := asfloat w2 |}
              end |}
  else Some SDFGridHit_default.

Definition pack (cfg : Config) (this : SDFGridHit) : option PackedHitInfo :=
  let packed := packedZero cfg in
  if SCENE_HAS_SDF_GRID cfg then
    let primitiveData := primitiveDataOf cfg (hitData this) in
    p <- wr packed 2 (asuint (hitT (hitData this))) ;;
    packHeader cfg p HitType.SDFGrid (gridInstanceID this) primitiveData
  else Some packed.

End SDFGridHit.

Module VolumeHit.

Definition init (cfg : Config) (packed : PackedHitInfo) : option VolumeHit :=
  if HIT_INFO_USE_COMPRESSION cfg then
    w1 <- rd packed 1 ;;
    w0 <- rd packed 0 ;;
    Some {| t := asfloat w1; g := F32.f16tof32 (Z.land w0 65535) |}
  else
    w1 <- rd packed 1 ;;
    w2 <- rd packed 2 ;;
    Some {| t := asfloat w1; g := asfloat w2 |}.

Definition pack (cfg : Config) (this : VolumeHit) : option PackedHitInfo :=
  let packed := packedZero cfg in
  p <- packHeaderType cfg packed HitType.Volume ;;
  if HIT_INFO_USE_COMPRESSION cfg then
    p1 <- wr p 1 (asuint (t this)) ;;
    w0 <- rd p1 0 ;;
    wr p1 0 (Z.lor w0 (Z.land (F32.f32tof16 (g this)) 65535))
  else
    p1 <- wr p 1 (asuint (t this)) ;;
    wr p1 2 (asuint (g this)).

End VolumeHit.

(** ** The polymorphic container *)

Record HitInfo : Type := { data : PackedHitInfo }.

Module HitInfo.

(** A method of [HitInfo]: it runs on the object, can fail on a vector
    index, and hands the object on. *)
Definition method (A : Type) : Type := HitInfo -> option (A * HitInfo).

Definition ret {A : Type} (a : A) : method A := fun this => Some (a, this).

Definition seq {A B : Type} (m : method A) (k : A -> method B) : method B :=
  fun this =>
    match m this with
    | Some (a, this') => k a this'
    | None => None
    end.

(** The r-value [data]. *)
Definition getData : method PackedHitInfo := fun this => Some (data this, this).

Definition lift {A : Type} (o : option A) : method A :=
  fun this =>
    match o with
    | Some a => Some (a, this)
    | None => None
    end.

(** [__init()]. *)
Definition init (cfg : Config) : HitInfo := {| data := packedZero cfg |}.

(** [__init(const PackedHitInfo packed)]. *)
Definition ofPacked (packed : PackedHitInfo) : HitInfo := {| data := packed |}.

Definition ofTriangleHit (cfg : Config) (h : TriangleHit) : option HitInfo :=
  p <- TriangleHit.pack cfg h ;; Some {| data := p |}.
Definition ofDisplacedTriangleHit (cfg : Config) (h : DisplacedTriangleHit)
  : option HitInfo :=
  p <- DisplacedTriangleHit.pack cfg h ;; Some {| data := p |}.
Definition ofCurveHit (cfg : Config) (h : CurveHit) : option HitInfo :=
  p <- CurveHit.pack cfg h ;; Some {| data := p |}.
Definition ofSDFGridHit (cfg : Config) (h : SDFGridHit) : option HitInfo :=
  p <- SDFGridHit.pack cfg h ;; Some {| data := p |}.
Definition ofVolumeHit (cfg : Config) (h : VolumeHit) : option HitInfo :=
  p <- VolumeHit.pack cfg h ;; Some {| data := p |}.

Definition getType (cfg : Config) : method HitType :=
  seq getData (fun d =>
  seq (lift (rd d 0)) (fun w0 =>
  ret (shr32 w0 (kTypeOffset cfg)))).

Definition isValid (cfg : Config) : method bool :=
  seq (getType cfg) (fun ty => ret (negb (ty =? HitType.None))).

Definition getTriangleHit (cfg : Config) : method TriangleHit :=
  seq getData (fun d => lift (TriangleHit.init cfg d)).
Definition getDisplacedTriangleHit (cfg : Config) : method DisplacedTriangleHit :=
  seq getData (fun d => lift (DisplacedTriangleHit.init cfg d)).
Definition getCurveHit (cfg : Config) : method CurveHit :=
  seq getData (fun d => lift (CurveHit.init cfg d)).
Definition getSDFGridHit (cfg : Config) : method SDFGridHit :=
  seq getData (fun d => lift (SDFGridHit.init cfg d)).
Definition getVolumeHit (cfg : Config) : method VolumeHit :=
  seq getData (fun d => lift (VolumeHit.init cfg d)).

Definition pack : method PackedHitInfo := getData.

(** A method that hands on the object it was called on. *)
Definition readOnly {A : Type} (m : method A) : Prop :=
  forall this : HitInfo,
    match m this with
    | Some (_, this') => this' = this
    | None => True
    end.

Definition getInstanceID (cfg : Config) : method GeometryInstanceID :=
  seq getData (fun d =>
  seq (lift (unpackHeader cfg d)) (fun hdr => ret (fst hdr))).

Definition getPrimitiveIndex (cfg : Config) : method Z :=
  seq getData (fun d =>
  seq (lift (unpackHeader cfg d)) (fun hdr => ret (snd hdr))).

End HitInfo.

Definition makeInvalidHit (cfg : Config) : HitInfo := HitInfo.init cfg.

Definition unpackHitInfo (packedHitInfo : PackedHitInfo) : HitInfo :=
  HitInfo.ofPacked packedHitInfo.

(** ** The five typed hits as one type

    [HitInfo] has one constructor per typed hit; [TypedHit] is the sum of
    their argument types, so that a property of every variant is stated
    once. *)

Inductive TypedHit : Type :=
| OfTriangle (h : TriangleHit)
| OfDisplacedTriangle (h : DisplacedTriangleHit)
| OfCurve (h : CurveHit)
| OfSDFGrid (h : SDFGridHit)
| OfVolume (h : VolumeHit).

(** The tag the variant's [pack] passes to [packHeader]. *)
Definition tagOf (h : TypedHit) : HitType :=
  match h with
  | OfTriangle _ => HitType.Triangle
  | OfDisplacedTriangle _ => HitType.DisplacedTriangle
  | OfCurve _ => HitType.Curve
  | OfSDFGrid _ => HitType.SDFGrid
  | OfVolume _ => HitType.Volume
  end.

Definition packTyped (cfg : Config) (h : TypedHit) : option PackedHitInfo :=
  match h with
  | OfTriangle th => TriangleHit.pack cfg th
  | OfDisplacedTriangle dh => DisplacedTriangleHit.pack cfg dh
  | OfCurve ch => CurveHit.pack cfg ch
  | OfSDFGrid sh => SDFGridHit.pack cfg sh
  | OfVolume vh => VolumeHit.pack cfg vh
  end.

(** The geometry-type switch that guards the variant's codec; the codec
    of [VolumeHit] has none. *)
Definition variantEnabled (cfg : Config) (h : TypedHit) : bool :=
  match h with
  | OfTriangle _ => SCENE_HAS_TRIANGLE_MESH cfg
  | OfDisplacedTriangle _ => SCENE_HAS_DISPLACED_TRIANGLE_MESH cfg
  | OfCurve _ => SCENE_HAS_CURVE cfg
  | OfSDFGrid _ => SCENE_HAS_SDF_GRID cfg
  | OfVolume _ => true
  end.

Definition inWidths (cfg : Config) (id : GeometryInstanceID) (prim : Z) : Prop :=
  0 <= index id < 2 ^ kInstanceIDBits cfg /\
  0 <= prim < 2 ^ kPrimitiveIndexBits cfg.

(** The instance ID and primitive index of the hit lie within the
    configured bit widths. *)
Definition addressInWidths (cfg : Config) (h : TypedHit) : Prop :=
  match h with
  | OfTriangle th => inWidths cfg (instanceID th) (primitiveIndex th)
  | OfDisplacedTriangle dh =>
      inWidths cfg (instanceID (geometry dh)) (primitiveIndex (geometry dh))
  | OfCurve ch => inWidths cfg (instanceID ch) (primitiveIndex ch)
  | OfSDFGrid sh =>
      inWidths cfg (gridInstanceID sh) (SDFGridHit.primitiveDataOf cfg (hitData sh))
  | OfVolume _ => True
  end.

(** The instance ID and the primitive index the variant's [pack] passes
    to [packHeader]; [VolumeHit.pack] passes none. *)
Definition addressOf (cfg : Config) (h : TypedHit)
  : option (GeometryInstanceID * Z) :=
  match h with
  | OfTriangle th => Some (instanceID th, primitiveIndex th)
  | OfDisplacedTriangle dh =>
      Some (instanceID (geometry dh), primitiveIndex (geometry dh))
  | OfCurve ch => Some (instanceID ch, primitiveIndex ch)
  | OfSDFGrid sh =>
      Some (gridInstanceID sh, SDFGridHit.primitiveDataOf cfg (hitData sh))
  | OfVolume _ => None
  end.

(** The variant has an encoding in the vector of the configuration: the
    codecs of DisplacedTriangle, Curve and SDFGrid address words 2 and 3,
    and the compressed [VolumeHit] keeps a half float in the low 16 bits
    of word 0, below the tag. *)
Definition layoutFits (cfg : Config) (h : TypedHit) : Prop :=
  match h with
  | OfTriangle _ => True
  | OfDisplacedTriangle _ | OfCurve _ | OfSDFGrid _ =>
      HIT_INFO_USE_COMPRESSION cfg = false
  | OfVolume _ =>
      HIT_INFO_USE_COMPRESSION cfg = true -> kTypeBits cfg <= 16
  end.

(** ** Well-formed inputs *)

(** A value of type [PackedHitInfo] under a configuration: the words of
    the vector, each 32 bits wide. *)
Definition wf_packed (cfg : Config) (packed : PackedHitInfo) : Prop :=
  length packed = packedWords cfg /\ Forall is_uint packed.

(** The three bit widths as the spec constrains them: a header of at most
    64 bits. *)
Definition wf_widths (cfg : Config) : Prop :=
  0 <= kTypeBits cfg /\ 0 <= kInstanceIDBits cfg /\
  0 <= kPrimitiveIndexBits cfg <= 32 /\
  kTypeBits cfg + kInstanceIDBits cfg + kPrimitiveIndexBits cfg <= 64.

(** The layout both header branches decode correctly: the tag field is
    not empty and the tag and the instance ID fit side by side in word 0. *)
Definition header_fits (cfg : Config) : Prop :=
  0 < kTypeBits cfg /\ 0 <= kInstanceIDBits cfg /\
  0 <= kPrimitiveIndexBits cfg <= 32 /\
  kTypeBits cfg + kInstanceIDBits cfg <= 32.

(** ** Vocabulary of the numeric statements *)

(** The value one in units of binary32: [2^149] smallest subnormals. *)
Definition S32 : Z := 2 ^ 149.

(** A finite float that is not negative. *)
Definition nonneg (x : float) : Prop :=
  is_finite binary32 x = true /\ 0 <= ssval binary32 x.

(** The values a finite binary32 pattern can denote, in units. *)
Definition onGrid (sv : Z) : Prop :=
  exists M k, 0 <= M < 2 ^ 24 /\ 0 <= k /\ sv = M * 2 ^ k.

(** The constant [1.f / 16777215] of the decoder. *)
Definition r24 : float := F32.div (F32.lit 1 1) (F32.ofUint 16777215).

(** The fields below the tag in word 0 of a full header. *)
Definition headerLow (cfg : Config) (id : GeometryInstanceID) (prim : Z) : Z :=
  if kHeaderBits cfg <=? 32
  then Z.lor (shl32 (index id) (kInstanceIDOffset cfg)) prim
  else index id.

(** Words 2 and 3 of a displaced-triangle hit as functions of the two
    24-bit codes and the half float. *)
Definition word2 (ux uy : Z) : Z := Z.lor (shl32 ux 8) (shr32 uy 16).
Definition word3 (uy h : Z) : Z := Z.lor (shl32 uy 16) h.

(** Barycentrics of a point of the triangle: both finite and not
    negative, their sum at most one. *)
Definition inTriangle (b : float2) : Prop :=
  is_finite binary32 (V2.x b) = true /\ is_finite binary32 (V2.y b) = true /\
  (0 <= F32.value (V2.x b))%Q /\ (0 <= F32.value (V2.y b))%Q /\
  (F32.value (V2.x b) + F32.value (V2.y b) <= 1)%Q.

(** ** Configurations and hits of the examples *)

(** Every geometry type enabled, the NDSDF backend. *)
Definition mkConfig (compress : bool) (tB iB pB : Z) : Config :=
  {| HIT_INFO_DEFINES := true; HIT_INFO_USE_COMPRESSION := compress;
     HIT_INFO_TYPE_BITS := tB; HIT_INFO_INSTANCE_ID_BITS := iB;
     HIT_INFO_PRIMITIVE_INDEX_BITS := pB;
     SCENE_HAS_TRIANGLE_MESH := true; SCENE_HAS_DISPLACED_TRIANGLE_MESH := true;
     SCENE_HAS_CURVE := true; SCENE_HAS_SDF_GRID := true;
     SCENE_SDF_GRID_IMPLEMENTATION := NDSDF |}.

(** A 64-bit header whose tag and instance ID do not fit in word 0. *)
Definition cfgWide : Config := mkConfig false 4 30 30.

(** The widths of scenario A, without and with compression. *)
Definition cfgOpen : Config := mkConfig false 4 12 16.
Definition cfgPacked : Config := mkConfig true 4 12 16.

(** A two-word header within the layout both branches decode. *)
Definition cfgLong : Config := mkConfig false 4 20 24.

(** Compression with a tag of 17 bits, one more than the upper half of
    word 0: a 32-bit header within the bound of the specification. *)
Definition cfgTag17 : Config := mkConfig true 17 8 7.

(** Compression with a two-word header. *)
Definition cfgPackedLong : Config := mkConfig true 4 20 24.

(** The host has not set [HIT_INFO_DEFINES]: the widths it gives are not
    read. *)
Definition cfgNoDefines : Config :=
  {| HIT_INFO_DEFINES := false; HIT_INFO_USE_COMPRESSION := false;
     HIT_INFO_TYPE_BITS := 4; HIT_INFO_INSTANCE_ID_BITS := 12;
     HIT_INFO_PRIMITIVE_INDEX_BITS := 16;
     SCENE_HAS_TRIANGLE_MESH := true; SCENE_HAS_DISPLACED_TRIANGLE_MESH := true;
     SCENE_HAS_CURVE := true; SCENE_HAS_SDF_GRID := true;
     SCENE_SDF_GRID_IMPLEMENTATION := NDSDF |}.

(** No geometry type enabled. *)
Definition cfgNoGeometry : Config :=
  {| HIT_INFO_DEFINES := true; HIT_INFO_USE_COMPRESSION := false;
     HIT_INFO_TYPE_BITS := 4; HIT_INFO_INSTANCE_ID_BITS := 12;
     HIT_INFO_PRIMITIVE_INDEX_BITS := 16;
     SCENE_HAS_TRIANGLE_MESH := false; SCENE_HAS_DISPLACED_TRIANGLE_MESH := false;
     SCENE_HAS_CURVE := false; SCENE_HAS_SDF_GRID := false;
     SCENE_SDF_GRID_IMPLEMENTATION := SVO |}.

Definition geomHit (id prim : Z) (bx by_ : float) : GeometryHit :=
  {| instanceID := {| index := id |}; primitiveIndex := prim;
     barycentrics := {| V2.x := bx; V2.y := by_ |} |}.

(** One hit of each variant. *)
Definition sampleHits : list TypedHit :=
  [ OfTriangle (geomHit 5 77 (F32.lit 1 4) (F32.lit 3 4));
    OfDisplacedTriangle {| geometry := geomHit 5 77 (F32.lit 1 4) (F32.lit 3 4);
                           displacement := F32.lit 3 2 |};
    OfCurve (geomHit 5 77 (F32.lit 1 4) (F32.lit 3 4));
    OfSDFGrid {| gridInstanceID := {| index := 5 |};
                 hitData := {| lod := 3; primitiveID := 0; svoIndex := 0;
                               hitT := F32.lit 10 1 |} |};
    OfVolume {| t := F32.lit 10 1; g := F32.lit 3 10 |} ].

(** Scenario B of the specification: barycentrics (0.25, 0.75),
    displacement 1.5. *)
Definition scenarioB : DisplacedTriangleHit :=
  {| geometry := geomHit 5 77 (F32.lit 1 4) (F32.lit 3 4);
     displacement := F32.lit 3 2 |}.

(** Scenario C of the specification: t = 10.0, g = 0.3. *)
Definition scenarioC : VolumeHit := {| t := F32.lit 10 1; g := F32.lit 3 10 |}.

(** A displaced-triangle hit on a vertex: barycentrics (1.0, 0.0). *)
Definition vertexHit : DisplacedTriangleHit :=
  {| geometry := geomHit 5 77 (F32.lit 1 1) 0; displacement := 0 |}.

(** * Properties *)

(** * Words and bits *)

Lemma pow2_pos (n : Z) : 0 <= n -> 0 < 2 ^ n.
Proof. intros; apply Z.pow_pos_nonneg; lia. Qed.

Lemma mask_ones (n : Z) : 0 <= n <= 32 -> mask n = Z.ones n.
Proof.
  intros Hn. unfold mask, shl32, wrap32.
  rewrite Z.shiftl_1_l, Z.ones_equiv.
  destruct (Z.eq_dec n 32) as [->|Hne].
  - reflexivity.
  - assert (2 ^ n < 2 ^ 32) by (apply Z.pow_lt_mono_r; lia).
    pose proof (pow2_pos n ltac:(lia)).
    rewrite (Z.mod_small (2 ^ n)) by lia.
    rewrite Z.mod_small by lia. lia.
Qed.

Lemma testbit_shl32 (v n i : Z) :
  0 <= n -> 0 <= i ->
  Z.testbit (shl32 v n) i = (i <? 32) && Z.testbit v (i - n).
Proof.
  intros Hn Hi. unfold shl32, wrap32.
  destruct (Z.ltb_spec i 32).
  - rewrite Z.mod_pow2_bits_low by lia. now rewrite Z.shiftl_spec by lia.
  - now rewrite Z.mod_pow2_bits_high by lia.
Qed.

Lemma testbit_above (v n i : Z) :
  0 <= v < 2 ^ n -> 0 <= n <= i -> Z.testbit v i = false.
Proof.
  intros Hv Hi.
  destruct (Z.eq_dec v 0) as [->|Hne]; [apply Z.bits_0|].
  apply Z.bits_above_log2; [lia|].
  apply Z.log2_lt_pow2; [lia|].
  eapply Z.lt_le_trans; [apply Hv|]. apply Z.pow_le_mono_r; lia.
Qed.

Lemma shl32_uint (v n : Z) : is_uint (shl32 v n).
Proof. unfold is_uint, shl32, wrap32. apply Z.mod_pos_bound. lia. Qed.

Lemma land_ones_small (v n : Z) : 0 <= n -> 0 <= v < 2 ^ n -> Z.land v (Z.ones n) = v.
Proof. intros. rewrite Z.land_ones by lia. apply Z.mod_small; lia. Qed.

(** Splitting a goal on bits. *)
Ltac bitwise i Hi :=
  apply Z.bits_inj'; intros i Hi;
  repeat first
    [ rewrite Z.land_spec | rewrite Z.lor_spec
    | rewrite Z.shiftr_spec by lia
    | rewrite testbit_shl32 by lia
    | rewrite Z.testbit_ones_nonneg by lia ].

Ltac cmp_cases :=
  repeat match goal with
  | |- context [?a <? ?b] => destruct (Z.ltb_spec a b)
  | |- context [?a <=? ?b] => destruct (Z.leb_spec a b)
  end.

(** The low field of a word assembled from three fields in disjoint
    positions. *)
Lemma low_field (a b c n : Z) :
  0 <= n ->
  (forall i, 0 <= i < n -> Z.testbit a i = false) ->
  (forall i, 0 <= i < n -> Z.testbit b i = false) ->
  0 <= c < 2 ^ n ->
  Z.land (Z.lor (Z.lor a b) c) (Z.ones n) = c.
Proof.
  intros Hn Ha Hb Hc. bitwise i Hi.
  destruct (Z.ltb_spec i n).
  - rewrite Ha, Hb by lia. cbn. now rewrite andb_true_r.
  - rewrite andb_false_r. symmetry. apply (testbit_above c n); lia.
Qed.

Lemma upd_length (p : PackedHitInfo) (i : nat) (v : Z) : length (upd p i v) = length p.
Proof. revert i; induction p as [|w ws IH]; intros [|j]; cbn; auto. Qed.

Lemma wr_length (p : PackedHitInfo) (i : nat) (v : Z) (p' : PackedHitInfo) :
  wr p i v = Some p' -> length p' = length p.
Proof.
  unfold wr. destruct (i <? length p)%nat; [|discriminate].
  intros [= <-]. apply upd_length.
Qed.

Lemma rd_upd_same (p : PackedHitInfo) (i : nat) (v : Z) :
  (i < length p)%nat -> rd (upd p i v) i = Some v.
Proof.
  revert i. induction p as [|w ws IH]; intros [|j] H; cbn in *; try lia; auto.
  apply IH. lia.
Qed.

Lemma rd_upd_other (p : PackedHitInfo) (i j : nat) (v : Z) :
  i <> j -> rd (upd p i v) j = rd p j.
Proof.
  revert i j. induction p as [|w ws IH]; intros [|i] [|j] H; cbn in *; auto; try lia.
Qed.

Lemma wr_ok (p : PackedHitInfo) (i : nat) (v : Z) :
  (i < length p)%nat -> wr p i v = Some (upd p i v).
Proof. intros H. unfold wr. apply Nat.ltb_lt in H. now rewrite H. Qed.

Lemma packedWords_ge2 cfg : (2 <= packedWords cfg)%nat.
Proof. unfold packedWords. destruct (HIT_INFO_USE_COMPRESSION cfg); lia. Qed.

(** * Header *)

Section Header.
Variable cfg : Config.
Hypothesis Hfit : header_fits cfg.

Lemma kTypeOffset_eq : kTypeOffset cfg = 32 - kTypeBits cfg.
Proof.
  destruct Hfit as (? & ? & ? & ?). unfold kTypeOffset, wrap32.
  apply Z.mod_small. lia.
Qed.

Lemma kHeaderBits_eq :
  kHeaderBits cfg = kTypeBits cfg + kInstanceIDBits cfg + kPrimitiveIndexBits cfg.
Proof.
  destruct Hfit as (? & ? & ? & ?). unfold kHeaderBits, wrap32.
  apply Z.mod_small. lia.
Qed.

(** Word 0 of a one-word header gives back its two fields. *)
Lemma header_word0_short (ty id prim : Z) :
  kHeaderBits cfg <= 32 ->
  0 <= id < 2 ^ kInstanceIDBits cfg ->
  0 <= prim < 2 ^ kPrimitiveIndexBits cfg ->
  let w0 := Z.lor (Z.lor (shl32 ty (kTypeOffset cfg))
                         (shl32 id (kInstanceIDOffset cfg))) prim in
  Z.land (shr32 w0 (kInstanceIDOffset cfg)) (mask (kInstanceIDBits cfg)) = id /\
  Z.land w0 (mask (kPrimitiveIndexBits cfg)) = prim.
Proof.
  intros Hh Hid Hprim. rewrite kHeaderBits_eq in Hh.
  destruct Hfit as (Ht & Hi & Hp & Hti).
  rewrite kTypeOffset_eq. unfold kInstanceIDOffset, shr32.
  set (tB := kTypeBits cfg) in *. set (iB := kInstanceIDBits cfg) in *.
  set (pB := kPrimitiveIndexBits cfg) in *.
  rewrite !mask_ones by lia. cbv zeta. split.
  - bitwise i Hi'.
    destruct (Z.ltb_spec i iB).
    + rewrite andb_true_r.
      replace (i + pB <? 32) with true by (symmetry; apply Z.ltb_lt; lia).
      rewrite (Z.testbit_neg_r ty) by lia.
      rewrite (testbit_above prim pB) by lia.
      cbn. rewrite orb_false_r. f_equal. lia.
    + rewrite andb_false_r. symmetry. apply (testbit_above id iB); lia.
  - apply low_field; try lia.
    + intros i Hi'. rewrite testbit_shl32 by lia.
      rewrite (Z.testbit_neg_r ty) by lia. apply andb_false_r.
    + intros i Hi'. rewrite testbit_shl32 by lia.
      rewrite (Z.testbit_neg_r id) by lia. apply andb_false_r.
Qed.

(** Word 0 of a two-word header gives back the instance ID. *)
Lemma header_word0_long (ty id : Z) :
  0 <= id < 2 ^ kInstanceIDBits cfg ->
  Z.land (Z.lor (shl32 ty (kTypeOffset cfg)) id) (mask (kInstanceIDBits cfg)) = id.
Proof.
  intros Hid. destruct Hfit as (Ht & Hi & Hp & Hti).
  rewrite kTypeOffset_eq, mask_ones by lia.
  bitwise i Hi'.
  destruct (Z.ltb_spec i (kInstanceIDBits cfg)).
  - rewrite (Z.testbit_neg_r ty) by lia. rewrite andb_false_r, andb_true_r. reflexivity.
  - rewrite andb_false_r. symmetry. apply (testbit_above id (kInstanceIDBits cfg)); lia.
Qed.

(** The tag sits above every other field of word 0. *)
Lemma header_tag (ty lo : Z) :
  0 <= ty < 2 ^ kTypeBits cfg ->
  0 <= lo < 2 ^ (32 - kTypeBits cfg) ->
  shr32 (Z.lor (shl32 ty (kTypeOffset cfg)) lo) (kTypeOffset cfg) = ty.
Proof.
  intros Hty Hlo. destruct Hfit as (Ht & Hi & Hp & Hti).
  rewrite kTypeOffset_eq. unfold shr32.
  bitwise i Hi'.
  replace (i + (32 - kTypeBits cfg) - (32 - kTypeBits cfg)) with i by lia.
  rewrite (testbit_above lo (32 - kTypeBits cfg)) by lia.
  rewrite orb_false_r.
  destruct (Z.ltb_spec (i + (32 - kTypeBits cfg)) 32); [reflexivity|].
  cbn. symmetry. apply (testbit_above ty (kTypeBits cfg)); lia.
Qed.

End Header.

Lemma rd0_cons w ws : rd (w :: ws) 0 = Some w. Proof. reflexivity. Qed.

Lemma packed_two (p : PackedHitInfo) :
  (2 <= length p)%nat -> exists w0 w1 ws, p = w0 :: w1 :: ws.
Proof. destruct p as [|w0 [|w1 ws]]; cbn; intros; try lia. eauto. Qed.

Lemma header_codec_gen cfg packed ty id prim :
  header_fits cfg ->
  (2 <= length packed)%nat ->
  inWidths cfg id prim ->
  exists p, packHeader cfg packed ty id prim = Some p /\
            unpackHeader cfg p = Some (id, prim) /\
            rd p 0 = Some (Z.lor (shl32 ty (kTypeOffset cfg))
                             (if kHeaderBits cfg <=? 32
                              then Z.lor (shl32 (index id) (kInstanceIDOffset cfg)) prim
                              else index id)) /\
            length p = length packed /\
            (forall j, (2 <= j)%nat -> rd p j = rd packed j).
Proof.
  intros Hfit Hlen [Hid Hprim].
  destruct (packed_two packed Hlen) as (w0 & w1 & ws & ->).
  unfold packHeader, unpackHeader.
  destruct (Z.leb_spec (kHeaderBits cfg) 32) as [Hh|Hh].
  - cbn. eexists. split; [reflexivity|].
    destruct (header_word0_short cfg Hfit ty (index id) prim Hh Hid Hprim) as [E1 E2].
    cbn zeta in E1, E2. cbn. rewrite E1, E2. destruct id; cbn.
    rewrite Z.lor_assoc. repeat split. intros [|[|j]] Hj; try lia; reflexivity.
  - cbn. eexists. split; [reflexivity|]. cbn.
    rewrite (header_word0_long cfg Hfit ty (index id) Hid). destruct id; cbn.
    repeat split. intros [|[|j]] Hj; try lia; reflexivity.
Qed.

(** C1 (amended). In every configuration whose tag field is not empty and
    whose tag and instance ID fit side by side in word 0
    ([0 < typeBits], [typeBits + instanceIDBits <= 32],
    [primitiveIndexBits <= 32]), for every hit type, every instance ID
    below [2^instanceIDBits] and every primitive index below
    [2^primitiveIndexBits], [unpackHeader] applied to the result of
    [packHeader] returns exactly that instance ID and that primitive
    index, in the one-word branch and in the two-word branch. On any
    packed value the one-word branch masks both fields by
    [(1 << fieldBits) - 1]; the two-word branch masks the instance ID and
    returns word 1 whole as the primitive index. *)
Theorem header_roundtrip cfg packed ty id prim :
  header_fits cfg ->
  wf_packed cfg packed ->
  inWidths cfg id prim ->
  (exists p, packHeader cfg packed ty id prim = Some p /\
             unpackHeader cfg p = Some (id, prim)) /\
  (exists w0 w1,
      rd packed 0 = Some w0 /\ rd packed 1 = Some w1 /\
      unpackHeader cfg packed =
        Some (if kHeaderBits cfg <=? 32
              then ({| index := (w0 / 2 ^ kInstanceIDOffset cfg) mod 2 ^ kInstanceIDBits cfg |},
                    w0 mod 2 ^ kPrimitiveIndexBits cfg)
              else ({| index := w0 mod 2 ^ kInstanceIDBits cfg |}, w1))).
Proof.
  intros Hfit [Hlen Hw] Hin.
  pose proof (packedWords_ge2 cfg) as H2.
  split.
  - destruct (header_codec_gen cfg packed ty id prim Hfit ltac:(lia) Hin)
      as (p & Hp & Hu & _). eauto.
  - destruct (packed_two packed ltac:(lia)) as (w0 & w1 & ws & ->).
    exists w0, w1. repeat split.
    destruct Hfit as (Ht & Hi & Hp & Hti).
    unfold unpackHeader, kInstanceIDOffset, shr32.
    destruct (Z.leb_spec (kHeaderBits cfg) 32); cbn.
    + rewrite !mask_ones, !Z.land_ones, Z.shiftr_div_pow2 by lia. reflexivity.
    + rewrite !mask_ones, !Z.land_ones by lia. reflexivity.
Qed.

Ltac btidy :=
  repeat (rewrite ?andb_false_r, ?andb_true_r, ?orb_false_r; cbn [andb orb]);
  try reflexivity.

Lemma header_roundtrip_witness :
  (exists p, packHeader cfgPacked [0; 0] HitType.Triangle {| index := 5 |} 4660 = Some p /\
             unpackHeader cfgPacked p = Some ({| index := 5 |}, 4660)) /\
  (exists p, packHeader cfgLong [0; 0; 0; 0] HitType.Triangle
               {| index := 5 |} 123456 = Some p /\
             unpackHeader cfgLong p = Some ({| index := 5 |}, 123456)).
Proof.
  split.
  - refine (proj1 (header_roundtrip cfgPacked [0; 0]
                     HitType.Triangle {| index := 5 |} 4660 _ _ _)).
    + unfold header_fits; cbn; lia.
    + split; [reflexivity|]. repeat constructor; unfold is_uint; lia.
    + unfold inWidths; cbn; lia.
  - refine (proj1 (header_roundtrip cfgLong [0; 0; 0; 0]
                     HitType.Triangle {| index := 5 |} 123456 _ _ _)).
    + unfold header_fits; cbn; lia.
    + split; [reflexivity|]. repeat constructor; unfold is_uint; lia.
    + unfold inWidths; cbn; lia.
Defined.

(** Counterexample to C1 as stated: a 64-bit header with 4 tag bits and
    30 instance-ID bits. The tag of a Triangle hit lands on bit 28, inside
    the 30 bits the decoder reads as the instance ID, so instance ID 0
    is read back as [2^28]. *)
Lemma header_roundtrip_fails_wide :
  wf_widths cfgWide /\
  inWidths cfgWide {| index := 0 |} 0 /\
  (p <- packHeader cfgWide (packedZero cfgWide) HitType.Triangle {| index := 0 |} 0 ;;
   unpackHeader cfgWide p) = Some ({| index := 268435456 |}, 0) /\
  (p <- packHeader cfgWide (packedZero cfgWide) HitType.Triangle {| index := 0 |} 0 ;;
   unpackHeader cfgWide p) <> Some ({| index := 0 |}, 0).
Proof.
  split; [unfold wf_widths; cbn; lia|].
  split; [unfold inWidths; cbn; lia|].
  split; [reflexivity|discriminate].
Qed.

(** C2. A zero-filled [PackedHitInfo] yields [getType() == None] and
    [isValid() == false] in every configuration: whatever the three bit
    widths, the defines and the compression flag are. *)
Theorem zero_filled_is_none (cfg : Config) :
  HitInfo.getType cfg (HitInfo.ofPacked (packedZero cfg))
    = Some (HitType.None, HitInfo.ofPacked (packedZero cfg)) /\
  HitInfo.isValid cfg (HitInfo.ofPacked (packedZero cfg))
    = Some (false, HitInfo.ofPacked (packedZero cfg)) /\
  HitInfo.isValid cfg (makeInvalidHit cfg) = Some (false, makeInvalidHit cfg).
Proof.
  assert (E : HitInfo.getType cfg (HitInfo.ofPacked (packedZero cfg))
              = Some (HitType.None, HitInfo.ofPacked (packedZero cfg))).
  { unfold HitInfo.getType, HitInfo.seq, HitInfo.getData, HitInfo.lift, HitInfo.ret,
      HitInfo.ofPacked, packedZero, packedWords, shr32.
    destruct (HIT_INFO_USE_COMPRESSION cfg); cbn; now rewrite Z.shiftr_0_l. }
  split; [exact E|].
  assert (V : HitInfo.isValid cfg (HitInfo.ofPacked (packedZero cfg))
              = Some (false, HitInfo.ofPacked (packedZero cfg))).
  { unfold HitInfo.isValid, HitInfo.seq. rewrite E. reflexivity. }
  split; [exact V|exact V].
Qed.

(** C7. With [typeBits = 4], [instanceIDBits = 12] and
    [primitiveIndexBits = 16] the header has 32 bits; packing the header
    of a Triangle hit with instance ID 5 and primitive index 123456 and
    unpacking it yields the primitive index [123456 mod 65536 = 57920].
    In this configuration packing never fails: a primitive index of any
    size is read back as its low 16 bits, and an instance ID of any size
    next to a primitive index in range is read back as its low 12 bits. *)
Theorem scenario_A_truncation cfg packed ty id prim :
  kTypeBits cfg = 4 -> kInstanceIDBits cfg = 12 -> kPrimitiveIndexBits cfg = 16 ->
  wf_packed cfg packed ->
  is_uint (index id) -> is_uint prim ->
  kHeaderBits cfg = 32 /\
  (exists p, packHeader cfg packed HitType.Triangle {| index := 5 |} 123456 = Some p /\
             unpackHeader cfg p = Some ({| index := 5 |}, 57920)) /\
  123456 mod 65536 = 57920 /\
  (exists p i' prim',
      packHeader cfg packed ty id prim = Some p /\
      unpackHeader cfg p = Some (i', prim') /\
      prim' = prim mod 2 ^ 16 /\
      (prim < 2 ^ 16 -> index i' = index id mod 2 ^ 12)).
Proof.
  intros Ht Hi Hp [Hlen _] Hid Hprim.
  pose proof (packedWords_ge2 cfg) as H2.
  destruct (packed_two packed ltac:(lia)) as (w0 & w1 & ws & ->).
  assert (Hh : kHeaderBits cfg = 32) by (unfold kHeaderBits; rewrite Ht, Hi, Hp; reflexivity).
  assert (Ho : kTypeOffset cfg = 28) by (unfold kTypeOffset; rewrite Ht; reflexivity).
  split; [exact Hh|].
  unfold packHeader, unpackHeader, kInstanceIDOffset. rewrite Hh, Ho, Hi, Hp.
  change (32 <=? 32) with true. cbv iota.
  split; [eexists; split; reflexivity|].
  split; [reflexivity|].
  cbn -[shr32 shl32 mask Z.land Z.lor Z.modulo Z.pow].
  do 3 eexists. split; [reflexivity|]. split; [reflexivity|].
  cbn -[shr32 shl32 mask Z.land Z.lor Z.modulo Z.pow].
  change (mask 16) with (Z.ones 16). change (mask 12) with (Z.ones 12).
  unfold is_uint in *. split.
  - rewrite <- Z.land_ones by lia. bitwise i Hi'.
    destruct (Z.ltb_spec i 16).
    + rewrite (Z.testbit_neg_r ty), (Z.testbit_neg_r (index id)) by lia.
      btidy.
    + btidy.
  - intros Hsmall. rewrite <- Z.land_ones by lia. unfold shr32. bitwise i Hi'.
    destruct (Z.ltb_spec i 12).
    + rewrite (Z.testbit_neg_r ty) by lia.
      rewrite (testbit_above prim 16) by lia.
      replace (i + 16 <? 32) with true by (symmetry; apply Z.ltb_lt; lia).
      replace (i + 16 - 16) with i by lia.
      btidy.
    + btidy.
Qed.

Lemma scenario_A_truncation_witness :
  kHeaderBits cfgPacked = 32 /\
  (exists p, packHeader cfgPacked [0; 0] HitType.Triangle
               {| index := 5 |} 123456 = Some p /\
             unpackHeader cfgPacked p = Some ({| index := 5 |}, 57920)).
Proof.
  pose proof (scenario_A_truncation cfgPacked [0; 0] HitType.Curve
                {| index := 4097 |} 65537 eq_refl eq_refl eq_refl) as H.
  destruct H as (H1 & H2 & _).
  - split; [reflexivity|]. repeat constructor; unfold is_uint; lia.
  - unfold is_uint; cbn; lia.
  - unfold is_uint; lia.
  - split; assumption.
Defined.

Ltac run :=
  cbn -[shr32 shl32 mask Z.land Z.lor Z.modulo Z.pow Z.div Z.shiftr Z.shiftl
        quantize24 dequantize24 F32.f32tof16 F32.f16tof32
        packUnorm2x16_unsafe unpackUnorm2x16 kTypeOffset kInstanceIDOffset
        kInstanceIDBits kPrimitiveIndexBits kTypeBits kHeaderBits Z.leb
        HitInfo.getType HitInfo.ofPacked].

Lemma getType_cons cfg w0 rest :
  HitInfo.getType cfg (HitInfo.ofPacked (w0 :: rest))
  = Some (shr32 w0 (kTypeOffset cfg), HitInfo.ofPacked (w0 :: rest)).
Proof. reflexivity. Qed.

Lemma header_tag_bits cfg ty lo :
  header_fits cfg ->
  0 <= ty < 2 ^ kTypeBits cfg ->
  (forall i, 32 - kTypeBits cfg <= i -> Z.testbit lo i = false) ->
  shr32 (Z.lor (shl32 ty (kTypeOffset cfg)) lo) (kTypeOffset cfg) = ty.
Proof.
  intros Hfit Hty Hlo. rewrite (kTypeOffset_eq cfg Hfit).
  destruct Hfit as (Ht & Hi & Hp & Hti). unfold shr32.
  bitwise i Hi'.
  replace (i + (32 - kTypeBits cfg) - (32 - kTypeBits cfg)) with i by lia.
  rewrite Hlo by lia. rewrite orb_false_r.
  destruct (Z.ltb_spec (i + (32 - kTypeBits cfg)) 32); [reflexivity|].
  cbn. symmetry. apply (testbit_above ty (kTypeBits cfg)); lia.
Qed.

Lemma headerLow_bits cfg id prim i :
  header_fits cfg -> inWidths cfg id prim ->
  32 - kTypeBits cfg <= i -> Z.testbit (headerLow cfg id prim) i = false.
Proof.
  intros Hfit [Hid Hprim] Hi. unfold headerLow.
  pose proof (kHeaderBits_eq cfg Hfit) as Hh.
  destruct Hfit as (Ht & Hib & Hp & Hti). unfold kInstanceIDOffset.
  destruct (Z.leb_spec (kHeaderBits cfg) 32).
  - rewrite Z.lor_spec, testbit_shl32 by lia.
    rewrite (testbit_above (index id) (kInstanceIDBits cfg)) by lia.
    rewrite (testbit_above prim (kPrimitiveIndexBits cfg)) by lia.
    btidy.
  - apply (testbit_above (index id) (kInstanceIDBits cfg)); lia.
Qed.

Lemma packHeader_word0 cfg w0 w1 ws ty id prim :
  exists w1', packHeader cfg (w0 :: w1 :: ws) ty id prim
              = Some (Z.lor (shl32 ty (kTypeOffset cfg)) (headerLow cfg id prim) :: w1' :: ws).
Proof.
  unfold packHeader, headerLow. destruct (kHeaderBits cfg <=? 32).
  - exists w1. run. now rewrite Z.lor_assoc.
  - exists prim. reflexivity.
Qed.

Lemma ones16_bits v i : 16 <= i -> Z.testbit (Z.land v 65535) i = false.
Proof.
  intros Hi. change 65535 with (Z.ones 16).
  rewrite Z.land_spec, Z.testbit_ones_nonneg by lia.
  destruct (Z.ltb_spec i 16); [lia|]. btidy.
Qed.

(** C3 (amended). In a configuration whose tag field is not empty, whose
    tag and instance ID fit in word 0 and whose [typeBits] hold the tag of
    the variant, for every enabled variant that has an encoding in the
    configured vector (Triangle always; DisplacedTriangle, Curve and
    SDFGrid without compression; Volume under compression when
    [typeBits <= 16]) and every typed hit of it whose instance ID and
    primitive index lie within the configured widths, [getType()] on the
    packed hit returns the tag of the variant. [getType()] is
    [word0 >> (32 - typeBits)]: it reads the high [typeBits] bits of
    word 0 and nothing else. *)
Theorem getType_of_packed_hit cfg h :
  header_fits cfg ->
  0 <= tagOf h < 2 ^ kTypeBits cfg ->
  variantEnabled cfg h = true ->
  addressInWidths cfg h ->
  layoutFits cfg h ->
  (exists p, packTyped cfg h = Some p /\
             HitInfo.getType cfg (HitInfo.ofPacked p)
             = Some (tagOf h, HitInfo.ofPacked p)) /\
  (forall w0 rest,
      HitInfo.getType cfg (HitInfo.ofPacked (w0 :: rest))
      = Some (w0 / 2 ^ (32 - kTypeBits cfg), HitInfo.ofPacked (w0 :: rest))).
Proof.
  intros Hfit Hty Hen Hin Hlay. split.
  - destruct h as [th|dh|ch|sh|vh]; cbn [tagOf packTyped variantEnabled addressInWidths layoutFits] in *.
    + unfold TriangleHit.pack, packedZero, packedWords. rewrite Hen.
      destruct (HIT_INFO_USE_COMPRESSION cfg); cbn [repeat].
      * destruct (packHeader_word0 cfg 0 0 [] HitType.Triangle (instanceID th) (primitiveIndex th)) as [w1 ->].
        run. eexists; split; [reflexivity|]. rewrite getType_cons. do 2 f_equal.
        apply header_tag_bits; auto. intros; now apply headerLow_bits.
      * destruct (packHeader_word0 cfg 0 0 [0; 0] HitType.Triangle (instanceID th) (primitiveIndex th)) as [w1 ->].
        run. eexists; split; [reflexivity|]. rewrite getType_cons. do 2 f_equal.
        apply header_tag_bits; auto. intros; now apply headerLow_bits.
    + unfold DisplacedTriangleHit.pack, packedZero, packedWords. rewrite Hen, Hlay. cbn [repeat].
      destruct (packHeader_word0 cfg 0 0 [0; 0] HitType.DisplacedTriangle
                  (instanceID (geometry dh)) (primitiveIndex (geometry dh))) as [w1 ->].
      run. eexists; split; [reflexivity|]. rewrite getType_cons. do 2 f_equal.
      apply header_tag_bits; auto. intros; now apply headerLow_bits.
    + unfold CurveHit.pack, packedZero, packedWords. rewrite Hen, Hlay. cbn [repeat].
      destruct (packHeader_word0 cfg 0 0 [0; 0] HitType.Curve (instanceID ch) (primitiveIndex ch)) as [w1 ->].
      run. eexists; split; [reflexivity|]. rewrite getType_cons. do 2 f_equal.
      apply header_tag_bits; auto. intros; now apply headerLow_bits.
    + unfold SDFGridHit.pack, packedZero, packedWords. rewrite Hen, Hlay. cbn [repeat]. run.
      destruct (packHeader_word0 cfg 0 0 [asuint (hitT (hitData sh)); 0] HitType.SDFGrid
                  (gridInstanceID sh) (SDFGridHit.primitiveDataOf cfg (hitData sh))) as [w1 ->].
      eexists; split; [reflexivity|]. rewrite getType_cons. do 2 f_equal.
      apply header_tag_bits; auto. intros; now apply headerLow_bits.
    + unfold VolumeHit.pack, packHeaderType, packedZero, packedWords.
      destruct (HIT_INFO_USE_COMPRESSION cfg); run.
      * eexists; split; [reflexivity|]. rewrite getType_cons. do 2 f_equal.
        apply header_tag_bits; auto. intros i Hi. apply ones16_bits.
        specialize (Hlay eq_refl). lia.
      * eexists; split; [reflexivity|]. rewrite getType_cons. do 2 f_equal.
        rewrite <- (Z.lor_0_r (shl32 _ _)).
        apply header_tag_bits; auto. intros; apply Z.bits_0.
  - intros w0 rest. rewrite getType_cons. do 2 f_equal.
    rewrite (kTypeOffset_eq cfg Hfit). destruct Hfit as (? & ? & ? & ?).
    unfold shr32. apply Z.shiftr_div_pow2. lia.
Qed.

Ltac zcmp :=
  first [ apply Z.leb_le; vm_compute; reflexivity
        | apply Z.ltb_lt; vm_compute; reflexivity ].
Ltac concrete := repeat split; zcmp.

Lemma getType_of_packed_hit_witness :
  Forall (fun h => exists p, packTyped cfgOpen h = Some p /\
                     HitInfo.getType cfgOpen (HitInfo.ofPacked p)
                     = Some (tagOf h, HitInfo.ofPacked p)) sampleHits.
Proof.
  assert (Hfit : header_fits cfgOpen) by (unfold header_fits; cbn; lia).
  unfold sampleHits.
  repeat (apply Forall_cons;
    [ refine (proj1 (getType_of_packed_hit cfgOpen _ Hfit _ _ _ _));
      [ concrete | reflexivity | first [exact I | unfold addressInWidths, inWidths; concrete]
      | cbn; first [reflexivity | discriminate | exact I] ] | ]).
  apply Forall_nil.
Defined.

(** Counterexample to C3 as stated: in the 64-bit header with 4 tag bits
    and 30 instance-ID bits, a Triangle hit with instance ID [2^29], which
    is within the configured width, is read back with the tag of Curve. *)
Lemma getType_wrong_on_wide_header :
  wf_widths cfgWide /\
  variantEnabled cfgWide (OfTriangle (geomHit 536870912 0 0 0)) = true /\
  addressInWidths cfgWide (OfTriangle (geomHit 536870912 0 0 0)) /\
  match packTyped cfgWide (OfTriangle (geomHit 536870912 0 0 0)) with
  | Some p => option_map fst (HitInfo.getType cfgWide (HitInfo.ofPacked p))
  | None => None
  end = Some HitType.Curve /\
  HitType.Curve <> tagOf (OfTriangle (geomHit 536870912 0 0 0)).
Proof.
  split; [unfold wf_widths; concrete|].
  split; [reflexivity|].
  split; [unfold addressInWidths, inWidths; concrete|].
  split; [reflexivity|discriminate].
Qed.

(** C8. For each of the four variants guarded by a geometry type
    (Triangle, DisplacedTriangle, Curve, SDFGrid): when the type is
    disabled, decoding any packed value, of any length and content,
    returns the value with every field zero. *)
Theorem disabled_type_decodes_to_default cfg packed :
  (SCENE_HAS_TRIANGLE_MESH cfg = false ->
   TriangleHit.init cfg packed
   = Some {| instanceID := {| index := 0 |}; primitiveIndex := 0;
             barycentrics := {| V2.x := 0; V2.y := 0 |} |}) /\
  (SCENE_HAS_DISPLACED_TRIANGLE_MESH cfg = false ->
   DisplacedTriangleHit.init cfg packed
   = Some {| geometry := {| instanceID := {| index := 0 |}; primitiveIndex := 0;
                            barycentrics := {| V2.x := 0; V2.y := 0 |} |};
             displacement := 0 |}) /\
  (SCENE_HAS_CURVE cfg = false ->
   CurveHit.init cfg packed
   = Some {| instanceID := {| index := 0 |}; primitiveIndex := 0;
             barycentrics := {| V2.x := 0; V2.y := 0 |} |}) /\
  (SCENE_HAS_SDF_GRID cfg = false ->
   SDFGridHit.init cfg packed
   = Some {| gridInstanceID := {| index := 0 |};
             hitData := {| lod := 0; primitiveID := 0; svoIndex := 0; hitT := 0 |} |}).
Proof.
  unfold TriangleHit.init, DisplacedTriangleHit.init, CurveHit.init, SDFGridHit.init.
  repeat split; intros ->; reflexivity.
Qed.

Lemma disabled_type_decodes_to_default_witness :
  TriangleHit.init cfgNoGeometry [268435461; 7; 1048576000; 1061158912]
  = Some GeometryHit_default /\
  DisplacedTriangleHit.init cfgNoGeometry [536870917; 7; 1048576000; 1061158912]
  = Some DisplacedTriangleHit_default /\
  CurveHit.init cfgNoGeometry [805306373; 7; 1048576000; 1061158912]
  = Some GeometryHit_default /\
  SDFGridHit.init cfgNoGeometry [1073741829; 7; 1048576000; 1061158912]
  = Some SDFGridHit_default.
Proof.
  split; [|split; [|split]].
  - exact (proj1 (disabled_type_decodes_to_default cfgNoGeometry
                    [268435461; 7; 1048576000; 1061158912]) eq_refl).
  - exact (proj1 (proj2 (disabled_type_decodes_to_default cfgNoGeometry
                    [536870917; 7; 1048576000; 1061158912])) eq_refl).
  - exact (proj1 (proj2 (proj2 (disabled_type_decodes_to_default cfgNoGeometry
                    [805306373; 7; 1048576000; 1061158912]))) eq_refl).
  - exact (proj2 (proj2 (proj2 (disabled_type_decodes_to_default cfgNoGeometry
                    [1073741829; 7; 1048576000; 1061158912]))) eq_refl).
Defined.

Lemma wf_packed_shape cfg packed :
  wf_packed cfg packed ->
  (HIT_INFO_USE_COMPRESSION cfg = true /\ exists w0 w1, packed = [w0; w1]) \/
  (HIT_INFO_USE_COMPRESSION cfg = false /\ exists w0 w1 w2 w3, packed = [w0; w1; w2; w3]).
Proof.
  intros [Hlen _]. unfold packedWords in Hlen.
  destruct (HIT_INFO_USE_COMPRESSION cfg); [left|right]; split; auto.
  - destruct packed as [|w0 [|w1 [|]]]; try discriminate. eauto.
  - destruct packed as [|w0 [|w1 [|w2 [|w3 [|]]]]]; try discriminate. eauto 6.
Qed.

Ltac header_cases cfg :=
  unfold packHeader, unpackHeader, packHeaderType; destruct (kHeaderBits cfg <=? 32).

(** C9 (amended). On a vector of the configured size the Triangle and
    Volume codecs never index outside it, with or without compression.
    The DisplacedTriangle, Curve and SDFGrid codecs index outside it
    exactly when compression is on and their geometry type is enabled:
    without compression all their indices are in bounds, and in the
    two-word vector they are in bounds only with their bodies compiled
    out. *)
Theorem codec_indices_in_bounds cfg packed th dh ch sh vh :
  wf_packed cfg packed ->
  (TriangleHit.pack cfg th <> None /\ TriangleHit.init cfg packed <> None /\
   VolumeHit.pack cfg vh <> None /\ VolumeHit.init cfg packed <> None) /\
  (DisplacedTriangleHit.pack cfg dh = None <->
     HIT_INFO_USE_COMPRESSION cfg = true /\ SCENE_HAS_DISPLACED_TRIANGLE_MESH cfg = true) /\
  (DisplacedTriangleHit.init cfg packed = None <->
     HIT_INFO_USE_COMPRESSION cfg = true /\ SCENE_HAS_DISPLACED_TRIANGLE_MESH cfg = true) /\
  (CurveHit.pack cfg ch = None <->
     HIT_INFO_USE_COMPRESSION cfg = true /\ SCENE_HAS_CURVE cfg = true) /\
  (CurveHit.init cfg packed = None <->
     HIT_INFO_USE_COMPRESSION cfg = true /\ SCENE_HAS_CURVE cfg = true) /\
  (SDFGridHit.pack cfg sh = None <->
     HIT_INFO_USE_COMPRESSION cfg = true /\ SCENE_HAS_SDF_GRID cfg = true) /\
  (SDFGridHit.init cfg packed = None <->
     HIT_INFO_USE_COMPRESSION cfg = true /\ SCENE_HAS_SDF_GRID cfg = true).
Proof.
  intros Hwf.
  unfold TriangleHit.pack, TriangleHit.init, VolumeHit.pack, VolumeHit.init,
    DisplacedTriangleHit.pack, DisplacedTriangleHit.init, CurveHit.pack, CurveHit.init,
    SDFGridHit.pack, SDFGridHit.init, packedZero, packedWords.
  destruct (wf_packed_shape cfg packed Hwf) as [[Hc (w0 & w1 & ->)]|[Hc (w0 & w1 & w2 & w3 & ->)]];
    rewrite Hc; cbn [repeat];
    destruct (SCENE_HAS_TRIANGLE_MESH cfg), (SCENE_HAS_DISPLACED_TRIANGLE_MESH cfg),
      (SCENE_HAS_CURVE cfg), (SCENE_HAS_SDF_GRID cfg);
    header_cases cfg; cbn;
    repeat split; intros; try discriminate; try tauto;
    match goal with H : _ /\ _ |- _ => destruct H; discriminate end.
Qed.

Lemma wf_packed_concrete cfg packed :
  (length packed =? packedWords cfg)%nat = true ->
  forallb (fun w => (0 <=? w) && (w <? 2 ^ 32)) packed = true ->
  wf_packed cfg packed.
Proof.
  intros Hl Hw. split; [now apply Nat.eqb_eq|].
  apply Forall_forall. intros w Hin.
  rewrite forallb_forall in Hw. specialize (Hw w Hin).
  apply andb_true_iff in Hw. destruct Hw as [H1 H2].
  apply Z.leb_le in H1. apply Z.ltb_lt in H2. split; assumption.
Qed.

Lemma codec_indices_in_bounds_witness :
  TriangleHit.pack cfgPacked (geomHit 5 77 1048576000 1061158912) <> None /\
  TriangleHit.init cfgPacked [268435461; 7] <> None /\
  VolumeHit.pack cfgPacked {| t := 1092616192; g := 1050253722 |} <> None /\
  VolumeHit.init cfgPacked [268435461; 7] <> None.
Proof.
  refine (proj1 (codec_indices_in_bounds cfgPacked [268435461; 7]
                   (geomHit 5 77 1048576000 1061158912)
                   DisplacedTriangleHit_default GeometryHit_default SDFGridHit_default
                   {| t := 1092616192; g := 1050253722 |} _)).
  apply wf_packed_concrete; reflexivity.
Defined.

(** Counterexample to C9 as stated: with compression the vector has two
    words, and the three codecs that address words 2 and 3 fail on their
    first payload access. *)
Lemma compressed_codecs_leave_the_vector :
  wf_packed cfgPacked [0; 0] /\
  length (packedZero cfgPacked) = 2%nat /\
  DisplacedTriangleHit.pack cfgPacked DisplacedTriangleHit_default = None /\
  DisplacedTriangleHit.init cfgPacked [0; 0] = None /\
  CurveHit.pack cfgPacked GeometryHit_default = None /\
  CurveHit.init cfgPacked [0; 0] = None /\
  SDFGridHit.pack cfgPacked SDFGridHit_default = None /\
  SDFGridHit.init cfgPacked [0; 0] = None.
Proof.
  split; [apply wf_packed_concrete; reflexivity|].
  repeat split.
Qed.

Lemma seq_readOnly {A B} (m : HitInfo.method A) (k : A -> HitInfo.method B) :
  HitInfo.readOnly m -> (forall a, HitInfo.readOnly (k a)) ->
  HitInfo.readOnly (HitInfo.seq m k).
Proof.
  intros Hm Hk this. unfold HitInfo.seq. specialize (Hm this).
  destruct (m this) as [[a this']|]; [|exact I]. subst this'. apply Hk.
Qed.

Lemma getData_readOnly : HitInfo.readOnly HitInfo.getData.
Proof. intros this. reflexivity. Qed.

Lemma lift_readOnly {A} (o : option A) : HitInfo.readOnly (HitInfo.lift o).
Proof. intros this. unfold HitInfo.lift. destruct o; [reflexivity|exact I]. Qed.

Lemma ret_readOnly {A} (a : A) : HitInfo.readOnly (HitInfo.ret a).
Proof. intros this. reflexivity. Qed.

Create HintDb readonly.

#[local] Hint Resolve getData_readOnly lift_readOnly ret_readOnly : readonly.
#[local] Hint Extern 2 (HitInfo.readOnly (HitInfo.seq _ _)) =>
  apply seq_readOnly; [|intros ?] : readonly.

(** C10. Building a [HitInfo] from packed words and calling [pack()]
    returns the words unchanged, and building one from the words [pack()]
    returns gives the same object back: the two are mutual inverses. The
    queries [getType], [isValid], [getInstanceID] and [getPrimitiveIndex]
    return on every packed value and leave the object as it was; the five
    typed accessors and [pack] leave it as it was whenever they return. *)
Theorem raw_words_roundtrip cfg packed :
  wf_packed cfg packed ->
  (HitInfo.pack (HitInfo.ofPacked packed) = Some (packed, HitInfo.ofPacked packed) /\
   (forall h, option_map (fun r => HitInfo.ofPacked (fst r)) (HitInfo.pack h) = Some h) /\
   unpackHitInfo packed = HitInfo.ofPacked packed) /\
  ((exists ty, HitInfo.getType cfg (HitInfo.ofPacked packed)
               = Some (ty, HitInfo.ofPacked packed)) /\
   (exists b, HitInfo.isValid cfg (HitInfo.ofPacked packed)
              = Some (b, HitInfo.ofPacked packed)) /\
   (exists id, HitInfo.getInstanceID cfg (HitInfo.ofPacked packed)
               = Some (id, HitInfo.ofPacked packed)) /\
   (exists prim, HitInfo.getPrimitiveIndex cfg (HitInfo.ofPacked packed)
                 = Some (prim, HitInfo.ofPacked packed))) /\
  (HitInfo.readOnly (HitInfo.getTriangleHit cfg) /\
   HitInfo.readOnly (HitInfo.getDisplacedTriangleHit cfg) /\
   HitInfo.readOnly (HitInfo.getCurveHit cfg) /\
   HitInfo.readOnly (HitInfo.getSDFGridHit cfg) /\
   HitInfo.readOnly (HitInfo.getVolumeHit cfg) /\
   HitInfo.readOnly (HitInfo.getType cfg) /\
   HitInfo.readOnly (HitInfo.isValid cfg) /\
   HitInfo.readOnly (HitInfo.getInstanceID cfg) /\
   HitInfo.readOnly (HitInfo.getPrimitiveIndex cfg) /\
   HitInfo.readOnly HitInfo.pack).
Proof.
  intros Hwf. split; [|split].
  - split; [reflexivity|]. split; [|reflexivity]. intros [d]. reflexivity.
  - pose proof (packedWords_ge2 cfg) as H2. destruct Hwf as [Hlen _].
    destruct (packed_two packed ltac:(lia)) as (w0 & w1 & ws & ->).
    unfold HitInfo.isValid, HitInfo.getInstanceID, HitInfo.getPrimitiveIndex.
    rewrite getType_cons. unfold HitInfo.seq. rewrite getType_cons.
    unfold HitInfo.getData, HitInfo.lift, HitInfo.ret, unpackHeader.
    destruct (kHeaderBits cfg <=? 32); cbn; eauto 10.
  - unfold HitInfo.getTriangleHit, HitInfo.getDisplacedTriangleHit, HitInfo.getCurveHit,
      HitInfo.getSDFGridHit, HitInfo.getVolumeHit, HitInfo.getType, HitInfo.isValid,
      HitInfo.getInstanceID, HitInfo.getPrimitiveIndex, HitInfo.pack, HitInfo.getType.
    repeat split; auto 10 with readonly.
Qed.

Lemma raw_words_roundtrip_witness :
  HitInfo.pack (HitInfo.ofPacked [268435461; 7; 1048576000; 1061158912])
  = Some ([268435461; 7; 1048576000; 1061158912],
          HitInfo.ofPacked [268435461; 7; 1048576000; 1061158912]).
Proof.
  refine (proj1 (proj1 (raw_words_roundtrip cfgOpen
                          [268435461; 7; 1048576000; 1061158912] _))).
  apply wf_packed_concrete; reflexivity.
Defined.

(** * Rounding to nearest, ties to even *)

Lemma rne_div_cases (n d : Z) :
  0 < d -> rne_div n d = n / d \/ rne_div n d = n / d + 1.
Proof.
  intros Hd. unfold rne_div.
  destruct (2 * (n mod d) ?= d); auto. destruct (Z.even (n / d)); auto.
Qed.

Lemma rne_div_error (n d : Z) :
  0 < d -> 2 * Z.abs (rne_div n d * d - n) <= d.
Proof.
  intros Hd. unfold rne_div.
  pose proof (Z.div_mod n d ltac:(lia)) as E.
  pose proof (Z.mod_pos_bound n d Hd) as B.
  destruct (Z.compare_spec (2 * (n mod d)) d) as [C|C|C];
    [destruct (Z.even (n / d))| |]; lia.
Qed.

Lemma rne_div_low (n d : Z) :
  0 < d -> 2 * (n mod d) < d -> rne_div n d = n / d.
Proof.
  intros Hd H. unfold rne_div.
  destruct (Z.compare_spec (2 * (n mod d)) d); try lia.
Qed.

Lemma rne_div_exact (n d q : Z) : 0 < d -> n = q * d -> rne_div n d = q.
Proof.
  intros Hd ->. rewrite rne_div_low; rewrite ?Z.mod_mul, ?Z.div_mul; lia.
Qed.

Lemma rne_div_scale (k n d : Z) :
  0 < k -> 0 < d -> rne_div (k * n) (k * d) = rne_div n d.
Proof.
  intros Hk Hd. unfold rne_div.
  rewrite Z.div_mul_cancel_l, Z.mul_mod_distr_l by lia.
  destruct (Z.compare_spec (2 * (k * (n mod d))) (k * d)),
    (Z.compare_spec (2 * (n mod d)) d); try reflexivity; nia.
Qed.

Lemma rne_div_nonneg (n d : Z) : 0 <= n -> 0 < d -> 0 <= rne_div n d.
Proof.
  intros Hn Hd. pose proof (Z.div_pos n d Hn Hd).
  destruct (rne_div_cases n d Hd); lia.
Qed.

(** * Bit patterns of a format *)

Section FormatFacts.

Variable fmt : Format.
Hypothesis Hprec : 2 <= prec fmt.
Hypothesis Hebits : 2 <= ebits fmt.

Lemma mbits_pos : 1 <= mbits fmt.
Proof using Hprec Hebits. unfold mbits; lia. Qed.

Lemma P_pos : 0 < 2 ^ mbits fmt.
Proof using Hprec Hebits. apply pow2_pos. pose proof mbits_pos. lia. Qed.

Lemma emaxField_ge : 3 <= emaxField fmt.
Proof using Hprec Hebits.
  unfold emaxField.
  assert (2 ^ 2 <= 2 ^ ebits fmt) by (apply Z.pow_le_mono_r; lia).
  change (2 ^ 2) with 4 in *. lia.
Qed.

Lemma half_width : 2 ^ (width fmt - 1) = 2 ^ ebits fmt * 2 ^ mbits fmt.
Proof using Hprec Hebits.
  unfold width, mbits. rewrite <- Z.pow_add_r by lia. f_equal. lia.
Qed.

Lemma infBits_lt : infBits fmt < 2 ^ (width fmt - 1).
Proof using Hprec Hebits.
  rewrite half_width. unfold infBits, emaxField. pose proof P_pos. nia.
Qed.

(** Fields of a magnitude below the infinity. *)
Lemma fields_of_mag (mag : Z) :
  0 <= mag < infBits fmt ->
  fexpo fmt mag = mag / 2 ^ mbits fmt /\
  ffrac fmt mag = mag mod 2 ^ mbits fmt /\
  fsign fmt mag = false /\
  is_finite fmt mag = true.
Proof using Hprec Hebits.
  intros Hm. pose proof P_pos as HP. pose proof infBits_lt as Hi.
  assert (Hq : 0 <= mag / 2 ^ mbits fmt < emaxField fmt).
  { split; [apply Z.div_pos; lia|].
    apply Z.div_lt_upper_bound; [lia|]. unfold infBits in Hm. lia. }
  assert (E : fexpo fmt mag = mag / 2 ^ mbits fmt).
  { unfold fexpo. apply Z.mod_small. unfold emaxField in Hq. lia. }
  repeat split; auto.
  - unfold fsign. apply (testbit_above mag (width fmt - 1)); [lia | unfold width; lia].
  - unfold is_finite. rewrite E. apply Z.ltb_lt. lia.
Qed.

(** The value of the pattern [e * 2^mbits + m]. *)
Lemma sval_of_mag (e m : Z) :
  0 <= e -> 0 <= m <= 2 ^ prec fmt ->
  (e = 0 \/ 2 ^ mbits fmt <= m) ->
  e * 2 ^ mbits fmt + m < infBits fmt ->
  sval fmt (e * 2 ^ mbits fmt + m) = m * 2 ^ e.
Proof using Hprec Hebits.
  intros He Hm Hnorm Hfin. pose proof P_pos as HP. pose proof mbits_pos as Hmb.
  assert (HP2 : 2 ^ prec fmt = 2 * 2 ^ mbits fmt).
  { unfold mbits. replace (prec fmt) with (1 + (prec fmt - 1)) at 1 by lia.
    rewrite Z.pow_add_r by lia. reflexivity. }
  destruct (fields_of_mag (e * 2 ^ mbits fmt + m)) as (Ee & Ef & _ & _); [nia|].
  unfold sval. rewrite Ee, Ef.
  destruct (Z_lt_ge_dec m (2 ^ mbits fmt)) as [Hlt|Hge].
  - assert (e = 0) by lia. subst e.
    rewrite Z.mul_0_l, Z.add_0_l, Z.div_small, Z.mod_small by lia. cbn. lia.
  - destruct (Z.eq_dec m (2 ^ prec fmt)) as [Heq|Hne].
    + assert (Hd : (e * 2 ^ mbits fmt + m) / 2 ^ mbits fmt = e + 2).
      { symmetry. apply (Z.div_unique _ _ _ 0); lia. }
      assert (Hr : (e * 2 ^ mbits fmt + m) mod 2 ^ mbits fmt = 0).
      { symmetry. apply (Z.mod_unique _ _ (e + 2)); lia. }
      rewrite Hd, Hr.
      destruct (Z.eqb_spec (e + 2) 0); [lia|].
      replace (e + 2 - 1) with (1 + e) by lia.
      rewrite Z.pow_add_r by lia. change (2 ^ 1) with 2. lia.
    + assert (Hd : (e * 2 ^ mbits fmt + m) / 2 ^ mbits fmt = e + 1).
      { symmetry. apply (Z.div_unique _ _ _ (m - 2 ^ mbits fmt)); lia. }
      assert (Hr : (e * 2 ^ mbits fmt + m) mod 2 ^ mbits fmt = m - 2 ^ mbits fmt).
      { symmetry. apply (Z.mod_unique _ _ (e + 1)); lia. }
      rewrite Hd, Hr.
      destruct (Z.eqb_spec (e + 1) 0); [lia|].
      replace (e + 1 - 1) with e by lia. f_equal. lia.
Qed.

(** The sign bit set on a magnitude. *)
Lemma fields_withSign (s : bool) (mag : Z) :
  0 <= mag < 2 ^ (width fmt - 1) ->
  fsign fmt (withSign fmt s mag) = s /\
  fexpo fmt (withSign fmt s mag) = fexpo fmt mag /\
  ffrac fmt (withSign fmt s mag) = ffrac fmt mag /\
  fmagn fmt (withSign fmt s mag) = mag.
Proof using Hprec Hebits.
  intros Hm. pose proof P_pos as HP. unfold withSign.
  destruct s; [|rewrite Z.add_0_l].
  2:{ repeat split.
      - unfold fsign. apply (testbit_above mag (width fmt - 1)); [lia | unfold width; lia].
      - unfold fmagn. apply Z.mod_small; lia. }
  assert (Hw : 0 <= width fmt - 1) by (unfold width; lia).
  repeat split.
  - unfold fsign. apply Z.testbit_true; [lia|].
    replace ((2 ^ (width fmt - 1) + mag) / 2 ^ (width fmt - 1)) with 1; [reflexivity|].
    apply (Z.div_unique _ _ _ mag); lia.
  - unfold fexpo. rewrite half_width, Z.div_add_l by lia.
    replace (2 ^ ebits fmt + mag / 2 ^ mbits fmt)
      with (mag / 2 ^ mbits fmt + 1 * 2 ^ ebits fmt) by ring.
    rewrite Z.mod_add by (apply Z.pow_nonzero; lia). reflexivity.
  - unfold ffrac. rewrite half_width.
    rewrite Z.add_comm, Z.mod_add by lia. reflexivity.
  - unfold fmagn.
    replace (2 ^ (width fmt - 1) + mag) with (mag + 1 * 2 ^ (width fmt - 1)) by ring.
    rewrite Z.mod_add by (apply Z.pow_nonzero; lia).
    apply Z.mod_small; lia.
Qed.

End FormatFacts.

Section Rounding.

Variable fmt : Format.
Hypothesis Hprec : 2 <= prec fmt.
Hypothesis Hebits : 2 <= ebits fmt.

Lemma pow_prec : 2 ^ prec fmt = 2 * 2 ^ mbits fmt.
Proof using Hprec Hebits.
  unfold mbits. replace (prec fmt) with (1 + (prec fmt - 1)) at 1 by lia.
  rewrite Z.pow_add_r by lia. reflexivity.
Qed.

Lemma scale_nonneg : 0 <= scale fmt.
Proof using Hprec Hebits.
  unfold scale. pose proof (pow2_pos (ebits fmt - 1) ltac:(lia)). lia.
Qed.

(** The exponent chosen for a quotient and the range of the rounded
    significand. *)
Lemma significand_range (t d : Z) :
  0 <= t -> 0 < d ->
  let e := Z.max 0 (Z.log2 (t / d) - mbits fmt) in
  let m := rne_div t (d * 2 ^ e) in
  0 <= e /\ 0 <= m <= 2 ^ prec fmt /\ (e = 0 \/ 2 ^ mbits fmt <= m).
Proof using Hprec Hebits.
  intros Ht Hd e m. pose proof (mbits_pos fmt Hprec Hebits) as Hmb.
  pose proof (P_pos fmt Hprec Hebits) as HP. pose proof pow_prec as HP2.
  assert (He : 0 <= e) by (unfold e; lia).
  assert (H2e : 0 < 2 ^ e) by (apply pow2_pos; lia).
  assert (HD : 0 < d * 2 ^ e) by nia.
  assert (Hq : t / (d * 2 ^ e) = t / d / 2 ^ e) by (rewrite Z.div_div; lia).
  pose proof (Z.div_pos t d Ht Hd) as HN.
  destruct (rne_div_cases t (d * 2 ^ e) HD) as [Hm|Hm]; fold m in Hm; rewrite Hq in Hm.
  all: split; [exact He|].
  all: destruct (Z.eq_dec (t / d) 0) as [Hz|Hz].
  all: try (assert (e = 0) by (unfold e; rewrite Hz; cbn; lia);
            replace (2 ^ e) with 1 in Hm by (subst e; replace (Z.max _ _) with 0 by lia; reflexivity);
            rewrite Hz in Hm; cbn in Hm; split; [lia|left; assumption]).
  all: pose proof (Z.log2_spec (t / d) ltac:(lia)) as [Hlo Hhi];
       rewrite <- Z.add_1_r in Hhi.
  all: destruct (Z_le_gt_dec (Z.log2 (t / d)) (mbits fmt)) as [Hs|Hb].
  all: try (assert (He0 : e = 0) by (unfold e; lia);
            assert (Hup : 2 ^ (Z.log2 (t / d) + 1) <= 2 ^ prec fmt)
              by (apply Z.pow_le_mono_r; unfold mbits in *; lia);
            rewrite He0 in Hm; change (2 ^ 0) with 1 in Hm; rewrite Z.div_1_r in Hm;
            split; [lia|left; assumption]).
  all: assert (He1 : e = Z.log2 (t / d) - mbits fmt) by (unfold e; lia);
       assert (Hsplit : 2 ^ Z.log2 (t / d) = 2 ^ mbits fmt * 2 ^ e)
         by (rewrite <- Z.pow_add_r by lia; f_equal; lia);
       assert (Hsplit' : 2 ^ (Z.log2 (t / d) + 1) = 2 ^ prec fmt * 2 ^ e)
         by (rewrite <- Z.pow_add_r by lia; f_equal; unfold mbits in *; lia);
       assert (Hql : 2 ^ mbits fmt <= t / d / 2 ^ e)
         by (apply Z.div_le_lower_bound; lia);
       assert (Hqh : t / d / 2 ^ e < 2 ^ prec fmt)
         by (apply Z.div_lt_upper_bound; lia);
       split; [lia|right; lia].
Qed.

(** What [roundMag] returns when the result is finite. *)
Lemma roundMag_spec (n d J : Z) :
  0 <= n -> 0 < d -> 0 <= J ->
  n * 2 ^ scale fmt < d * 2 ^ J ->
  Z.max 0 (J - prec fmt) + 2 < emaxField fmt ->
  let e := Z.max 0 (Z.log2 (n * 2 ^ scale fmt / d) - mbits fmt) in
  0 <= roundMag fmt n d < infBits fmt /\
  sval fmt (roundMag fmt n d) = rne_div (n * 2 ^ scale fmt) (d * 2 ^ e) * 2 ^ e /\
  0 <= e <= Z.max 0 (J - prec fmt).
Proof using Hprec Hebits.
  intros Hn Hd HJ Hlt Hov e.
  pose proof scale_nonneg as Hs. pose proof (pow2_pos (scale fmt) Hs) as HS.
  pose proof (P_pos fmt Hprec Hebits) as HP. pose proof pow_prec as HP2.
  assert (Ht : 0 <= n * 2 ^ scale fmt) by nia.
  destruct (significand_range (n * 2 ^ scale fmt) d Ht Hd) as (He & Hm & Hnorm).
  fold e in He, Hm, Hnorm.
  assert (HeJ : e <= Z.max 0 (J - prec fmt)).
  { unfold e. destruct (Z.eq_dec (n * 2 ^ scale fmt / d) 0) as [Hz|Hz].
    - rewrite Hz. change (Z.log2 0) with 0. unfold mbits. lia.
    - pose proof (Z.div_pos _ d Ht Hd).
      assert (n * 2 ^ scale fmt / d < 2 ^ J)
        by (apply Z.div_lt_upper_bound; lia).
      assert (Z.log2 (n * 2 ^ scale fmt / d) < J) by (apply Z.log2_lt_pow2; lia).
      unfold mbits. lia. }
  assert (Hfin : e * 2 ^ mbits fmt + rne_div (n * 2 ^ scale fmt) (d * 2 ^ e) < infBits fmt).
  { unfold infBits. nia. }
  unfold roundMag. fold e. rewrite Z.min_l by lia.
  split; [nia|]. split; [|lia].
  apply sval_of_mag; auto.
Qed.

Lemma roundMag_error (n d J : Z) :
  0 <= n -> 0 < d -> 0 <= J ->
  n * 2 ^ scale fmt < d * 2 ^ J ->
  Z.max 0 (J - prec fmt) + 2 < emaxField fmt ->
  2 * Z.abs (sval fmt (roundMag fmt n d) * d - n * 2 ^ scale fmt)
  <= d * 2 ^ Z.max 0 (J - prec fmt).
Proof using Hprec Hebits.
  intros Hn Hd HJ Hlt Hov.
  destruct (roundMag_spec n d J Hn Hd HJ Hlt Hov) as (_ & Hv & He).
  rewrite Hv.
  set (e := Z.max 0 (Z.log2 (n * 2 ^ scale fmt / d) - mbits fmt)) in *.
  assert (H2e : 0 < 2 ^ e) by (apply pow2_pos; lia).
  pose proof (rne_div_error (n * 2 ^ scale fmt) (d * 2 ^ e) ltac:(nia)) as Herr.
  assert (2 ^ e <= 2 ^ Z.max 0 (J - prec fmt)) by (apply Z.pow_le_mono_r; lia).
  replace (rne_div (n * 2 ^ scale fmt) (d * 2 ^ e) * 2 ^ e * d)
    with (rne_div (n * 2 ^ scale fmt) (d * 2 ^ e) * (d * 2 ^ e)) by ring.
  nia.
Qed.

(** A quotient that is a whole number of units. *)
Lemma roundMag_units (n d T J : Z) :
  0 <= T -> 0 < d -> 0 <= J ->
  n * 2 ^ scale fmt = T * d ->
  T < 2 ^ J ->
  Z.max 0 (J - prec fmt) + 2 < emaxField fmt ->
  0 <= roundMag fmt n d < infBits fmt /\
  sval fmt (roundMag fmt n d) = roundUnits fmt T.
Proof using Hprec Hebits.
  intros HT Hd HJ HnT Hlt Hov.
  pose proof scale_nonneg as Hs. pose proof (pow2_pos (scale fmt) Hs) as HS.
  assert (Hn : 0 <= n) by nia.
  destruct (roundMag_spec n d J Hn Hd HJ ltac:(nia) Hov) as (Hr & Hv & He).
  split; [exact Hr|]. rewrite Hv. unfold roundUnits.
  rewrite HnT, Z.div_mul by lia.
  set (e := Z.max 0 (Z.log2 T - mbits fmt)).
  rewrite (Z.mul_comm T d), rne_div_scale; auto. apply pow2_pos. unfold e. lia.
Qed.

Lemma roundUnits_error (T J : Z) :
  0 <= T < 2 ^ J -> 0 <= J ->
  2 * Z.abs (roundUnits fmt T - T) <= 2 ^ Z.max 0 (J - prec fmt).
Proof using Hprec Hebits.
  intros HT HJ. unfold roundUnits.
  set (e := Z.max 0 (Z.log2 T - mbits fmt)).
  assert (He : 0 <= e <= Z.max 0 (J - prec fmt)).
  { unfold e. destruct (Z.eq_dec T 0) as [->|Hz];
      [change (Z.log2 0) with 0; unfold mbits; lia|].
    assert (Z.log2 T < J) by (apply Z.log2_lt_pow2; lia). unfold mbits. lia. }
  assert (H2e : 0 < 2 ^ e) by (apply pow2_pos; lia).
  pose proof (rne_div_error T (2 ^ e) H2e).
  assert (2 ^ e <= 2 ^ Z.max 0 (J - prec fmt)) by (apply Z.pow_le_mono_r; lia).
  lia.
Qed.

Lemma roundUnits_nonneg (T : Z) : 0 <= T -> 0 <= roundUnits fmt T.
Proof using Hprec Hebits.
  intros HT. unfold roundUnits.
  set (e := Z.max 0 (Z.log2 T - mbits fmt)).
  assert (H2e : 0 < 2 ^ e) by (apply pow2_pos; unfold e; lia).
  pose proof (rne_div_nonneg T (2 ^ e) HT H2e). nia.
Qed.

(** Units that the format represents are left alone. *)
Lemma roundUnits_exact (M k : Z) :
  0 <= M < 2 ^ prec fmt -> 0 <= k -> roundUnits fmt (M * 2 ^ k) = M * 2 ^ k.
Proof using Hprec Hebits.
  intros HM Hk. unfold roundUnits.
  destruct (Z.eq_dec M 0) as [->|Hz].
  { rewrite Z.mul_0_l. rewrite (rne_div_exact 0 _ 0); [reflexivity| |reflexivity].
    apply pow2_pos. lia. }
  rewrite Z.log2_mul_pow2 by lia.
  assert (Z.log2 M < prec fmt) by (apply Z.log2_lt_pow2; lia).
  set (e := Z.max 0 (k + Z.log2 M - mbits fmt)).
  assert (He : 0 <= e <= k) by (unfold e, mbits; lia).
  assert (H2e : 0 < 2 ^ e) by (apply pow2_pos; lia).
  assert (Hk2 : 2 ^ k = 2 ^ (k - e) * 2 ^ e)
    by (rewrite <- Z.pow_add_r by lia; f_equal; lia).
  rewrite (rne_div_exact (M * 2 ^ k) (2 ^ e) (M * 2 ^ (k - e))); auto.
  - rewrite Hk2. ring.
  - rewrite Hk2. ring.
Qed.

(** Within one binade the grid is known. *)
Lemma roundUnits_binade (T L : Z) :
  mbits fmt <= L -> 2 ^ L <= T < 2 ^ (L + 1) ->
  roundUnits fmt T = rne_div T (2 ^ (L - mbits fmt)) * 2 ^ (L - mbits fmt).
Proof using Hprec Hebits.
  intros HL HT. pose proof (mbits_pos fmt Hprec Hebits).
  unfold roundUnits. rewrite (Z.log2_unique T L) by (rewrite <- ?Z.add_1_r; lia).
  now rewrite Z.max_r by lia.
Qed.

End Rounding.

Section Signed.

Variable fmt : Format.
Hypothesis Hprec : 2 <= prec fmt.
Hypothesis Hebits : 2 <= ebits fmt.

Lemma finite_not_nan (b : Z) : is_finite fmt b = true -> is_nan fmt b = false.
Proof using Hprec Hebits.
  unfold is_finite, is_nan. intros H. apply Z.ltb_lt in H.
  destruct (Z.eqb_spec (fexpo fmt b) (emaxField fmt)); [lia|reflexivity].
Qed.

Lemma sval_nonneg (b : Z) : 0 <= sval fmt b.
Proof using Hprec Hebits.
  pose proof (P_pos fmt Hprec Hebits) as HP.
  pose proof (Z.mod_pos_bound b (2 ^ mbits fmt) HP).
  unfold sval, ffrac. destruct (fexpo fmt b =? 0); [lia|].
  pose proof (Z.pow_nonneg 2 (fexpo fmt b - 1) ltac:(lia)). nia.
Qed.

Lemma withSign_finite (s : bool) (R : Z) :
  0 <= R < infBits fmt ->
  sval fmt (withSign fmt s R) = sval fmt R /\
  is_finite fmt (withSign fmt s R) = true /\
  fsign fmt (withSign fmt s R) = s /\
  ssval fmt (withSign fmt s R) = (if s then - sval fmt R else sval fmt R).
Proof using Hprec Hebits.
  intros HR. pose proof (infBits_lt fmt Hprec Hebits) as Hi.
  destruct (fields_withSign fmt Hprec Hebits s R ltac:(lia)) as (Hs & He & Hf & _).
  destruct (fields_of_mag fmt Hprec Hebits R HR) as (_ & _ & _ & Hfin).
  assert (Hv : sval fmt (withSign fmt s R) = sval fmt R)
    by (unfold sval; now rewrite He, Hf).
  repeat split; auto.
  - unfold is_finite in *. now rewrite He.
  - unfold ssval. now rewrite Hs, Hv.
Qed.

Lemma roundMag_zero (d : Z) : 0 < d -> roundMag fmt 0 d = 0.
Proof using Hprec Hebits.
  intros Hd. unfold roundMag. rewrite Z.mul_0_l, Z.div_0_l by lia.
  change (Z.log2 0) with 0.
  pose proof (mbits_pos fmt Hprec Hebits). rewrite Z.max_l by lia.
  rewrite (rne_div_exact 0 _ 0) by (change (2 ^ 0) with 1; lia).
  pose proof (emaxField_ge fmt Hprec Hebits). pose proof (P_pos fmt Hprec Hebits).
  unfold infBits. rewrite Z.min_l by nia. reflexivity.
Qed.

End Signed.

(** * binary32 *)

Lemma b32_prec : 2 <= prec binary32. Proof. cbn; lia. Qed.
Lemma b32_ebits : 2 <= ebits binary32. Proof. cbn; lia. Qed.
Lemma b16_prec : 2 <= prec binary16. Proof. cbn; lia. Qed.
Lemma b16_ebits : 2 <= ebits binary16. Proof. cbn; lia. Qed.

Lemma S32_pos : 0 < S32. Proof. reflexivity. Qed.

Lemma scale32 : 2 ^ scale binary32 = S32. Proof. reflexivity. Qed.

Lemma nonneg_ssval (x : float) :
  nonneg x -> ssval binary32 x = sval binary32 x /\
              (fsign binary32 x = true -> sval binary32 x = 0).
Proof.
  intros [_ H]. pose proof (sval_nonneg binary32 b32_prec b32_ebits x).
  unfold ssval in *. destruct (fsign binary32 x); split; try lia; intros; try discriminate; lia.
Qed.

(** Product with a positive float whose value is the whole number [c]. *)
Lemma mul_by_whole (x y : float) (c J : Z) :
  nonneg x ->
  is_finite binary32 y = true -> fsign binary32 y = false ->
  sval binary32 y = c * S32 -> 0 <= c ->
  sval binary32 x * c < 2 ^ J -> 0 <= J <= 276 ->
  nonneg (F32.mul x y) /\
  sval binary32 (F32.mul x y) = roundUnits binary32 (sval binary32 x * c).
Proof.
  intros Hx Hy Hsy Hvy Hc Hlt HJ.
  destruct (nonneg_ssval x Hx) as [Hss Hz]. destruct Hx as [Hfx Hpos].
  pose proof (sval_nonneg binary32 b32_prec b32_ebits x) as Hsx.
  unfold F32.mul, F32.anyNan, F32.bothFinite.
  rewrite (finite_not_nan binary32 b32_prec b32_ebits x Hfx), (finite_not_nan binary32 b32_prec b32_ebits y Hy), Hfx, Hy, Hsy.
  cbn [orb andb]. rewrite xorb_false_r.
  destruct (roundMag_units binary32 b32_prec b32_ebits
              (sval binary32 x * sval binary32 y)
              (2 ^ scale binary32 * 2 ^ scale binary32)
              (sval binary32 x * c) J) as [HR Hv].
  - nia.
  - rewrite scale32. reflexivity.
  - lia.
  - rewrite Hvy, scale32. ring.
  - exact Hlt.
  - change (prec binary32) with 24. change (emaxField binary32) with 255. lia.
  - destruct (withSign_finite binary32 b32_prec b32_ebits (fsign binary32 x) _ HR)
      as (Hv' & Hf' & Hs' & Hss').
    split; [split|]; auto.
    + rewrite Hss'. destruct (fsign binary32 x) eqn:E; [|rewrite Hv; apply (roundUnits_nonneg binary32 b32_prec b32_ebits); nia].
      rewrite Hz in * by reflexivity. rewrite Hv. rewrite Z.mul_0_l.
      replace (roundUnits binary32 0) with 0 by reflexivity. lia.
    + now rewrite Hv'.
Qed.

(** Sum of two floats that are not negative, one of them positive. *)
Lemma add_nonneg (x y : float) (J : Z) :
  nonneg x -> nonneg y -> 0 < sval binary32 y ->
  sval binary32 x + sval binary32 y < 2 ^ J -> 0 <= J <= 276 ->
  nonneg (F32.add x y) /\ fsign binary32 (F32.add x y) = false /\
  sval binary32 (F32.add x y) = roundUnits binary32 (sval binary32 x + sval binary32 y).
Proof.
  intros Hx Hy Hpos Hlt HJ.
  destruct (nonneg_ssval x Hx) as [Hsx _]. destruct (nonneg_ssval y Hy) as [Hsy _].
  destruct Hx as [Hfx Hpx]. destruct Hy as [Hfy Hpy].
  unfold F32.add, F32.anyNan, F32.bothFinite.
  rewrite (finite_not_nan binary32 b32_prec b32_ebits x Hfx), (finite_not_nan binary32 b32_prec b32_ebits y Hfy), Hfx, Hfy, Hsx, Hsy.
  cbn [orb andb].
  set (z := sval binary32 x + sval binary32 y) in *.
  assert (Hz : 0 < z) by lia.
  destruct (Z.eqb_spec z 0); [lia|]. destruct (Z.ltb_spec z 0); [lia|].
  rewrite Z.abs_eq by lia.
  destruct (roundMag_units binary32 b32_prec b32_ebits z (2 ^ scale binary32) z J)
    as [HR Hv]; try lia.
  - reflexivity.
  - change (prec binary32) with 24. change (emaxField binary32) with 255. lia.
  - destruct (withSign_finite binary32 b32_prec b32_ebits false _ HR)
      as (Hv' & Hf' & Hs' & Hss').
    pose proof (roundUnits_nonneg binary32 b32_prec b32_ebits z ltac:(lia)).
    split; [split; [exact Hf'|rewrite Hss', Hv; assumption]|].
    split; [exact Hs'|now rewrite Hv']. 
Qed.

(** [trunc] and the conversion to [uint] of a float below [2^24]. *)
Lemma toUint_trunc (x : float) :
  nonneg x -> fsign binary32 x = false ->
  sval binary32 x / S32 < 2 ^ 24 ->
  F32.toUint (F32.trunc x) = sval binary32 x / S32.
Proof.
  intros [Hf Hp] Hs Hlt.
  pose proof (sval_nonneg binary32 b32_prec b32_ebits x) as Hsx.
  pose proof (Z.div_pos _ _ Hsx S32_pos) as Hq.
  unfold F32.trunc. rewrite Hf, Hs.
  set (q := sval binary32 x / 2 ^ scale binary32).
  assert (Eq : q = sval binary32 x / S32) by reflexivity.
  pose proof S32_pos as HS.
  destruct (roundMag_units binary32 b32_prec b32_ebits q 1 (q * S32) (24 + 149))
    as [HR Hv].
  { nia. } { lia. } { lia. }
  { rewrite scale32. ring. }
  { rewrite Z.pow_add_r by lia. fold S32. nia. }
  { change (prec binary32) with 24. change (emaxField binary32) with 255. lia. }
  destruct (withSign_finite binary32 b32_prec b32_ebits false _ HR)
      as (Hv' & Hf' & Hs' & Hss').
  unfold F32.toUint.
    rewrite (finite_not_nan binary32 b32_prec b32_ebits _ Hf'), Hs', Hf', Hv', Hv.
    unfold S32 at 1. rewrite (roundUnits_exact binary32 b32_prec b32_ebits q 149) by (cbn; lia).
    rewrite scale32. fold S32. rewrite Z.div_mul by lia.
    rewrite Z.min_l; lia.
Qed.

(** The conversion of a [uint] below [2^24]. *)
Lemma ofUint_small (u : Z) :
  0 <= u < 2 ^ 24 ->
  nonneg (F32.ofUint u) /\ fsign binary32 (F32.ofUint u) = false /\
  sval binary32 (F32.ofUint u) = u * S32.
Proof.
  intros Hu. unfold F32.ofUint, F32.lit.
  pose proof S32_pos as HS.
  destruct (roundMag_units binary32 b32_prec b32_ebits u 1 (u * S32) (24 + 149))
    as [HR Hv].
  { nia. } { lia. } { lia. }
  { rewrite scale32. ring. }
  { rewrite Z.pow_add_r by lia. fold S32. nia. }
  { change (prec binary32) with 24. change (emaxField binary32) with 255. lia. }
  destruct (fields_of_mag binary32 b32_prec b32_ebits _ HR) as (_ & _ & Hs & Hf).
  unfold S32 at 1 in Hv.
  rewrite (roundUnits_exact binary32 b32_prec b32_ebits u 149) in Hv by (cbn; lia).
  fold S32 in Hv.
  split; [split|split]; auto. unfold ssval. rewrite Hs, Hv. nia.
Qed.

Lemma lit_16777215 :
  is_finite binary32 (F32.lit 16777215 1) = true /\
  fsign binary32 (F32.lit 16777215 1) = false /\
  sval binary32 (F32.lit 16777215 1) = 16777215 * S32.
Proof. repeat split. Qed.

Lemma lit_half :
  nonneg (F32.lit 1 2) /\ sval binary32 (F32.lit 1 2) = 2 ^ 148.
Proof. split; [split; [reflexivity|]|reflexivity]. vm_compute. discriminate. Qed.

Lemma r24_value :
  is_finite binary32 r24 = true /\ fsign binary32 r24 = false /\
  sval binary32 r24 = 2 ^ 125 + 2 ^ 102.
Proof. repeat split. Qed.

Lemma quantize24_units (v : float) :
  nonneg v -> sval binary32 v < S32 ->
  let A := roundUnits binary32 (sval binary32 v * 16777215) in
  let B := roundUnits binary32 (A + 2 ^ 148) in
  B / S32 < 2 ^ 24 ->
  quantize24 v = B / S32.
Proof.
  intros Hv Hlt A B HB.
  destruct lit_16777215 as (Nf & Ns & Nv). destruct lit_half as (Hh & Hhv).
  pose proof (sval_nonneg binary32 b32_prec b32_ebits v) as Hsv.
  unfold S32 in Hlt.
  destruct (mul_by_whole v (F32.lit 16777215 1) 16777215 173 Hv Nf Ns Nv) as [Ha Hav];
    try lia.
  fold A in Hav.
  assert (HA : 2 * Z.abs (A - sval binary32 v * 16777215) <= 2 ^ 149).
  { apply (roundUnits_error binary32 b32_prec b32_ebits _ 173); lia. }
  destruct (nonneg_ssval _ Ha) as [Hass _].
  destruct (add_nonneg (F32.mul v (F32.lit 16777215 1)) (F32.lit 1 2) 174 Ha Hh)
    as (Hb & Hbs & Hbv); try lia.
  rewrite Hav, Hhv in Hbv. fold B in Hbv.
  unfold quantize24. rewrite toUint_trunc; auto; now rewrite Hbv.
Qed.

Lemma dequantize24_units (u : Z) :
  0 <= u < 2 ^ 24 ->
  nonneg (dequantize24 u) /\
  sval binary32 (dequantize24 u) = roundUnits binary32 (u * (2 ^ 125 + 2 ^ 102)).
Proof.
  intros Hu. destruct (ofUint_small u Hu) as (Hn & Hs & Hv).
  destruct r24_value as (Rf & Rs & Rv).
  destruct Hn as [Hf Hp].
  pose proof (sval_nonneg binary32 b32_prec b32_ebits (F32.ofUint u)) as Hsx.
  unfold dequantize24. fold r24.
  unfold F32.mul, F32.anyNan, F32.bothFinite.
  rewrite (finite_not_nan binary32 b32_prec b32_ebits _ Hf),
    (finite_not_nan binary32 b32_prec b32_ebits _ Rf), Hf, Rf, Hs, Rs.
  cbn [orb andb xorb].
  destruct (roundMag_units binary32 b32_prec b32_ebits
              (sval binary32 (F32.ofUint u) * sval binary32 r24)
              (2 ^ scale binary32 * 2 ^ scale binary32)
              (u * (2 ^ 125 + 2 ^ 102)) 150) as [HR Hrv]; try lia.
  - rewrite scale32. reflexivity.
  - rewrite Hv, Rv, scale32. ring.
  - change (prec binary32) with 24. change (emaxField binary32) with 255. lia.
  - destruct (withSign_finite binary32 b32_prec b32_ebits false _ HR)
      as (Hv' & Hf' & Hs' & Hss').
    pose proof (roundUnits_nonneg binary32 b32_prec b32_ebits (u * (2 ^ 125 + 2 ^ 102)) ltac:(lia)).
    split; [split; [exact Hf'|rewrite Hss', Hrv; assumption]|].
    now rewrite Hv'.
Qed.

Lemma sval_onGrid (b : Z) : onGrid (sval binary32 b).
Proof.
  unfold sval. pose proof (Z.mod_pos_bound b (2 ^ mbits binary32) eq_refl) as Hf.
  pose proof (Z.mod_pos_bound (b / 2 ^ mbits binary32) (2 ^ ebits binary32) eq_refl) as He.
  fold (ffrac binary32 b) in Hf. fold (fexpo binary32 b) in He.
  change (2 ^ mbits binary32) with (2 ^ 23) in *.
  destruct (Z.eqb_spec (fexpo binary32 b) 0).
  - exists (ffrac binary32 b), 0. repeat split; try lia.
  - exists (2 ^ 23 + ffrac binary32 b), (fexpo binary32 b - 1). repeat split; lia.
Qed.

Lemma grid_cases (sv : Z) :
  onGrid sv -> 0 <= sv < 2 ^ 149 ->
  sv <= (2 ^ 24 - 1) * 2 ^ 124 \/
  exists m, 2 ^ 23 <= m < 2 ^ 24 /\ sv = m * 2 ^ 125.
Proof.
  intros (M & k & HM & Hk & ->) Hsv.
  destruct (Z_le_gt_dec k 124) as [Hs|Hb].
  - left. assert (0 < 2 ^ k <= 2 ^ 124)
      by (split; [apply pow2_pos; lia|apply Z.pow_le_mono_r; lia]). nia.
  - assert (E : 2 ^ k = 2 ^ (k - 125) * 2 ^ 125)
      by (rewrite <- Z.pow_add_r by lia; f_equal; lia).
    pose proof (pow2_pos (k - 125) ltac:(lia)) as Hp.
    set (c := M * 2 ^ (k - 125)).
    assert (Ec : M * 2 ^ k = c * 2 ^ 125) by (unfold c; rewrite E; ring).
    rewrite Ec in *. assert (0 <= c) by (unfold c; nia).
    destruct (Z_lt_ge_dec c (2 ^ 23)); [left; lia|right].
    exists c. split; [lia|reflexivity].
Qed.

Lemma rne_div_tie_even (n d : Z) :
  2 * (n mod d) = d -> Z.even (rne_div n d) = true.
Proof.
  intros H. unfold rne_div. rewrite H, Z.compare_refl.
  destruct (Z.even (n / d)) eqn:E; [exact E|].
  rewrite Z.even_add, E. reflexivity.
Qed.

(** Quantising a value below one half and decoding it. *)
Lemma quant_low (sv : Z) :
  0 <= sv <= (2 ^ 24 - 1) * 2 ^ 124 ->
  let A := roundUnits binary32 (sv * 16777215) in
  let B := roundUnits binary32 (A + 2 ^ 148) in
  let u := B / S32 in
  let D := roundUnits binary32 (u * (2 ^ 125 + 2 ^ 102)) in
  0 <= u < 2 ^ 24 /\ Z.abs (D - sv) * 16777215 <= 2 * S32.
Proof.
  intros Hsv A B u D.
  pose proof (roundUnits_error binary32 b32_prec b32_ebits (sv * 16777215) 172
                ltac:(lia) ltac:(lia)) as HA. fold A in HA.
  pose proof (roundUnits_nonneg binary32 b32_prec b32_ebits (sv * 16777215) ltac:(lia)) as HA0.
  fold A in HA0.
  change (2 ^ Z.max 0 (172 - prec binary32)) with (2 ^ 148) in HA.
  pose proof (roundUnits_error binary32 b32_prec b32_ebits (A + 2 ^ 148) 172
                ltac:(lia) ltac:(lia)) as HB. fold B in HB.
  change (2 ^ Z.max 0 (172 - prec binary32)) with (2 ^ 148) in HB.
  pose proof (roundUnits_nonneg binary32 b32_prec b32_ebits (A + 2 ^ 148) ltac:(lia)) as HB0.
  fold B in HB0.
  pose proof (Z.div_mod B S32 ltac:(unfold S32; lia)) as Hdm.
  pose proof (Z.mod_pos_bound B S32 S32_pos) as Hmod. fold u in Hdm.
  unfold S32 in *.
  assert (Hu : 0 <= u <= 2 ^ 23) by lia.
  pose proof (roundUnits_error binary32 b32_prec b32_ebits (u * (2 ^ 125 + 2 ^ 102)) 149
                ltac:(lia) ltac:(lia)) as HD. fold D in HD.
  change (2 ^ Z.max 0 (149 - prec binary32)) with (2 ^ 125) in HD.
  lia.
Qed.

(** Quantising a value in the binade below one. *)
Lemma quant_top (m : Z) :
  2 ^ 23 < m < 2 ^ 24 ->
  let A := roundUnits binary32 (m * 2 ^ 125 * 16777215) in
  let B := roundUnits binary32 (A + 2 ^ 148) in
  let u := B / S32 in
  let D := roundUnits binary32 (u * (2 ^ 125 + 2 ^ 102)) in
  0 <= u < 2 ^ 24 /\ Z.abs (D - m * 2 ^ 125) * 16777215 <= 2 * S32.
Proof.
  intros Hm A B u D.
  assert (EA : A = (m - 1) * 2 ^ 149).
  { unfold A. rewrite (roundUnits_binade binary32 b32_prec b32_ebits _ 172) by (cbn; lia).
    change (172 - mbits binary32) with 149. f_equal.
    replace (m * 2 ^ 125 * 16777215) with (2 ^ 125 * (m * 2 ^ 24 - m)) by ring.
    change (2 ^ 149) with (2 ^ 125 * 2 ^ 24).
    rewrite rne_div_scale by lia.
    assert (Hq : (m * 2 ^ 24 - m) / 2 ^ 24 = m - 1)
      by (symmetry; apply (Z.div_unique _ _ _ (2 ^ 24 - m)); lia).
    assert (Hr : (m * 2 ^ 24 - m) mod 2 ^ 24 = 2 ^ 24 - m)
      by (symmetry; apply (Z.mod_unique _ _ (m - 1)); lia).
    rewrite rne_div_low; lia. }
  set (w := rne_div (2 * m - 1) 2).
  assert (Hw : (w = m - 1 \/ w = m) /\ Z.even w = true).
  { assert (Hq : (2 * m - 1) / 2 = m - 1)
      by (symmetry; apply (Z.div_unique _ _ _ 1); lia).
    assert (Hr : (2 * m - 1) mod 2 = 1)
      by (symmetry; apply (Z.mod_unique _ _ (m - 1)); lia).
    split.
    - destruct (rne_div_cases (2 * m - 1) 2 ltac:(lia)) as [H|H]; fold w in H; lia.
    - apply rne_div_tie_even. lia. }
  assert (EB : B = w * 2 ^ 149).
  { unfold B. rewrite EA.
    rewrite (roundUnits_binade binary32 b32_prec b32_ebits _ 172) by (cbn; lia).
    change (172 - mbits binary32) with 149. f_equal.
    replace ((m - 1) * 2 ^ 149 + 2 ^ 148) with (2 ^ 148 * (2 * m - 1)) by ring.
    change (2 ^ 149) with (2 ^ 148 * 2).
    now rewrite rne_div_scale by lia. }
  assert (Eu : u = w).
  { unfold u. rewrite EB. apply Z.div_mul. unfold S32. lia. }
  destruct Hw as [Hw Hev]. apply Z.even_spec in Hev. destruct Hev as [h Hh].
  assert (Hu : 2 ^ 23 <= u <= 2 ^ 24 - 2) by lia.
  set (c := rne_div (u * 2 ^ 23 + u) (2 ^ 23)).
  assert (Hc : c = u + 1 \/ c = u + 2).
  { assert (Hq : (u * 2 ^ 23 + u) / 2 ^ 23 = u + 1)
      by (symmetry; apply (Z.div_unique _ _ _ (u - 2 ^ 23)); lia).
    destruct (rne_div_cases (u * 2 ^ 23 + u) (2 ^ 23) ltac:(lia)) as [H|H]; fold c in H; lia. }
  assert (ED : D = c * 2 ^ 125).
  { unfold D.
    rewrite (roundUnits_binade binary32 b32_prec b32_ebits _ 148) by (cbn; lia).
    change (148 - mbits binary32) with 125. f_equal.
    replace (u * (2 ^ 125 + 2 ^ 102)) with (2 ^ 102 * (u * 2 ^ 23 + u)) by ring.
    change (2 ^ 125) with (2 ^ 102 * 2 ^ 23).
    now rewrite rne_div_scale by lia. }
  unfold S32. split; [lia|]. rewrite ED. lia.
Qed.

Lemma quant_half :
  let A := roundUnits binary32 (2 ^ 148 * 16777215) in
  let B := roundUnits binary32 (A + 2 ^ 148) in
  let u := B / S32 in
  let D := roundUnits binary32 (u * (2 ^ 125 + 2 ^ 102)) in
  0 <= u < 2 ^ 24 /\ Z.abs (D - 2 ^ 148) * 16777215 <= 2 * S32.
Proof. vm_compute. intuition discriminate. Qed.

Lemma quant_error (sv : Z) :
  onGrid sv -> 0 <= sv < S32 ->
  let A := roundUnits binary32 (sv * 16777215) in
  let B := roundUnits binary32 (A + 2 ^ 148) in
  let u := B / S32 in
  let D := roundUnits binary32 (u * (2 ^ 125 + 2 ^ 102)) in
  0 <= u < 2 ^ 24 /\ Z.abs (D - sv) * 16777215 <= 2 * S32.
Proof.
  intros Hg Hsv. unfold S32 in Hsv.
  destruct (grid_cases sv Hg Hsv) as [Hlow|(m & Hm & ->)].
  - apply quant_low. lia.
  - destruct (Z.eq_dec m (2 ^ 23)) as [->|Hne].
    + exact quant_half.
    + apply quant_top. lia.
Qed.

(** * The two payload words of a displaced-triangle hit *)

Lemma shl32_small (v n : Z) :
  0 <= n -> 0 <= v -> v * 2 ^ n < 2 ^ 32 -> shl32 v n = v * 2 ^ n.
Proof.
  intros Hn Hv Hlt. unfold shl32, wrap32.
  rewrite Z.shiftl_mul_pow2 by lia. apply Z.mod_small.
  pose proof (pow2_pos n Hn). nia.
Qed.

Lemma payload_x (ux uy : Z) :
  0 <= ux < 2 ^ 24 -> 0 <= uy < 2 ^ 24 -> shr32 (word2 ux uy) 8 = ux.
Proof.
  intros Hux Huy. unfold word2, shr32. bitwise i Hi.
  replace (i + 8 - 8) with i by lia.
  destruct (Z.ltb_spec (i + 8) 32).
  - rewrite (testbit_above uy 24) by lia. btidy.
  - rewrite (testbit_above uy 24) by lia. cbn.
    symmetry. apply (testbit_above ux 24); lia.
Qed.

Lemma payload_y_high (ux uy : Z) :
  0 <= uy < 2 ^ 24 -> Z.land (word2 ux uy) 255 = shr32 uy 16.
Proof.
  intros Huy. unfold word2, shr32. change 255 with (Z.ones 8). bitwise i Hi.
  destruct (Z.ltb_spec i 8).
  - rewrite (Z.testbit_neg_r ux) by lia. btidy.
  - rewrite (testbit_above uy 24) by lia. btidy.
Qed.

Lemma payload_y_low (uy h : Z) :
  0 <= h < 2 ^ 16 -> shr32 (word3 uy h) 16 = Z.land uy 65535.
Proof.
  intros Hh. unfold word3, shr32. change 65535 with (Z.ones 16). bitwise i Hi.
  replace (i + 16 - 16) with i by lia.
  rewrite (testbit_above h 16) by lia.
  destruct (Z.ltb_spec i 16).
  - replace (i + 16 <? 32) with true by (symmetry; apply Z.ltb_lt; lia). btidy.
  - destruct (Z.ltb_spec (i + 16) 32); [lia|btidy].
Qed.

Lemma payload_half (uy h : Z) :
  0 <= h < 2 ^ 16 -> Z.land (word3 uy h) 65535 = h /\ word3 uy h mod 2 ^ 16 = h.
Proof.
  intros Hh.
  assert (E : Z.land (word3 uy h) 65535 = h).
  { unfold word3. change 65535 with (Z.ones 16). bitwise i Hi.
    destruct (Z.ltb_spec i 16).
    - rewrite (Z.testbit_neg_r uy) by lia. btidy.
    - rewrite (testbit_above h 16) by lia. btidy. }
  split; [exact E|]. rewrite <- Z.land_ones by lia. exact E.
Qed.

Lemma payload_y (ux uy h : Z) :
  0 <= uy < 2 ^ 24 -> 0 <= h < 2 ^ 16 ->
  Z.lor (shl32 (Z.land (word2 ux uy) 255) 16) (shr32 (word3 uy h) 16) = uy.
Proof.
  intros Huy Hh. rewrite payload_y_high, payload_y_low by assumption.
  unfold shr32. change 65535 with (Z.ones 16). bitwise i Hi.
  destruct (Z.ltb_spec i 16).
  - rewrite (Z.testbit_neg_r _ (i - 16)) by lia. btidy.
  - rewrite Z.shiftr_spec by lia. replace (i - 16 + 16) with i by lia.
    destruct (Z.ltb_spec i 32); btidy.
    symmetry. apply (testbit_above uy 24); lia.
Qed.

Section Patterns.

Variable fmt : Format.
Hypothesis Hprec : 2 <= prec fmt.
Hypothesis Hebits : 2 <= ebits fmt.

Lemma roundMag_range (n d : Z) :
  0 <= n -> 0 < d -> 0 <= roundMag fmt n d <= infBits fmt.
Proof using Hprec Hebits.
  intros Hn Hd. unfold roundMag.
  set (t := n * 2 ^ scale fmt).
  set (e := Z.max 0 (Z.log2 (t / d) - mbits fmt)).
  pose proof (P_pos fmt Hprec Hebits) as HP.
  pose proof (emaxField_ge fmt Hprec Hebits) as HE.
  assert (0 <= t) by (unfold t; pose proof (Z.pow_nonneg 2 (scale fmt)); nia).
  assert (0 < 2 ^ e) by (apply pow2_pos; unfold e; lia).
  pose proof (rne_div_nonneg t (d * 2 ^ e) ltac:(lia) ltac:(nia)).
  assert (0 <= e) by (unfold e; lia).
  assert (0 <= infBits fmt) by (unfold infBits; nia).
  split; [apply Z.min_glb; nia|apply Z.le_min_r].
Qed.

Lemma roundMag_scale (k n d : Z) :
  0 < k -> 0 < d -> roundMag fmt (k * n) (k * d) = roundMag fmt n d.
Proof using Hprec Hebits.
  intros Hk Hd. unfold roundMag.
  replace (k * n * 2 ^ scale fmt) with (k * (n * 2 ^ scale fmt)) by ring.
  rewrite Z.div_mul_cancel_l by lia.
  set (e := Z.max 0 (Z.log2 (n * 2 ^ scale fmt / d) - mbits fmt)).
  replace (k * d * 2 ^ e) with (k * (d * 2 ^ e)) by ring.
  rewrite rne_div_scale; auto.
  assert (0 < 2 ^ e) by (apply pow2_pos; unfold e; lia). nia.
Qed.

(** Rounding the value of a finite pattern gives the pattern back. *)
Lemma roundMag_sval (b : Z) :
  0 <= b < infBits fmt -> roundMag fmt (sval fmt b) (2 ^ scale fmt) = b.
Proof using Hprec Hebits.
  intros Hb. pose proof (P_pos fmt Hprec Hebits) as HP.
  pose proof (mbits_pos fmt Hprec Hebits) as Hmb.
  pose proof (scale_nonneg fmt Hprec Hebits) as Hs.
  pose proof (pow2_pos (scale fmt) Hs) as HS.
  destruct (fields_of_mag fmt Hprec Hebits b Hb) as (Ee & Ef & _ & _).
  pose proof (Z.div_mod b (2 ^ mbits fmt) ltac:(lia)) as Hdm.
  pose proof (Z.mod_pos_bound b (2 ^ mbits fmt) HP) as Hmod.
  pose proof (Z.div_pos b (2 ^ mbits fmt) ltac:(lia) HP) as Hq.
  unfold roundMag. rewrite Z.div_mul by lia.
  unfold sval. rewrite Ee, Ef.
  set (E := b / 2 ^ mbits fmt) in *. set (f := b mod 2 ^ mbits fmt) in *.
  destruct (Z.eqb_spec E 0) as [E0|E0].
  - assert (Hl : Z.max 0 (Z.log2 f - mbits fmt) = 0).
    { destruct (Z.eq_dec f 0) as [->|Hf]; [change (Z.log2 0) with 0; lia|].
      assert (Z.log2 f < mbits fmt) by (apply Z.log2_lt_pow2; lia). lia. }
    rewrite Hl. change (2 ^ 0) with 1. rewrite Z.mul_1_r.
    rewrite (rne_div_exact _ _ f) by lia.
    rewrite Z.min_l by lia. lia.
  - assert (HE1 : 1 <= E) by lia.
    assert (Hl : Z.log2 ((2 ^ mbits fmt + f) * 2 ^ (E - 1)) = mbits fmt + (E - 1)).
    { rewrite Z.log2_mul_pow2 by lia.
      rewrite (Z.log2_unique (2 ^ mbits fmt + f) (mbits fmt)); [lia|lia|].
      rewrite <- Z.add_1_r, Z.pow_add_r by lia. change (2 ^ 1) with 2. lia. }
    rewrite Hl. replace (mbits fmt + (E - 1) - mbits fmt) with (E - 1) by lia.
    rewrite Z.max_r by lia.
    assert (0 < 2 ^ (E - 1)) by (apply pow2_pos; lia).
    rewrite (rne_div_exact _ _ (2 ^ mbits fmt + f)) by (try nia; ring).
    rewrite Z.min_l by lia. lia.
Qed.

(** A word of the format is its sign bit and its magnitude. *)
Lemma split_sign (b : Z) :
  0 <= b < 2 ^ width fmt ->
  withSign fmt (fsign fmt b) (fmagn fmt b) = b /\
  0 <= fmagn fmt b < 2 ^ (width fmt - 1).
Proof using Hprec Hebits.
  intros Hb.
  assert (Hw : 0 <= width fmt - 1) by (unfold width; lia).
  pose proof (pow2_pos (width fmt - 1) Hw) as HW.
  assert (E2 : 2 ^ width fmt = 2 * 2 ^ (width fmt - 1)).
  { replace (width fmt) with (1 + (width fmt - 1)) at 1 by lia.
    rewrite Z.pow_add_r by lia. reflexivity. }
  pose proof (Z.div_mod b (2 ^ (width fmt - 1)) ltac:(lia)) as Hdm.
  pose proof (Z.mod_pos_bound b (2 ^ (width fmt - 1)) HW) as Hmod.
  assert (Hq : 0 <= b / 2 ^ (width fmt - 1) < 2).
  { split; [apply Z.div_pos; lia|apply Z.div_lt_upper_bound; lia]. }
  unfold withSign, fsign, fmagn. split; [|exact Hmod].
  destruct (Z.testbit b (width fmt - 1)) eqn:Eb.
  - apply Z.testbit_true in Eb; [|lia].
    assert (b / 2 ^ (width fmt - 1) = 1).
    { destruct (Z.eq_dec (b / 2 ^ (width fmt - 1)) 0) as [Hz|Hz];
        [rewrite Hz in Eb; discriminate|lia]. }
    lia.
  - assert (b / 2 ^ (width fmt - 1) = 0).
    { destruct (Z.eq_dec (b / 2 ^ (width fmt - 1)) 1) as [Hz|Hz]; [|lia].
      assert (Z.testbit b (width fmt - 1) = true)
        by (apply Z.testbit_true; [lia|rewrite Hz; reflexivity]).
      congruence. }
    lia.
Qed.

Lemma finite_magn (b : Z) :
  0 <= b < 2 ^ width fmt -> is_finite fmt b = true ->
  0 <= fmagn fmt b < infBits fmt /\ sval fmt (fmagn fmt b) = sval fmt b.
Proof using Hprec Hebits.
  intros Hb Hf. destruct (split_sign b Hb) as [Hsplit Hm].
  pose proof (P_pos fmt Hprec Hebits) as HP.
  destruct (fields_withSign fmt Hprec Hebits (fsign fmt b) (fmagn fmt b) Hm)
    as (_ & He & Hfr & _).
  rewrite Hsplit in He, Hfr.
  assert (Hv : sval fmt (fmagn fmt b) = sval fmt b)
    by (unfold sval; now rewrite He, Hfr).
  split; [|exact Hv]. split; [lia|].
  unfold is_finite in Hf. apply Z.ltb_lt in Hf. rewrite He in Hf.
  unfold fexpo in Hf.
  rewrite (half_width fmt Hprec Hebits) in Hm.
  assert (Hq : 0 <= fmagn fmt b / 2 ^ mbits fmt < 2 ^ ebits fmt).
  { split; [apply Z.div_pos; lia|apply Z.div_lt_upper_bound; lia]. }
  rewrite Z.mod_small in Hf by lia.
  pose proof (Z.div_mod (fmagn fmt b) (2 ^ mbits fmt) ltac:(lia)).
  pose proof (Z.mod_pos_bound (fmagn fmt b) (2 ^ mbits fmt) HP).
  unfold infBits. nia.
Qed.

End Patterns.

(** * Values as rationals *)

Lemma value_close (a b : float) (n : Z) (d : positive) :
  Z.abs (ssval binary32 a - ssval binary32 b) * Z.pos d <= n * S32 ->
  (Qabs (F32.value a - F32.value b) <= n # d)%Q.
Proof.
  intros H. unfold F32.value.
  set (sa := ssval binary32 a) in *. set (sb := ssval binary32 b) in *.
  apply Qabs_Qle_condition. unfold Qle, Qminus, Qplus, Qopp. cbn [Qnum Qden].
  rewrite Pos2Z.inj_mul.
  change (Z.pos (2 ^ 149)) with S32.
  pose proof S32_pos as HS. pose proof (Pos2Z.is_pos d) as Hd.
  revert H HS Hd. generalize S32 (Z.pos d). intros s dd H HS Hd.
  set (D := (sa - sb) * dd).
  assert (HD : - (n * s) <= D <= n * s) by (unfold D; nia).
  assert (- (n * s) * s <= D * s <= n * s * s) by nia.
  replace ((sa * s + - sb * s) * dd) with (D * s) by (unfold D; ring).
  split; lia.
Qed.

Lemma value_sign (x : float) :
  ((0 <= F32.value x)%Q <-> 0 <= ssval binary32 x) /\
  ((F32.value x < 1)%Q <-> ssval binary32 x < S32) /\
  ((F32.value x <= 1)%Q <-> ssval binary32 x <= S32).
Proof.
  unfold F32.value, Qle, Qlt. cbn [Qnum Qden].
  change (Z.pos (2 ^ 149)) with S32. repeat split; intros; lia.
Qed.

(** * Conversions between binary32 and binary16 *)

Lemma f32tof16_range (x : float) : 0 <= F32.f32tof16 x < 2 ^ 16.
Proof.
  unfold F32.f32tof16.
  assert (Hr : forall s m, 0 <= m <= 32256 ->
                           0 <= withSign binary16 s m < 2 ^ 16).
  { intros s m Hm. unfold withSign.
    change (2 ^ (width binary16 - 1)) with 32768. destruct s; lia. }
  change (nanBits binary16) with 32256. change (infBits binary16) with 31744.
  destruct (is_nan binary32 x); [apply Hr; lia|].
  destruct (is_finite binary32 x); [|apply Hr; lia].
  apply Hr.
  pose proof (roundMag_range binary16 b16_prec b16_ebits (sval binary32 x)
                (2 ^ scale binary32)
                (sval_nonneg binary32 b32_prec b32_ebits x) eq_refl) as H.
  change (infBits binary16) with 31744 in H. lia.
Qed.

(** The units a finite half float denotes. *)
Lemma sval16_grid (h : Z) :
  is_finite binary16 h = true ->
  exists M k, 0 <= M < 2 ^ 11 /\ 0 <= k <= 29 /\ sval binary16 h = M * 2 ^ k.
Proof.
  intros Hf. unfold is_finite in Hf. apply Z.ltb_lt in Hf.
  change (emaxField binary16) with 31 in Hf.
  pose proof (Z.mod_pos_bound h (2 ^ mbits binary16) eq_refl) as Hfr.
  pose proof (Z.mod_pos_bound (h / 2 ^ mbits binary16) (2 ^ ebits binary16) eq_refl) as He.
  fold (ffrac binary16 h) in Hfr. fold (fexpo binary16 h) in He.
  change (2 ^ mbits binary16) with (2 ^ 10) in *.
  unfold sval. change (2 ^ mbits binary16) with (2 ^ 10).
  destruct (Z.eqb_spec (fexpo binary16 h) 0).
  - exists (ffrac binary16 h), 0. repeat split; lia.
  - exists (2 ^ 10 + ffrac binary16 h), (fexpo binary16 h - 1). repeat split; lia.
Qed.

Lemma f16tof32_finite (h : Z) :
  0 <= h < 2 ^ 16 -> is_finite binary16 h = true ->
  F32.f16tof32 h
  = withSign binary32 (fsign binary16 h)
      (roundMag binary32 (sval binary16 h) (2 ^ scale binary16)) /\
  0 <= roundMag binary32 (sval binary16 h) (2 ^ scale binary16) < infBits binary32 /\
  sval binary32 (roundMag binary32 (sval binary16 h) (2 ^ scale binary16))
  = sval binary16 h * 2 ^ 125.
Proof.
  intros Hh Hf. unfold F32.f16tof32. rewrite Z.mod_small by lia.
  rewrite (finite_not_nan binary16 b16_prec b16_ebits h Hf), Hf.
  split; [reflexivity|].
  destruct (sval16_grid h Hf) as (M & k & HM & Hk & Hv).
  assert (Hpk : 0 < 2 ^ k <= 2 ^ 29)
    by (split; [apply pow2_pos; lia|apply Z.pow_le_mono_r; lia]).
  destruct (roundMag_units binary32 b32_prec b32_ebits (sval binary16 h)
              (2 ^ scale binary16) (sval binary16 h * 2 ^ 125) 165) as [HR HRv].
  { rewrite Hv. nia. } { reflexivity. } { lia. }
  { change (2 ^ scale binary32) with (2 ^ 125 * 2 ^ 24).
    change (2 ^ scale binary16) with (2 ^ 24). ring. }
  { rewrite Hv. nia. }
  { change (prec binary32) with 24. change (emaxField binary32) with 255. lia. }
  split; [exact HR|]. rewrite HRv, Hv.
  replace (M * 2 ^ k * 2 ^ 125) with (M * 2 ^ (k + 125))
    by (rewrite Z.pow_add_r by lia; ring).
  apply (roundUnits_exact binary32 b32_prec b32_ebits); [cbn; lia|lia].
Qed.

Lemma f32tof16_f16tof32 (h : Z) :
  0 <= h < 2 ^ 16 -> is_finite binary16 h = true ->
  F32.f32tof16 (F32.f16tof32 h) = h.
Proof.
  intros Hh Hf. destruct (f16tof32_finite h Hh Hf) as (E & HR & Hv).
  destruct (withSign_finite binary32 b32_prec b32_ebits (fsign binary16 h) _ HR)
    as (Hv' & Hf' & Hs' & _).
  rewrite <- E in Hv', Hf', Hs'.
  unfold F32.f32tof16.
  rewrite (finite_not_nan binary32 b32_prec b32_ebits _ Hf'), Hf', Hs', Hv', Hv.
  change (2 ^ scale binary32) with (2 ^ 125 * 2 ^ 24).
  rewrite (Z.mul_comm (sval binary16 h)).
  rewrite (roundMag_scale binary16 b16_prec b16_ebits) by lia.
  destruct (finite_magn binary16 b16_prec b16_ebits h Hh Hf) as [Hm Hsv].
  rewrite <- Hsv. change (2 ^ 24) with (2 ^ scale binary16).
  rewrite (roundMag_sval binary16 b16_prec b16_ebits _ Hm).
  apply (split_sign binary16 b16_prec b16_ebits h Hh).
Qed.

Lemma half_roundtrip (d : float) :
  F32.isHalf d -> F32.f16tof32 (F32.f32tof16 d) = d.
Proof.
  intros (h & Hh & Hf & ->). now rewrite f32tof16_f16tof32.
Qed.

(** Narrowing a float of magnitude at most one and widening it again. *)
Lemma narrow_widen_error (g : float) :
  is_finite binary32 g = true -> sval binary32 g <= S32 ->
  is_finite binary32 (F32.f16tof32 (F32.f32tof16 g)) = true /\
  Z.abs (ssval binary32 (F32.f16tof32 (F32.f32tof16 g)) - ssval binary32 g)
  <= 2 ^ 138.
Proof.
  intros Hf Hle. unfold S32 in Hle.
  pose proof (sval_nonneg binary32 b32_prec b32_ebits g) as Hsg.
  pose proof (f32tof16_range g) as Hr.
  assert (Eh : F32.f32tof16 g
               = withSign binary16 (fsign binary32 g)
                   (roundMag binary16 (sval binary32 g) (2 ^ scale binary32))).
  { unfold F32.f32tof16.
    now rewrite (finite_not_nan binary32 b32_prec b32_ebits g Hf), Hf. }
  destruct (roundMag_spec binary16 b16_prec b16_ebits (sval binary32 g)
              (2 ^ scale binary32) 25) as (HR & _ & _).
  { lia. } { reflexivity. } { lia. }
  { change (2 ^ scale binary16) with (2 ^ 24). change (2 ^ scale binary32) with (2 ^ 149). lia. }
  { change (prec binary16) with 11. change (emaxField binary16) with 31. lia. }
  pose proof (roundMag_error binary16 b16_prec b16_ebits (sval binary32 g)
                (2 ^ scale binary32) 25 Hsg eq_refl ltac:(lia)) as Herr.
  change (2 ^ scale binary16) with (2 ^ 24) in Herr.
  change (2 ^ scale binary32) with (2 ^ 149) in Herr.
  change (2 ^ Z.max 0 (25 - prec binary16)) with (2 ^ 14) in Herr.
  specialize (Herr ltac:(lia)
    ltac:(change (emaxField binary16) with 31; change (prec binary16) with 11; lia)).
  destruct (withSign_finite binary16 b16_prec b16_ebits (fsign binary32 g) _ HR)
    as (Hv16 & Hf16 & Hs16 & _).
  rewrite <- Eh in Hv16, Hf16, Hs16.
  destruct (f16tof32_finite (F32.f32tof16 g) Hr Hf16) as (E & HR32 & Hv32).
  destruct (withSign_finite binary32 b32_prec b32_ebits
              (fsign binary16 (F32.f32tof16 g)) _ HR32) as (Hv' & Hf' & Hs' & Hss').
  rewrite <- E in Hv', Hf', Hs', Hss'. split; [exact Hf'|].
  rewrite Hss', Hv32, Hs16, Hv16. unfold ssval.
  set (a := sval binary16 (roundMag binary16 (sval binary32 g) (2 ^ scale binary32))) in *.
  change (2 ^ scale binary32) with (2 ^ 149) in *.
  destruct (fsign binary32 g); lia.
Qed.

Lemma inUnit_nonneg (v : float) :
  F32.inUnit v -> nonneg v /\ sval binary32 v < S32.
Proof.
  intros (Hf & H0 & H1). destruct (value_sign v) as (E0 & E1 & _).
  apply E0 in H0. apply E1 in H1.
  assert (Hn : nonneg v) by (split; assumption).
  destruct (nonneg_ssval v Hn) as [Hs _]. split; [exact Hn|lia].
Qed.

Lemma inClosedUnit_nonneg (v : float) :
  F32.inClosedUnit v -> nonneg v /\ sval binary32 v <= S32.
Proof.
  intros (Hf & H0 & H1). destruct (value_sign v) as (E0 & _ & E1).
  apply E0 in H0. apply E1 in H1.
  assert (Hn : nonneg v) by (split; assumption).
  destruct (nonneg_ssval v Hn) as [Hs _]. split; [exact Hn|lia].
Qed.

(** One barycentric through the 24-bit quantiser and back. *)
Lemma unorm24_roundtrip (v : float) :
  F32.inUnit v ->
  0 <= quantize24 v < 2 ^ 24 /\
  (Qabs (F32.value (dequantize24 (quantize24 v)) - F32.value v) <= 2 # 16777215)%Q.
Proof.
  intros Hv. destruct (inUnit_nonneg v Hv) as [Hn Hlt].
  pose proof (sval_nonneg binary32 b32_prec b32_ebits v) as H0.
  destruct (quant_error (sval binary32 v) (sval_onGrid v) ltac:(lia)) as [Hu Herr].
  rewrite (quantize24_units v Hn Hlt) by apply Hu.
  split; [exact Hu|].
  destruct (dequantize24_units _ Hu) as [Hd Hdv].
  apply value_close.
  destruct (nonneg_ssval _ Hd) as [-> _]. destruct (nonneg_ssval _ Hn) as [-> _].
  rewrite Hdv. exact Herr.
Qed.

(** ** 16-bit unsigned-normalized fixed point *)

Lemma lit_65535 :
  is_finite binary32 (F32.lit 65535 1) = true /\
  fsign binary32 (F32.lit 65535 1) = false /\
  sval binary32 (F32.lit 65535 1) = 65535 * S32.
Proof. repeat split. Qed.

Lemma quant16 (sv : Z) :
  0 <= sv <= S32 ->
  let A := roundUnits binary32 (sv * 65535) in
  let B := roundUnits binary32 (A + 2 ^ 148) in
  let u := B / S32 in
  0 <= u <= 65535 /\ Z.abs (u * S32 - sv * 65535) <= 2 ^ 148 + 2 ^ 141.
Proof.
  intros Hsv A B u. unfold S32 in Hsv.
  pose proof (roundUnits_error binary32 b32_prec b32_ebits (sv * 65535) 165
                ltac:(lia) ltac:(lia)) as HA. fold A in HA.
  change (2 ^ Z.max 0 (165 - prec binary32)) with (2 ^ 141) in HA.
  pose proof (roundUnits_nonneg binary32 b32_prec b32_ebits (sv * 65535) ltac:(lia)) as HA0.
  fold A in HA0.
  pose proof (roundUnits_error binary32 b32_prec b32_ebits (A + 2 ^ 148) 165
                ltac:(lia) ltac:(lia)) as HB. fold B in HB.
  change (2 ^ Z.max 0 (165 - prec binary32)) with (2 ^ 141) in HB.
  pose proof (roundUnits_nonneg binary32 b32_prec b32_ebits (A + 2 ^ 148) ltac:(lia)) as HB0.
  fold B in HB0.
  pose proof (Z.div_mod B S32 ltac:(unfold S32; lia)) as Hdm.
  pose proof (Z.mod_pos_bound B S32 S32_pos) as Hmod. fold u in Hdm.
  unfold S32 in *. lia.
Qed.

Lemma packUnorm16_units (v : float) :
  F32.inClosedUnit v ->
  0 <= packUnorm16_unsafe v <= 65535 /\
  Z.abs (packUnorm16_unsafe v * S32 - sval binary32 v * 65535) <= 2 ^ 148 + 2 ^ 141.
Proof.
  intros Hv. destruct (inClosedUnit_nonneg v Hv) as [Hn Hle].
  pose proof (sval_nonneg binary32 b32_prec b32_ebits v) as Hsv.
  destruct (quant16 (sval binary32 v) ltac:(lia)) as [Hu Herr].
  destruct lit_65535 as (Nf & Ns & Nv). destruct lit_half as (Hh & Hhv).
  unfold S32 in Hle.
  destruct (mul_by_whole v (F32.lit 65535 1) 65535 166 Hn Nf Ns Nv) as [Ha Hav];
    try lia.
  pose proof (roundUnits_error binary32 b32_prec b32_ebits (sval binary32 v * 65535) 166
                ltac:(lia) ltac:(lia)) as HA.
  change (2 ^ Z.max 0 (166 - prec binary32)) with (2 ^ 142) in HA.
  destruct (add_nonneg (F32.mul v (F32.lit 65535 1)) (F32.lit 1 2) 167 Ha Hh)
    as (Hb & Hbs & Hbv); try lia.
  rewrite Hav, Hhv in Hbv.
  assert (E : packUnorm16_unsafe v
              = roundUnits binary32 (roundUnits binary32 (sval binary32 v * 65535) + 2 ^ 148)
                / S32).
  { unfold packUnorm16_unsafe. rewrite toUint_trunc; auto; rewrite Hbv; [reflexivity|].
    cbv zeta in Hu. lia. }
  rewrite E. split; [exact Hu|exact Herr].
Qed.

Lemma unpackUnorm16_units (w : Z) :
  0 <= Z.land w 65535 <= 65535 ->
  nonneg (unpackUnorm16 w) /\
  Z.abs (sval binary32 (unpackUnorm16 w) * 65535 - Z.land w 65535 * S32)
  <= 65535 * 2 ^ 125.
Proof.
  intros Hu. set (u := Z.land w 65535) in *.
  destruct (ofUint_small u ltac:(lia)) as ([Hf Hp] & Hs & Hv).
  destruct lit_65535 as (Nf & Ns & Nv).
  unfold unpackUnorm16. fold u.
  unfold F32.div, F32.anyNan, F32.bothFinite.
  rewrite (finite_not_nan binary32 b32_prec b32_ebits _ Hf),
    (finite_not_nan binary32 b32_prec b32_ebits _ Nf), Hf, Nf, Hs, Ns.
  cbn [orb andb xorb].
  replace (fmagn binary32 (F32.lit 65535 1) =? 0) with false by reflexivity.
  rewrite Hv, Nv. pose proof S32_pos as HS.
  destruct (roundMag_spec binary32 b32_prec b32_ebits (u * S32) (65535 * S32) 150)
    as (HR & _ & _).
  { nia. } { lia. } { lia. }
  { rewrite scale32. unfold S32. nia. }
  { change (prec binary32) with 24. change (emaxField binary32) with 255. lia. }
  pose proof (roundMag_error binary32 b32_prec b32_ebits (u * S32) (65535 * S32) 150
                ltac:(nia) ltac:(lia) ltac:(lia)) as Herr.
  rewrite scale32 in Herr.
  change (2 ^ Z.max 0 (150 - prec binary32)) with (2 ^ 126) in Herr.
  specialize (Herr ltac:(unfold S32; nia)
    ltac:(change (prec binary32) with 24; change (emaxField binary32) with 255; lia)).
  destruct (withSign_finite binary32 b32_prec b32_ebits false _ HR)
    as (Hv' & Hf' & Hs' & Hss').
  pose proof (sval_nonneg binary32 b32_prec b32_ebits
                (roundMag binary32 (u * S32) (65535 * S32))) as Hnn.
  split; [split; [exact Hf'|rewrite Hss'; exact Hnn]|].
  rewrite Hv'. set (r := sval binary32 (roundMag binary32 (u * S32) (65535 * S32))) in *.
  replace (r * (65535 * S32) - u * S32 * S32) with ((r * 65535 - u * S32) * S32) in Herr by ring.
  rewrite Z.abs_mul, (Z.abs_eq S32) in Herr by lia. nia.
Qed.

Lemma unorm16_roundtrip (v : float) (w : Z) :
  F32.inClosedUnit v -> Z.land w 65535 = packUnorm16_unsafe v ->
  (Qabs (F32.value (unpackUnorm16 w) - F32.value v) <= 1 # 65535)%Q.
Proof.
  intros Hv Hw. destruct (packUnorm16_units v Hv) as [Hu Herr].
  destruct (inClosedUnit_nonneg v Hv) as [Hn Hle].
  destruct (unpackUnorm16_units w ltac:(lia)) as [Hd Hderr].
  rewrite Hw in Hderr.
  apply value_close.
  destruct (nonneg_ssval _ Hd) as [-> _]. destruct (nonneg_ssval _ Hn) as [-> _].
  unfold S32 in *. lia.
Qed.

Lemma unpackHeader_total cfg w0 w1 ws :
  exists hdr, unpackHeader cfg (w0 :: w1 :: ws) = Some hdr.
Proof. unfold unpackHeader. destruct (kHeaderBits cfg <=? 32); cbn; eauto. Qed.

(** What [DisplacedTriangleHit::pack] and [__init] compute on the four
    words. *)
Lemma displaced_pack_words cfg this :
  SCENE_HAS_DISPLACED_TRIANGLE_MESH cfg = true ->
  HIT_INFO_USE_COMPRESSION cfg = false ->
  exists w0 w1,
    DisplacedTriangleHit.pack cfg this
    = Some [w0; w1;
            word2 (quantize24 (V2.x (barycentrics (geometry this))))
                  (quantize24 (V2.y (barycentrics (geometry this))));
            word3 (quantize24 (V2.y (barycentrics (geometry this))))
                  (F32.f32tof16 (displacement this))].
Proof.
  intros Hen Hc. unfold DisplacedTriangleHit.pack, packedZero, packedWords.
  rewrite Hen, Hc. cbn [repeat].
  destruct (packHeader_word0 cfg 0 0 [0; 0] HitType.DisplacedTriangle
              (instanceID (geometry this)) (primitiveIndex (geometry this))) as [w1 ->].
  unfold word2, word3. run. do 2 eexists. reflexivity.
Qed.

Lemma displaced_init_words cfg w0 w1 w2 w3 :
  SCENE_HAS_DISPLACED_TRIANGLE_MESH cfg = true ->
  exists hdr,
    DisplacedTriangleHit.init cfg [w0; w1; w2; w3]
    = Some {| geometry :=
                {| instanceID := fst hdr; primitiveIndex := snd hdr;
                   barycentrics :=
                     {| V2.x := dequantize24 (shr32 w2 8);
                        V2.y := dequantize24
                                  (Z.lor (shl32 (Z.land w2 255) 16) (shr32 w3 16)) |} |};
              displacement := F32.f16tof32 w3 |}.
Proof.
  intros Hen. unfold DisplacedTriangleHit.init. rewrite Hen.
  destruct (unpackHeader_total cfg w0 w1 [w2; w3]) as [hdr ->].
  exists hdr. reflexivity.
Qed.

Lemma f16tof32_low (w : Z) : F32.f16tof32 w = F32.f16tof32 (w mod 2 ^ 16).
Proof. unfold F32.f16tof32. now rewrite Z.mod_mod by lia. Qed.

(** Packing a displaced-triangle hit with barycentrics in [[0, 1)] and
    decoding the words again. *)
Lemma displaced_codec cfg this :
  SCENE_HAS_DISPLACED_TRIANGLE_MESH cfg = true ->
  HIT_INFO_USE_COMPRESSION cfg = false ->
  F32.inUnit (V2.x (barycentrics (geometry this))) ->
  F32.inUnit (V2.y (barycentrics (geometry this))) ->
  exists w0 w1 hdr ux uy hd,
    ux = quantize24 (V2.x (barycentrics (geometry this))) /\
    uy = quantize24 (V2.y (barycentrics (geometry this))) /\
    hd = F32.f32tof16 (displacement this) /\
    (0 <= ux < 2 ^ 24 /\ 0 <= uy < 2 ^ 24 /\ 0 <= hd < 2 ^ 16) /\
    DisplacedTriangleHit.pack cfg this = Some [w0; w1; word2 ux uy; word3 uy hd] /\
    DisplacedTriangleHit.init cfg [w0; w1; word2 ux uy; word3 uy hd]
    = Some {| geometry :=
                {| instanceID := fst hdr; primitiveIndex := snd hdr;
                   barycentrics := {| V2.x := dequantize24 ux;
                                      V2.y := dequantize24 uy |} |};
              displacement := F32.f16tof32 hd |}.
Proof.
  intros Hen Hc Hx Hy.
  destruct (displaced_pack_words cfg this Hen Hc) as (w0 & w1 & Hp).
  destruct (unorm24_roundtrip _ Hx) as [Hux _].
  destruct (unorm24_roundtrip _ Hy) as [Huy _].
  pose proof (f32tof16_range (displacement this)) as Hhd.
  remember (quantize24 (V2.x (barycentrics (geometry this)))) as ux eqn:Eux.
  remember (quantize24 (V2.y (barycentrics (geometry this)))) as uy eqn:Euy.
  remember (F32.f32tof16 (displacement this)) as hd eqn:Ehd.
  destruct (displaced_init_words cfg w0 w1 (word2 ux uy) (word3 uy hd) Hen) as [hdr Hi].
  destruct (payload_half uy hd Hhd) as [_ Hm].
  rewrite (payload_x ux uy Hux Huy), (payload_y ux uy hd Huy Hhd) in Hi.
  rewrite f16tof32_low, Hm in Hi.
  exists w0, w1, hdr, ux, uy, hd.
  split; [reflexivity|]. split; [reflexivity|]. split; [reflexivity|].
  split; [auto|]. split; [exact Hp|exact Hi].
Qed.

(** C4 (amended). For a displaced-triangle hit with barycentrics in
    [[0, 1)], [pack()] lays out the payload as: the 24-bit code of
    barycentric x in word 2 bits 31..8; the code of barycentric y split
    into its high 8 bits in word 2 bits 7..0 and its low 16 bits in
    word 3 bits 31..16; the displacement as a half float in word 3 bits
    15..0. The code of [v] is [trunc(v * 16777215.f + 0.5f)] in binary32
    arithmetic, and decoding multiplies the code by the binary32 constant
    [1.f / 16777215]. *)
Theorem displaced_payload_layout cfg this :
  SCENE_HAS_DISPLACED_TRIANGLE_MESH cfg = true ->
  HIT_INFO_USE_COMPRESSION cfg = false ->
  F32.inUnit (V2.x (barycentrics (geometry this))) ->
  F32.inUnit (V2.y (barycentrics (geometry this))) ->
  exists w0 w1 w2 w3 ux uy hd decoded,
    ux = F32.toUint (F32.trunc (F32.add
           (F32.mul (V2.x (barycentrics (geometry this))) (F32.lit 16777215 1))
           (F32.lit 1 2))) /\
    uy = F32.toUint (F32.trunc (F32.add
           (F32.mul (V2.y (barycentrics (geometry this))) (F32.lit 16777215 1))
           (F32.lit 1 2))) /\
    hd = F32.f32tof16 (displacement this) /\
    (0 <= ux < 2 ^ 24 /\ 0 <= uy < 2 ^ 24 /\ 0 <= hd < 2 ^ 16) /\
    DisplacedTriangleHit.pack cfg this = Some [w0; w1; w2; w3] /\
    shr32 w2 8 = ux /\
    Z.land w2 255 = shr32 uy 16 /\
    shr32 w3 16 = Z.land uy 65535 /\
    Z.land w3 65535 = hd /\
    DisplacedTriangleHit.init cfg [w0; w1; w2; w3] = Some decoded /\
    V2.x (barycentrics (geometry decoded))
    = F32.mul (F32.ofUint ux) (F32.div (F32.lit 1 1) (F32.ofUint 16777215)) /\
    V2.y (barycentrics (geometry decoded))
    = F32.mul (F32.ofUint uy) (F32.div (F32.lit 1 1) (F32.ofUint 16777215)) /\
    displacement decoded = F32.f16tof32 hd.
Proof.
  intros Hen Hc Hx Hy.
  destruct (displaced_codec cfg this Hen Hc Hx Hy)
    as (w0 & w1 & hdr & ux & uy & hd & Ex & Ey & Eh & (Hux & Huy & Hhd) & Hp & Hi).
  exists w0, w1, (word2 ux uy), (word3 uy hd), ux, uy, hd. eexists.
  split; [exact Ex|]. split; [exact Ey|]. split; [exact Eh|].
  split; [auto|]. split; [exact Hp|].
  split; [now apply payload_x|].
  split; [now apply payload_y_high|].
  split; [now apply payload_y_low|].
  split; [now apply payload_half|].
  split; [exact Hi|].
  cbn [geometry barycentrics V2.x V2.y displacement].
  split; [reflexivity|]. split; reflexivity.
Qed.

Lemma inUnit_concrete (v : float) :
  is_finite binary32 v = true ->
  (0 <=? ssval binary32 v) && (ssval binary32 v <? 2 ^ 149) = true ->
  F32.inUnit v.
Proof.
  intros Hf H. apply andb_true_iff in H. destruct H as [H0 H1].
  apply Z.leb_le in H0. apply Z.ltb_lt in H1.
  destruct (value_sign v) as (E0 & E1 & _).
  split; [exact Hf|]. split; [apply E0; exact H0|apply E1; exact H1].
Qed.

Lemma displaced_payload_layout_witness :
  exists w0 w1 w2 w3,
    DisplacedTriangleHit.pack cfgOpen scenarioB = Some [w0; w1; w2; w3] /\
    shr32 w2 8 = 4194304 /\ Z.land w2 255 = 192 /\
    shr32 w3 16 = 0 /\ Z.land w3 65535 = 15872.
Proof.
  destruct (displaced_payload_layout cfgOpen scenarioB eq_refl eq_refl)
    as (w0 & w1 & w2 & w3 & ux & uy & hd & decoded & Ex & Ey & Eh & _
        & Hp & H1 & H2 & H3 & H4 & _).
  - apply inUnit_concrete; vm_compute; reflexivity.
  - apply inUnit_concrete; vm_compute; reflexivity.
  - exists w0, w1, w2, w3. split; [exact Hp|].
    rewrite H1, H2, H3, H4, Ex, Ey, Eh. vm_compute. repeat split.
Defined.

(** Counterexample to C4 as stated: for scenario B the code of y is
    [0xC00000]; word 2 bits 7..0 hold [0xC0], its high 8 bits, and not
    [0xC000], its high 16 bits, which do not fit in a byte. *)
Lemma displaced_low_byte_is_not_high_half :
  exists w0 w1 w2 w3,
    DisplacedTriangleHit.pack cfgOpen scenarioB = Some [w0; w1; w2; w3] /\
    quantize24 (V2.y (barycentrics (geometry scenarioB))) = 12582912 /\
    Z.land w2 255 = 192 /\
    shr32 12582912 8 = 49152 /\
    Z.land w2 255 <> shr32 (quantize24 (V2.y (barycentrics (geometry scenarioB)))) 8.
Proof.
  do 4 eexists. split; [vm_compute; reflexivity|].
  split; [vm_compute; reflexivity|]. split; [vm_compute; reflexivity|].
  split; [vm_compute; reflexivity|]. vm_compute. discriminate.
Qed.

Lemma triangle_pack_compressed cfg this :
  SCENE_HAS_TRIANGLE_MESH cfg = true ->
  HIT_INFO_USE_COMPRESSION cfg = true ->
  exists w0,
    TriangleHit.pack cfg this
    = Some [w0; word3 (packUnorm16_unsafe (V2.y (barycentrics this)))
                      (packUnorm16_unsafe (V2.x (barycentrics this)))].
Proof.
  intros Hen Hc. unfold TriangleHit.pack, packedZero, packedWords.
  rewrite Hen, Hc. cbn [repeat].
  destruct (packHeader_word0 cfg 0 0 [] HitType.Triangle
              (instanceID this) (primitiveIndex this)) as [w1 ->].
  unfold word3, packUnorm2x16_unsafe.
  cbn -[shr32 shl32 Z.lor packUnorm16_unsafe kTypeOffset headerLow].
  eexists. reflexivity.
Qed.

Lemma triangle_init_compressed cfg w0 w1 :
  SCENE_HAS_TRIANGLE_MESH cfg = true ->
  HIT_INFO_USE_COMPRESSION cfg = true ->
  exists hdr,
    TriangleHit.init cfg [w0; w1]
    = Some {| instanceID := fst hdr; primitiveIndex := snd hdr;
              barycentrics := {| V2.x := unpackUnorm16 w1;
                                 V2.y := unpackUnorm16 (shr32 w1 16) |} |}.
Proof.
  intros Hen Hc. unfold TriangleHit.init. rewrite Hen, Hc.
  destruct (unpackHeader_total cfg w0 w1 []) as [hdr ->].
  exists hdr. reflexivity.
Qed.

(** C5 (amended). For every displaced-triangle hit with barycentrics in
    [[0, 1)], packing and unpacking yields barycentrics within
    [2/16777215] of the originals and gives the displacement back bit for
    bit when it is the image of a finite half float. For every triangle
    hit with barycentrics in [[0, 1]], packing and unpacking with
    compression yields barycentrics within [1/65535] of the originals. *)
Theorem barycentrics_roundtrip cfgD cfgT dh th :
  SCENE_HAS_DISPLACED_TRIANGLE_MESH cfgD = true ->
  HIT_INFO_USE_COMPRESSION cfgD = false ->
  F32.inUnit (V2.x (barycentrics (geometry dh))) ->
  F32.inUnit (V2.y (barycentrics (geometry dh))) ->
  SCENE_HAS_TRIANGLE_MESH cfgT = true ->
  HIT_INFO_USE_COMPRESSION cfgT = true ->
  F32.inClosedUnit (V2.x (barycentrics th)) ->
  F32.inClosedUnit (V2.y (barycentrics th)) ->
  (exists p dh',
      DisplacedTriangleHit.pack cfgD dh = Some p /\
      DisplacedTriangleHit.init cfgD p = Some dh' /\
      (Qabs (F32.value (V2.x (barycentrics (geometry dh')))
             - F32.value (V2.x (barycentrics (geometry dh)))) <= 2 # 16777215)%Q /\
      (Qabs (F32.value (V2.y (barycentrics (geometry dh')))
             - F32.value (V2.y (barycentrics (geometry dh)))) <= 2 # 16777215)%Q /\
      (F32.isHalf (displacement dh) -> displacement dh' = displacement dh)) /\
  (exists p th',
      TriangleHit.pack cfgT th = Some p /\
      TriangleHit.init cfgT p = Some th' /\
      (Qabs (F32.value (V2.x (barycentrics th'))
             - F32.value (V2.x (barycentrics th))) <= 1 # 65535)%Q /\
      (Qabs (F32.value (V2.y (barycentrics th'))
             - F32.value (V2.y (barycentrics th))) <= 1 # 65535)%Q).
Proof.
  intros HenD HcD Hx Hy HenT HcT Htx Hty. split.
  - destruct (displaced_codec cfgD dh HenD HcD Hx Hy)
      as (w0 & w1 & hdr & ux & uy & hd & Ex & Ey & Eh & _ & Hp & Hi).
    do 2 eexists. split; [exact Hp|]. split; [exact Hi|].
    cbn [geometry barycentrics V2.x V2.y displacement]. subst ux uy hd.
    split; [apply (unorm24_roundtrip _ Hx)|].
    split; [apply (unorm24_roundtrip _ Hy)|].
    apply half_roundtrip.
  - destruct (triangle_pack_compressed cfgT th HenT HcT) as [w0 Hp].
    destruct (packUnorm16_units _ Htx) as [Hux _].
    destruct (packUnorm16_units _ Hty) as [Huy _].
    remember (packUnorm16_unsafe (V2.x (barycentrics th))) as ux eqn:Eux.
    remember (packUnorm16_unsafe (V2.y (barycentrics th))) as uy eqn:Euy.
    destruct (triangle_init_compressed cfgT w0 (word3 uy ux) HenT HcT) as [hdr Hi].
    exists [w0; word3 uy ux]. eexists. split; [exact Hp|]. split; [exact Hi|].
    cbn [barycentrics V2.x V2.y]. split.
    + apply unorm16_roundtrip; [exact Htx|]. rewrite <- Eux.
      apply (payload_half uy ux). lia.
    + apply unorm16_roundtrip; [exact Hty|]. rewrite <- Euy.
      rewrite (payload_y_low uy ux) by lia.
      change 65535 with (Z.ones 16).
      rewrite (land_ones_small uy 16) by lia.
      apply land_ones_small; lia.
Qed.

Lemma inClosedUnit_concrete (v : float) :
  is_finite binary32 v = true ->
  (0 <=? ssval binary32 v) && (ssval binary32 v <=? 2 ^ 149) = true ->
  F32.inClosedUnit v.
Proof.
  intros Hf H. apply andb_true_iff in H. destruct H as [H0 H1].
  apply Z.leb_le in H0. apply Z.leb_le in H1.
  destruct (value_sign v) as (E0 & _ & E1).
  split; [exact Hf|]. split; [apply E0; exact H0|apply E1; exact H1].
Qed.

Lemma barycentrics_roundtrip_witness :
  exists p dh',
    DisplacedTriangleHit.pack cfgOpen scenarioB = Some p /\
    DisplacedTriangleHit.init cfgOpen p = Some dh' /\
    (Qabs (F32.value (V2.x (barycentrics (geometry dh'))) - F32.value (F32.lit 1 4))
     <= 2 # 16777215)%Q /\
    (Qabs (F32.value (V2.y (barycentrics (geometry dh'))) - F32.value (F32.lit 3 4))
     <= 2 # 16777215)%Q /\
    displacement dh' = F32.lit 3 2.
Proof.
  destruct (barycentrics_roundtrip cfgOpen cfgPacked scenarioB
              (geomHit 5 77 (F32.lit 1 4) (F32.lit 1 1)))
    as [(p & dh' & Hp & Hi & Hx & Hy & Hd) _];
    try reflexivity;
    try (apply inUnit_concrete; vm_compute; reflexivity);
    try (apply inClosedUnit_concrete; vm_compute; reflexivity).
  exists p, dh'. repeat (split; [assumption|]).
  apply Hd. exists 15872. split; [lia|]. split; vm_compute; reflexivity.
Defined.

(** Counterexample to C5 as stated: in scenario B the barycentric 0.75
    has the code [0xC00000] and decodes to [0.75 + 2^-23]; the error
    [2^-23] is more than [1/16777215]. *)
Lemma scenarioB_exceeds_one_step :
  exists p dh',
    DisplacedTriangleHit.pack cfgOpen scenarioB = Some p /\
    DisplacedTriangleHit.init cfgOpen p = Some dh' /\
    V2.y (barycentrics (geometry scenarioB)) = 1061158912 /\
    V2.y (barycentrics (geometry dh')) = 1061158914 /\
    (F32.value 1061158914%Z - F32.value 1061158912%Z == 1 # 8388608)%Q /\
    ~ (Qabs (F32.value (V2.y (barycentrics (geometry dh')))
             - F32.value (V2.y (barycentrics (geometry scenarioB))))
       <= 1 # 16777215)%Q.
Proof.
  do 2 eexists. split; [vm_compute; reflexivity|]. split; [vm_compute; reflexivity|].
  split; [vm_compute; reflexivity|]. split; [vm_compute; reflexivity|].
  split; [vm_compute; reflexivity|].
  intros H. vm_compute in H. apply H. reflexivity.
Qed.

(** The barycentric 1.0, outside the range of the theorem above: the sum
    [16777215.f + 0.5f] rounds to [2^24], a code of 25 bits, and the
    shift by 8 drops it from word 2; the hit decodes to barycentrics
    (0.0, 0.0). *)
Example vertex_barycentric_wraps :
  quantize24 (F32.lit 1 1) = 2 ^ 24 /\
  exists p dh',
    DisplacedTriangleHit.pack cfgOpen vertexHit = Some p /\
    DisplacedTriangleHit.init cfgOpen p = Some dh' /\
    barycentrics (geometry dh') = {| V2.x := 0; V2.y := 0 |}.
Proof.
  split; [vm_compute; reflexivity|].
  do 2 eexists. split; [vm_compute; reflexivity|]. split; vm_compute; reflexivity.
Qed.

Lemma magnitude_units (x : float) :
  F32.magnitudeAtMostOne x ->
  is_finite binary32 x = true /\ sval binary32 x <= S32.
Proof.
  intros [Hf Hq]. split; [exact Hf|].
  apply Qabs_Qle_condition in Hq. destruct Hq as [Hlo Hhi].
  unfold F32.value, Qle in Hlo, Hhi. cbn [Qnum Qden Qopp] in Hlo, Hhi.
  change (Z.pos (2 ^ 149)) with S32 in *.
  unfold ssval in *. pose proof (sval_nonneg binary32 b32_prec b32_ebits x).
  destruct (fsign binary32 x); lia.
Qed.

(** Word 0 of a compressed volume hit: the tag above the half float. *)
Lemma volume_word0 cfg hd :
  0 < kTypeBits cfg <= 16 -> 0 <= hd < 2 ^ 16 ->
  Z.lor (shl32 HitType.Volume (kTypeOffset cfg)) (Z.land hd 65535)
  = Z.lor (shl32 HitType.Volume (kTypeOffset cfg)) hd /\
  Z.land (Z.lor (shl32 HitType.Volume (kTypeOffset cfg)) hd) 65535 = hd.
Proof.
  intros Ht Hh.
  assert (Eo : kTypeOffset cfg = 32 - kTypeBits cfg)
    by (unfold kTypeOffset, wrap32; apply Z.mod_small; lia).
  change 65535 with (Z.ones 16). rewrite (land_ones_small hd 16) by lia.
  split; [reflexivity|]. rewrite Eo. bitwise i Hi.
  destruct (Z.ltb_spec i 16).
  - rewrite (Z.testbit_neg_r HitType.Volume) by lia. btidy.
  - rewrite (testbit_above hd 16) by lia. btidy.
Qed.

(** C6 (amended). Volume hits. Without compression [pack()] stores [t] in word 1
    and [g] in word 2 as raw floats and unpacking gives both back bit for
    bit. With compression and the tag within the upper 16 bits of word 0,
    [pack()] stores [t] as a raw float in word 1 and [g] as a half float
    in the low 16 bits of word 0, below the tag; unpacking gives [t] back
    bit for bit and [g] rounded once to half precision: within [2^-11],
    half of the half-precision epsilon [2^-10], for [g] in [[-1, 1]], and
    bit for bit when [g] is the image of a finite half float. *)
Theorem volume_roundtrip cfg this :
  (HIT_INFO_USE_COMPRESSION cfg = false ->
   exists w0,
     VolumeHit.pack cfg this = Some [w0; asuint (t this); asuint (g this); 0] /\
     VolumeHit.init cfg [w0; asuint (t this); asuint (g this); 0] = Some this) /\
  (HIT_INFO_USE_COMPRESSION cfg = true -> 0 < kTypeBits cfg <= 16 ->
   exists w0 decoded,
     VolumeHit.pack cfg this = Some [w0; asuint (t this)] /\
     w0 = Z.lor (shl32 HitType.Volume (kTypeOffset cfg)) (F32.f32tof16 (g this)) /\
     Z.land w0 65535 = F32.f32tof16 (g this) /\
     0 <= F32.f32tof16 (g this) < 2 ^ 16 /\
     VolumeHit.init cfg [w0; asuint (t this)] = Some decoded /\
     t decoded = t this /\
     g decoded = F32.f16tof32 (F32.f32tof16 (g this)) /\
     (F32.magnitudeAtMostOne (g this) ->
      (Qabs (F32.value (g decoded) - F32.value (g this)) <= 1 # 2048)%Q) /\
     (F32.isHalf (g this) -> g decoded = g this)).
Proof.
  split.
  - intros Hc. unfold VolumeHit.pack, VolumeHit.init, packHeaderType, packedZero, packedWords.
    rewrite Hc. cbn [repeat]. run. eexists. split; [reflexivity|].
    destruct this; reflexivity.
  - intros Hc Ht.
    pose proof (f32tof16_range (g this)) as Hr.
    destruct (volume_word0 cfg _ Ht Hr) as [E1 E2].
    unfold VolumeHit.pack, VolumeHit.init, packHeaderType, packedZero, packedWords.
    rewrite Hc. cbn [repeat]. run. rewrite E1.
    do 2 eexists. split; [reflexivity|]. split; [reflexivity|].
    split; [exact E2|]. split; [exact Hr|]. rewrite E2.
    split; [reflexivity|]. cbn [t g]. split; [reflexivity|]. split; [reflexivity|].
    split.
    + intros Hm. destruct (magnitude_units _ Hm) as [Hf Hle].
      destruct (narrow_widen_error _ Hf Hle) as [_ Herr].
      apply value_close. unfold S32. lia.
    + apply half_roundtrip.
Qed.

Lemma volume_roundtrip_witness :
  exists w0 decoded,
    VolumeHit.pack cfgPacked scenarioC = Some [w0; t scenarioC] /\
    Z.land w0 65535 = 13517 /\
    VolumeHit.init cfgPacked [w0; t scenarioC] = Some decoded /\
    t decoded = F32.lit 10 1 /\
    (Qabs (F32.value (g decoded) - F32.value (F32.lit 3 10)) <= 1 # 2048)%Q.
Proof.
  destruct (proj2 (volume_roundtrip cfgPacked scenarioC) eq_refl)
    as (w0 & decoded & Hp & _ & Hl & _ & Hi & Ht & _ & Hg & _).
  - split; [reflexivity|]. apply Z.leb_le. reflexivity.
  - exists w0, decoded. split; [exact Hp|]. split; [rewrite Hl; vm_compute; reflexivity|].
    split; [exact Hi|]. split; [exact Ht|].
    apply Hg. split; [vm_compute; reflexivity|].
    apply Qabs_Qle_condition. split; vm_compute; discriminate.
Defined.

(** Counterexample to C6 as stated: with compression and 17 tag bits the
    tag of a volume hit reaches bit 15 of word 0, the sign bit of the half
    float that [pack()] ORs into the same word. Scenario C ([t = 10.0],
    [g = 0.3]) is unpacked with [t] intact and [g = -0.3], the pattern
    [0xBE99A000], which is not within [1e-3] of [0.3]. *)
Lemma volume_g_negated_by_wide_tag :
  wf_widths cfgTag17 /\
  HIT_INFO_USE_COMPRESSION cfgTag17 = true /\
  kHeaderBits cfgTag17 = 32 /\
  F32.magnitudeAtMostOne (g scenarioC) /\
  exists p decoded,
    VolumeHit.pack cfgTag17 scenarioC = Some p /\
    VolumeHit.init cfgTag17 p = Some decoded /\
    t decoded = t scenarioC /\
    g scenarioC = 1050253722 /\
    g decoded = 3197739008 /\
    (F32.value (g decoded) < 0)%Q /\
    ~ (Qabs (F32.value (g decoded) - F32.value (g scenarioC)) <= 1 # 1000)%Q.
Proof.
  split; [unfold wf_widths; concrete|].
  split; [reflexivity|]. split; [reflexivity|].
  split.
  { split; [vm_compute; reflexivity|].
    apply Qabs_Qle_condition. split; vm_compute; discriminate. }
  do 2 eexists. split; [vm_compute; reflexivity|]. split; [vm_compute; reflexivity|].
  split; [vm_compute; reflexivity|]. split; [vm_compute; reflexivity|].
  split; [vm_compute; reflexivity|]. split; [vm_compute; reflexivity|].
  intros H. vm_compute in H. apply H. reflexivity.
Qed.

(** * Typed hits through the container *)

(** The two header words [packHeader] leaves and what [unpackHeader]
    reads from them, whatever the payload words are. *)
Lemma header_words cfg w0 w1 ws ty id prim :
  header_fits cfg -> inWidths cfg id prim ->
  exists a b,
    packHeader cfg (w0 :: w1 :: ws) ty id prim = Some (a :: b :: ws) /\
    a = Z.lor (shl32 ty (kTypeOffset cfg)) (headerLow cfg id prim) /\
    (kHeaderBits cfg <= 32 -> b = w1) /\
    forall ws', unpackHeader cfg (a :: b :: ws') = Some (id, prim).
Proof.
  intros Hfit [Hid Hprim]. unfold packHeader, unpackHeader, headerLow.
  destruct (Z.leb_spec (kHeaderBits cfg) 32) as [Hh|Hh].
  - destruct (header_word0_short cfg Hfit ty (index id) prim Hh Hid Hprim) as [E1 E2].
    cbn zeta in E1, E2. rewrite <- Z.lor_assoc in E1, E2.
    cbn. do 2 eexists. split; [rewrite <- Z.lor_assoc; reflexivity|].
    split; [reflexivity|]. split; [reflexivity|]. intros ws'.
    rewrite E1, E2. destruct id; reflexivity.
  - cbn. do 2 eexists. split; [reflexivity|]. split; [reflexivity|].
    split; [lia|]. intros ws'.
    rewrite (header_word0_long cfg Hfit ty (index id) Hid). destruct id; reflexivity.
Qed.

Lemma packedZero_open cfg :
  HIT_INFO_USE_COMPRESSION cfg = false -> packedZero cfg = [0; 0; 0; 0].
Proof. intros H. unfold packedZero, packedWords. now rewrite H. Qed.

Lemma packedZero_packed cfg :
  HIT_INFO_USE_COMPRESSION cfg = true -> packedZero cfg = [0; 0].
Proof. intros H. unfold packedZero, packedWords. now rewrite H. Qed.

(** Words of a triangle hit and of a curve hit without compression: the
    header, then the two barycentrics as raw floats. *)
Lemma triangle_pack_open cfg (h : TriangleHit) :
  header_fits cfg ->
  HIT_INFO_USE_COMPRESSION cfg = false ->
  SCENE_HAS_TRIANGLE_MESH cfg = true ->
  inWidths cfg (instanceID h) (primitiveIndex h) ->
  exists a b,
    TriangleHit.pack cfg h
    = Some [a; b; V2.x (barycentrics h); V2.y (barycentrics h)] /\
    a = Z.lor (shl32 HitType.Triangle (kTypeOffset cfg))
              (headerLow cfg (instanceID h) (primitiveIndex h)) /\
    forall ws', unpackHeader cfg (a :: b :: ws')
                = Some (instanceID h, primitiveIndex h).
Proof.
  intros Hfit Hc Hen Hin.
  destruct (header_words cfg 0 0 [0; 0] HitType.Triangle _ _ Hfit Hin)
    as (a & b & Hp & Ha & _ & Hu).
  exists a, b. unfold TriangleHit.pack.
  rewrite Hen, Hc, (packedZero_open cfg Hc), Hp. repeat split; auto.
Qed.

Lemma curve_pack_open cfg (h : CurveHit) :
  header_fits cfg ->
  HIT_INFO_USE_COMPRESSION cfg = false ->
  SCENE_HAS_CURVE cfg = true ->
  inWidths cfg (instanceID h) (primitiveIndex h) ->
  exists a b,
    CurveHit.pack cfg h
    = Some [a; b; V2.x (barycentrics h); V2.y (barycentrics h)] /\
    a = Z.lor (shl32 HitType.Curve (kTypeOffset cfg))
              (headerLow cfg (instanceID h) (primitiveIndex h)) /\
    forall ws', unpackHeader cfg (a :: b :: ws')
                = Some (instanceID h, primitiveIndex h).
Proof.
  intros Hfit Hc Hen Hin.
  destruct (header_words cfg 0 0 [0; 0] HitType.Curve _ _ Hfit Hin)
    as (a & b & Hp & Ha & _ & Hu).
  exists a, b. unfold CurveHit.pack.
  rewrite Hen, (packedZero_open cfg Hc), Hp. repeat split; auto.
Qed.

(** The decoder shared by the two codecs, on words whose header reads
    as the address of [h] and whose payload is the barycentrics of [h]. *)
Lemma geometry_init_open cfg (h : GeometryHit) a b :
  HIT_INFO_USE_COMPRESSION cfg = false ->
  unpackHeader cfg [a; b; V2.x (barycentrics h); V2.y (barycentrics h)]
  = Some (instanceID h, primitiveIndex h) ->
  (SCENE_HAS_TRIANGLE_MESH cfg = true ->
   TriangleHit.init cfg [a; b; V2.x (barycentrics h); V2.y (barycentrics h)] = Some h) /\
  (SCENE_HAS_CURVE cfg = true ->
   CurveHit.init cfg [a; b; V2.x (barycentrics h); V2.y (barycentrics h)] = Some h).
Proof.
  intros Hc Hu. unfold TriangleHit.init, CurveHit.init. rewrite Hc, Hu.
  destruct h as [id prim [bx by_]]. split; intros ->; reflexivity.
Qed.

Lemma get_of_init {A} (f : PackedHitInfo -> option A) p v :
  f p = Some v ->
  HitInfo.seq HitInfo.getData (fun d => HitInfo.lift (f d)) {| data := p |}
  = Some (v, {| data := p |}).
Proof. intros H. unfold HitInfo.seq, HitInfo.getData, HitInfo.lift. cbn. now rewrite H. Qed.

(** X1. Without compression a triangle hit and a curve hit go through
    the container unchanged: with the tag field not empty, the tag and
    the instance ID side by side in word 0 and the address of the hit
    within the configured widths, the accessor applied to [HitInfo(hit)]
    returns the hit itself, the barycentrics bit for bit, whatever
    their value. *)
Theorem raw_float_hits_roundtrip cfg (h : GeometryHit) :
  header_fits cfg ->
  HIT_INFO_USE_COMPRESSION cfg = false ->
  inWidths cfg (instanceID h) (primitiveIndex h) ->
  (SCENE_HAS_TRIANGLE_MESH cfg = true ->
   exists hi, HitInfo.ofTriangleHit cfg h = Some hi /\
              HitInfo.getTriangleHit cfg hi = Some (h, hi)) /\
  (SCENE_HAS_CURVE cfg = true ->
   exists hi, HitInfo.ofCurveHit cfg h = Some hi /\
              HitInfo.getCurveHit cfg hi = Some (h, hi)).
Proof.
  intros Hfit Hc Hin. split; intros Hen.
  - destruct (triangle_pack_open cfg h Hfit Hc Hen Hin) as (a & b & Hp & _ & Hu).
    unfold HitInfo.ofTriangleHit. rewrite Hp. eexists. split; [reflexivity|].
    apply get_of_init.
    now apply (geometry_init_open cfg h a b Hc (Hu _)).
  - destruct (curve_pack_open cfg h Hfit Hc Hen Hin) as (a & b & Hp & _ & Hu).
    unfold HitInfo.ofCurveHit. rewrite Hp. eexists. split; [reflexivity|].
    apply get_of_init.
    now apply (geometry_init_open cfg h a b Hc (Hu _)).
Qed.

Lemma raw_float_hits_roundtrip_witness :
  (exists hi, HitInfo.ofTriangleHit cfgOpen (geomHit 5 77 (F32.lit 1 4) (F32.lit 3 4)) = Some hi /\
              HitInfo.getTriangleHit cfgOpen hi
              = Some (geomHit 5 77 (F32.lit 1 4) (F32.lit 3 4), hi)) /\
  (exists hi, HitInfo.ofCurveHit cfgLong (geomHit 5 123456 (F32.lit 1 4) (F32.lit 3 4)) = Some hi /\
              HitInfo.getCurveHit cfgLong hi
              = Some (geomHit 5 123456 (F32.lit 1 4) (F32.lit 3 4), hi)).
Proof.
  split.
  - apply (raw_float_hits_roundtrip cfgOpen (geomHit 5 77 (F32.lit 1 4) (F32.lit 3 4)));
      try reflexivity; concrete.
  - apply (raw_float_hits_roundtrip cfgLong (geomHit 5 123456 (F32.lit 1 4) (F32.lit 3 4)));
      try reflexivity; concrete.
Defined.

(** X2. An SDF grid hit goes through the container. In a configuration
    whose tag field is not empty and whose tag and instance ID fit side
    by side in word 0 ([0 < typeBits], [typeBits + instanceIDBits <= 32],
    [primitiveIndexBits <= 32]), with SDF grids enabled and without
    compression, for an SDF grid hit whose instance ID is below
    [2^instanceIDBits] and whose integer field of the active backend is
    below [2^primitiveIndexBits]: the instance ID, that integer field and
    [hitT] come back from [HitInfo(hit).getSDFGridHit()] as they were
    packed. [pack()] writes [hitT] to word 2 before it writes the header,
    which leaves that word alone, and it never writes word 3. *)
Theorem sdf_grid_roundtrip cfg (h : SDFGridHit) :
  header_fits cfg ->
  SCENE_HAS_SDF_GRID cfg = true ->
  HIT_INFO_USE_COMPRESSION cfg = false ->
  inWidths cfg (gridInstanceID h) (SDFGridHit.primitiveDataOf cfg (hitData h)) ->
  exists hi h',
    HitInfo.ofSDFGridHit cfg h = Some hi /\
    HitInfo.getSDFGridHit cfg hi = Some (h', hi) /\
    gridInstanceID h' = gridInstanceID h /\
    SDFGridHit.primitiveDataOf cfg (hitData h')
    = SDFGridHit.primitiveDataOf cfg (hitData h) /\
    hitT (hitData h') = hitT (hitData h) /\
    rd (data hi) 2 = Some (asuint (hitT (hitData h))) /\
    rd (data hi) 3 = Some 0.
Proof.
  intros Hfit Hen Hc Hin.
  destruct (header_words cfg 0 0 [asuint (hitT (hitData h)); 0] HitType.SDFGrid
              _ _ Hfit Hin) as (a & b & Hp & _ & _ & Hu).
  unfold HitInfo.ofSDFGridHit, SDFGridHit.pack.
  rewrite Hen, (packedZero_open cfg Hc).
  change (wr [0; 0; 0; 0] 2 (asuint (hitT (hitData h))))
    with (Some [0; 0; asuint (hitT (hitData h)); 0]).
  cbn [bind]. rewrite Hp. cbn [bind].
  eexists. eexists. split; [reflexivity|].
  unfold HitInfo.getSDFGridHit, HitInfo.seq, HitInfo.getData, HitInfo.lift,
    SDFGridHit.init. rewrite Hen. cbn [data]. rewrite Hu. cbn [bind rd nth_error fst snd].
  split; [reflexivity|].
  unfold SDFGridHit.primitiveDataOf.
  destruct (SCENE_SDF_GRID_IMPLEMENTATION cfg); repeat split.
Qed.

Lemma sdf_grid_roundtrip_witness :
  exists hi h',
    HitInfo.ofSDFGridHit cfgOpen
      {| gridInstanceID := {| index := 5 |};
         hitData := {| lod := 3; primitiveID := 0; svoIndex := 0;
                       hitT := F32.lit 10 1 |} |} = Some hi /\
    HitInfo.getSDFGridHit cfgOpen hi = Some (h', hi) /\
    gridInstanceID h' = {| index := 5 |} /\
    lod (hitData h') = 3 /\
    hitT (hitData h') = F32.lit 10 1.
Proof.
  destruct (sdf_grid_roundtrip cfgOpen
              {| gridInstanceID := {| index := 5 |};
                 hitData := {| lod := 3; primitiveID := 0; svoIndex := 0;
                               hitT := F32.lit 10 1 |} |})
    as (hi & h' & H1 & H2 & H3 & H4 & H5 & _);
    try reflexivity.
  - concrete.
  - concrete.
  - exists hi, h'. split; [exact H1|]. split; [exact H2|].
    split; [exact H3|]. split; [exact H4|]. exact H5.
Defined.

(** A one-word header is read from word 0 alone. *)
Lemma unpackHeader_short cfg a b b' ws ws' :
  kHeaderBits cfg <= 32 ->
  unpackHeader cfg (a :: b :: ws) = unpackHeader cfg (a :: b' :: ws').
Proof.
  intros Hh. unfold unpackHeader.
  destruct (Z.leb_spec (kHeaderBits cfg) 32); [reflexivity|lia].
Qed.

(** X3. [getInstanceID()] and [getPrimitiveIndex()] of a container built
    from a typed hit return the instance ID and the primitive index the
    hit was packed with (for an SDF grid hit, the integer field of the
    active backend), whatever the payload. The conditions: the tag field
    is not empty and the tag and the instance ID fit side by side in
    word 0 ([0 < typeBits], [typeBits + instanceIDBits <= 32],
    [primitiveIndexBits <= 32]); the typed hit is a Triangle,
    DisplacedTriangle, Curve or SDFGrid hit of an enabled geometry type,
    the last three without compression only; its instance ID is below
    [2^instanceIDBits] and its primitive index below
    [2^primitiveIndexBits]; with compression the header has at most 32
    bits, since word 1 holds the barycentrics. *)
Theorem container_reports_address cfg h id prim :
  header_fits cfg ->
  variantEnabled cfg h = true ->
  layoutFits cfg h ->
  (HIT_INFO_USE_COMPRESSION cfg = true -> kHeaderBits cfg <= 32) ->
  addressOf cfg h = Some (id, prim) ->
  inWidths cfg id prim ->
  exists p,
    packTyped cfg h = Some p /\
    HitInfo.getInstanceID cfg (HitInfo.ofPacked p) = Some (id, HitInfo.ofPacked p) /\
    HitInfo.getPrimitiveIndex cfg (HitInfo.ofPacked p)
    = Some (prim, HitInfo.ofPacked p).
Proof.
  intros Hfit Hen Hlay Hshort Ha Hin.
  assert (Hq : forall a b ws,
             unpackHeader cfg (a :: b :: ws) = Some (id, prim) ->
             HitInfo.getInstanceID cfg (HitInfo.ofPacked (a :: b :: ws))
             = Some (id, HitInfo.ofPacked (a :: b :: ws)) /\
             HitInfo.getPrimitiveIndex cfg (HitInfo.ofPacked (a :: b :: ws))
             = Some (prim, HitInfo.ofPacked (a :: b :: ws))).
  { intros a b ws Hu.
    unfold HitInfo.getInstanceID, HitInfo.getPrimitiveIndex, HitInfo.seq,
      HitInfo.getData, HitInfo.lift, HitInfo.ret, HitInfo.ofPacked.
    cbn [data]. rewrite Hu. split; reflexivity. }
  destruct h as [th|dh|ch|sh|vh];
    cbn [packTyped variantEnabled layoutFits addressOf] in *;
    try discriminate; injection Ha as <- <-.
  - unfold TriangleHit.pack. rewrite Hen.
    destruct (HIT_INFO_USE_COMPRESSION cfg) eqn:Hc.
    + rewrite (packedZero_packed cfg Hc).
      destruct (header_words cfg 0 0 [] HitType.Triangle _ _ Hfit Hin)
        as (a & b & Hp & _ & Hb & Hu).
      rewrite Hp. cbn [bind]. specialize (Hshort eq_refl).
      eexists. split; [reflexivity|]. cbn [upd].
      apply Hq. rewrite <- (Hu []). now apply unpackHeader_short.
    + rewrite (packedZero_open cfg Hc).
      destruct (header_words cfg 0 0 [0; 0] HitType.Triangle _ _ Hfit Hin)
        as (a & b & Hp & _ & _ & Hu).
      rewrite Hp. eexists. split; [reflexivity|]. apply Hq, Hu.
  - unfold DisplacedTriangleHit.pack. rewrite Hen, (packedZero_open cfg Hlay).
    destruct (header_words cfg 0 0 [0; 0] HitType.DisplacedTriangle _ _ Hfit Hin)
      as (a & b & Hp & _ & _ & Hu).
    rewrite Hp. eexists. split; [reflexivity|]. apply Hq, Hu.
  - unfold CurveHit.pack. rewrite Hen, (packedZero_open cfg Hlay).
    destruct (header_words cfg 0 0 [0; 0] HitType.Curve _ _ Hfit Hin)
      as (a & b & Hp & _ & _ & Hu).
    rewrite Hp. eexists. split; [reflexivity|]. apply Hq, Hu.
  - unfold SDFGridHit.pack. rewrite Hen, (packedZero_open cfg Hlay).
    change (wr [0; 0; 0; 0] 2 (asuint (hitT (hitData sh))))
      with (Some [0; 0; asuint (hitT (hitData sh)); 0]).
    cbn [bind].
    destruct (header_words cfg 0 0 [asuint (hitT (hitData sh)); 0] HitType.SDFGrid
                _ _ Hfit Hin) as (a & b & Hp & _ & _ & Hu).
    rewrite Hp. eexists. split; [reflexivity|]. apply Hq, Hu.
Qed.

Lemma container_reports_address_witness :
  exists p,
    packTyped cfgPacked (OfTriangle (geomHit 5 77 (F32.lit 1 4) (F32.lit 3 4))) = Some p /\
    HitInfo.getInstanceID cfgPacked (HitInfo.ofPacked p)
    = Some ({| index := 5 |}, HitInfo.ofPacked p) /\
    HitInfo.getPrimitiveIndex cfgPacked (HitInfo.ofPacked p)
    = Some (77, HitInfo.ofPacked p).
Proof.
  apply (container_reports_address cfgPacked
           (OfTriangle (geomHit 5 77 (F32.lit 1 4) (F32.lit 3 4))) {| index := 5 |} 77);
    try reflexivity; concrete.
Defined.

Lemma getType_zero cfg :
  HitInfo.getType cfg (HitInfo.ofPacked (packedZero cfg))
  = Some (0, HitInfo.ofPacked (packedZero cfg)).
Proof.
  unfold packedZero, packedWords.
  destruct (HIT_INFO_USE_COMPRESSION cfg); cbn [repeat];
    rewrite getType_cons; unfold shr32; now rewrite Z.shiftr_0_l.
Qed.

(** X4. A typed hit of a disabled geometry type packs to the zero-filled
    vector: [HitInfo(hit)] is the invalid hit, its type is [None] and
    [isValid()] is false, whatever the fields of the hit. *)
Theorem disabled_type_packs_invalid cfg h :
  variantEnabled cfg h = false ->
  exists p,
    packTyped cfg h = Some p /\
    p = packedZero cfg /\
    HitInfo.ofPacked p = makeInvalidHit cfg /\
    HitInfo.getType cfg (HitInfo.ofPacked p) = Some (HitType.None, HitInfo.ofPacked p) /\
    HitInfo.isValid cfg (HitInfo.ofPacked p) = Some (false, HitInfo.ofPacked p).
Proof.
  intros Hen. exists (packedZero cfg).
  split.
  - destruct h; cbn [packTyped variantEnabled] in *; try discriminate.
    + unfold TriangleHit.pack. now rewrite Hen.
    + unfold DisplacedTriangleHit.pack. now rewrite Hen.
    + unfold CurveHit.pack. now rewrite Hen.
    + unfold SDFGridHit.pack. now rewrite Hen.
  - split; [reflexivity|]. split; [reflexivity|].
    split; [apply getType_zero|].
    unfold HitInfo.isValid, HitInfo.seq. rewrite getType_zero. reflexivity.
Qed.

Lemma disabled_type_packs_invalid_witness :
  Forall (fun h => exists p, packTyped cfgNoGeometry h = Some p /\
                     HitInfo.isValid cfgNoGeometry (HitInfo.ofPacked p)
                     = Some (false, HitInfo.ofPacked p))
         [ OfTriangle (geomHit 5 77 (F32.lit 1 4) (F32.lit 3 4));
           OfCurve (geomHit 5 77 (F32.lit 1 4) (F32.lit 3 4)) ].
Proof.
  repeat constructor.
  - destruct (disabled_type_packs_invalid cfgNoGeometry
                (OfTriangle (geomHit 5 77 (F32.lit 1 4) (F32.lit 3 4))) eq_refl)
      as (p & Hp & _ & _ & _ & Hv).
    exists p. split; [exact Hp | exact Hv].
  - destruct (disabled_type_packs_invalid cfgNoGeometry
                (OfCurve (geomHit 5 77 (F32.lit 1 4) (F32.lit 3 4))) eq_refl)
      as (p & Hp & _ & _ & _ & Hv).
    exists p. split; [exact Hp | exact Hv].
Defined.

(** X5. With compression and a header of more than 32 bits, a triangle
    hit loses its primitive index: [pack()] writes it to word 1 and then
    overwrites that word with the packed barycentrics, so two hits that
    differ only in the primitive index pack to the same words, and
    unpacking returns the barycentrics word as the primitive index. *)
Theorem compressed_long_header_drops_index cfg (h : TriangleHit) :
  SCENE_HAS_TRIANGLE_MESH cfg = true ->
  HIT_INFO_USE_COMPRESSION cfg = true ->
  32 < kHeaderBits cfg ->
  exists w0 h',
    TriangleHit.pack cfg h = Some [w0; packUnorm2x16_unsafe (barycentrics h)] /\
    (forall prim,
        TriangleHit.pack cfg {| instanceID := instanceID h; primitiveIndex := prim;
                                barycentrics := barycentrics h |}
        = TriangleHit.pack cfg h) /\
    TriangleHit.init cfg [w0; packUnorm2x16_unsafe (barycentrics h)] = Some h' /\
    primitiveIndex h' = packUnorm2x16_unsafe (barycentrics h).
Proof.
  intros Hen Hc Hh.
  unfold TriangleHit.pack, TriangleHit.init, packHeader, unpackHeader.
  rewrite Hen, Hc, (packedZero_packed cfg Hc).
  destruct (Z.leb_spec (kHeaderBits cfg) 32); [lia|].
  cbn [instanceID primitiveIndex barycentrics]. run.
  do 2 eexists. split; [reflexivity|]. split; [reflexivity|].
  split; reflexivity.
Qed.

Lemma compressed_long_header_drops_index_witness :
  exists w0 h',
    TriangleHit.pack cfgPackedLong (geomHit 5 123456 (F32.lit 1 4) (F32.lit 3 4))
    = Some [w0; 3221176320] /\
    TriangleHit.pack cfgPackedLong (geomHit 5 0 (F32.lit 1 4) (F32.lit 3 4))
    = TriangleHit.pack cfgPackedLong (geomHit 5 123456 (F32.lit 1 4) (F32.lit 3 4)) /\
    TriangleHit.init cfgPackedLong [w0; 3221176320] = Some h' /\
    primitiveIndex h' = 3221176320.
Proof.
  destruct (compressed_long_header_drops_index cfgPackedLong
              (geomHit 5 123456 (F32.lit 1 4) (F32.lit 3 4)) eq_refl eq_refl)
    as (w0 & h' & Hp & Hd & Hi & Hx).
  - zcmp.
  - assert (E : packUnorm2x16_unsafe
                  (barycentrics (geomHit 5 123456 (F32.lit 1 4) (F32.lit 3 4)))
                = 3221176320) by (vm_compute; reflexivity).
    rewrite E in Hp, Hi, Hx. exists w0, h'.
    split; [exact Hp|]. split; [exact (Hd 0)|]. split; [exact Hi | exact Hx].
Defined.

(** * Fields wider than their slot *)

Lemma shl32_low_bits (v n i : Z) : 0 <= n -> i < n -> Z.testbit (shl32 v n) i = false.
Proof.
  intros Hn Hi. destruct (Z.neg_nonneg_cases i).
  - apply Z.testbit_neg_r; lia.
  - rewrite testbit_shl32 by lia. rewrite (Z.testbit_neg_r v) by lia. apply andb_false_r.
Qed.

(** X6. Header fields wider than their slot are cut, never refused. In a
    configuration whose tag field is not empty and whose tag and instance
    ID fit side by side in word 0 ([0 < typeBits],
    [typeBits + instanceIDBits <= 32], [primitiveIndexBits <= 32]), for
    every type, every 32-bit instance ID and every 32-bit primitive
    index, packing and unpacking the header succeed. In
    the one-word layout the primitive index is read back modulo
    [2^kPrimitiveIndexBits] and its upper bits are ORed into the instance
    ID, which is read back modulo [2^kInstanceIDBits]. In the two-word
    layout the primitive index has word 1 to itself and is read back
    whole; the instance ID is read back modulo [2^kInstanceIDBits]. *)
Theorem header_fields_truncate cfg packed ty id prim :
  header_fits cfg ->
  wf_packed cfg packed ->
  is_uint (index id) -> is_uint prim ->
  exists p id' prim',
    packHeader cfg packed ty id prim = Some p /\
    unpackHeader cfg p = Some (id', prim') /\
    (kHeaderBits cfg <= 32 ->
     prim' = prim mod 2 ^ kPrimitiveIndexBits cfg /\
     index id' = Z.lor (index id) (prim / 2 ^ kPrimitiveIndexBits cfg)
                 mod 2 ^ kInstanceIDBits cfg) /\
    (32 < kHeaderBits cfg ->
     prim' = prim /\ index id' = index id mod 2 ^ kInstanceIDBits cfg).
Proof.
  intros Hfit [Hlen _] _ _.
  pose proof (packedWords_ge2 cfg) as H2.
  destruct (packed_two packed ltac:(lia)) as (w0 & w1 & ws & ->).
  pose proof (kTypeOffset_eq cfg Hfit) as Eo.
  pose proof (kHeaderBits_eq cfg Hfit) as Eh.
  destruct Hfit as (Ht & Hi & Hp & Hti).
  unfold packHeader, unpackHeader, kInstanceIDOffset, shr32.
  destruct (Z.leb_spec (kHeaderBits cfg) 32) as [Hh|Hh].
  - cbn. do 3 eexists. split; [reflexivity|]. split; [reflexivity|].
    split; [intros _|lia]. cbn [index].
    rewrite Eo, !mask_ones by lia.
    rewrite <- (Z.land_ones prim), <- (Z.land_ones (Z.lor _ _)) by lia.
    rewrite <- (Z.shiftr_div_pow2 prim) by lia.
    split.
    + bitwise i Hi'. destruct (Z.ltb_spec i (kPrimitiveIndexBits cfg)).
      * rewrite (Z.testbit_neg_r ty), (Z.testbit_neg_r (index id)) by lia. btidy.
      * btidy.
    + bitwise i Hi'. destruct (Z.ltb_spec i (kInstanceIDBits cfg)).
      * rewrite (Z.testbit_neg_r ty) by lia.
        replace (i + kPrimitiveIndexBits cfg <? 32) with true
          by (symmetry; apply Z.ltb_lt; lia).
        replace (i + kPrimitiveIndexBits cfg - kPrimitiveIndexBits cfg) with i by lia.
        btidy.
      * btidy.
  - cbn. do 3 eexists. split; [reflexivity|]. split; [reflexivity|].
    split; [lia|intros _]. split; [reflexivity|]. cbn [index].
    rewrite Eo, mask_ones by lia. rewrite <- Z.land_ones by lia.
    bitwise i Hi'. destruct (Z.ltb_spec i (kInstanceIDBits cfg)).
    + rewrite (Z.testbit_neg_r ty) by lia. btidy.
    + btidy.
Qed.

Lemma header_fields_truncate_witness :
  exists p id',
    packHeader cfgPacked [0; 0] HitType.Triangle {| index := 4 |} 123456 = Some p /\
    unpackHeader cfgPacked p = Some (id', 57920) /\
    index id' = 5.
Proof.
  destruct (header_fields_truncate cfgPacked [0; 0] HitType.Triangle {| index := 4 |} 123456)
    as (p & id' & prim' & Hp & Hu & Hs & _).
  - concrete.
  - apply wf_packed_concrete; reflexivity.
  - concrete.
  - concrete.
  - destruct Hs as [E1 E2]; [zcmp|].
    exists p, id'. rewrite E1 in Hu. split; [exact Hp|]. split; [exact Hu|].
    rewrite E2. vm_compute. reflexivity.
Defined.

(** The tag field holds the low [kTypeBits] bits of the type. *)
Lemma tag_field cfg ty lo :
  header_fits cfg ->
  (forall i, 32 - kTypeBits cfg <= i -> Z.testbit lo i = false) ->
  shr32 (Z.lor (shl32 ty (kTypeOffset cfg)) lo) (kTypeOffset cfg)
  = ty mod 2 ^ kTypeBits cfg.
Proof.
  intros Hfit Hlo. rewrite (kTypeOffset_eq cfg Hfit).
  destruct Hfit as (Ht & Hi & Hp & Hti). unfold shr32.
  rewrite <- Z.land_ones by lia.
  bitwise i Hi'.
  replace (i + (32 - kTypeBits cfg) - (32 - kTypeBits cfg)) with i by lia.
  rewrite Hlo by lia. rewrite orb_false_r.
  destruct (Z.ltb_spec (i + (32 - kTypeBits cfg)) 32);
    destruct (Z.ltb_spec i (kTypeBits cfg)); try lia; btidy.
Qed.

(** X7. The tag field holds the type modulo [2^kTypeBits]. In a
    configuration whose tag field is not empty and whose tag and instance
    ID fit side by side in word 0 ([0 < typeBits],
    [typeBits + instanceIDBits <= 32], [primitiveIndexBits <= 32]), for
    every 32-bit type value and, in the overload that takes them, an
    instance ID below [2^instanceIDBits] and a primitive index below
    [2^primitiveIndexBits]: after either overload of [packHeader],
    [getType()] returns [type mod 2^kTypeBits]. A type that needs more
    bits than configured is read back as a different one. *)
Theorem type_tag_truncates cfg packed ty id prim :
  header_fits cfg ->
  wf_packed cfg packed ->
  is_uint ty ->
  inWidths cfg id prim ->
  (exists p,
      packHeader cfg packed ty id prim = Some p /\
      HitInfo.getType cfg (HitInfo.ofPacked p)
      = Some (ty mod 2 ^ kTypeBits cfg, HitInfo.ofPacked p)) /\
  (exists p,
      packHeaderType cfg packed ty = Some p /\
      HitInfo.getType cfg (HitInfo.ofPacked p)
      = Some (ty mod 2 ^ kTypeBits cfg, HitInfo.ofPacked p)).
Proof.
  intros Hfit [Hlen _] _ Hin.
  pose proof (packedWords_ge2 cfg) as H2.
  destruct (packed_two packed ltac:(lia)) as (w0 & w1 & ws & ->).
  split.
  - destruct (packHeader_word0 cfg w0 w1 ws ty id prim) as [w1' ->].
    eexists. split; [reflexivity|]. rewrite getType_cons. do 2 f_equal.
    apply tag_field; auto. intros; now apply headerLow_bits.
  - unfold packHeaderType. run. eexists. split; [reflexivity|].
    rewrite getType_cons. do 2 f_equal.
    rewrite <- (Z.lor_0_r (shl32 _ _)).
    apply tag_field; auto. intros; apply Z.bits_0.
Qed.

Lemma type_tag_truncates_witness :
  exists p,
    packHeader cfgNoDefines [0; 0; 0; 0] 2 {| index := 1 |} 1 = Some p /\
    HitInfo.getType cfgNoDefines (HitInfo.ofPacked p) = Some (0, HitInfo.ofPacked p).
Proof.
  destruct (type_tag_truncates cfgNoDefines [0; 0; 0; 0] 2 {| index := 1 |} 1)
    as [(p & Hp & Hg) _].
  - concrete.
  - apply wf_packed_concrete; reflexivity.
  - concrete.
  - concrete.
  - exists p. split; [exact Hp|]. exact Hg.
Defined.



(** X9. The typed accessors do not look at the tag. In a configuration
    whose tag field is not empty, holds the tag of [Curve]
    ([Curve < 2^typeBits]) and fits side by side with the instance ID in
    word 0 ([0 < typeBits], [typeBits + instanceIDBits <= 32],
    [primitiveIndexBits <= 32]), without compression and with triangle
    meshes and curves both enabled: [getTriangleHit()] and
    [getCurveHit()] return the same result on every packed value; and for
    a curve hit whose instance ID is below [2^instanceIDBits] and whose
    primitive index is below [2^primitiveIndexBits], the container built
    from it has the type [Curve] and its [getTriangleHit()] returns the
    fields of the curve hit. *)
Theorem accessors_do_not_check_tag cfg (h : GeometryHit) :
  header_fits cfg ->
  HIT_INFO_USE_COMPRESSION cfg = false ->
  SCENE_HAS_TRIANGLE_MESH cfg = true ->
  SCENE_HAS_CURVE cfg = true ->
  0 <= HitType.Curve < 2 ^ kTypeBits cfg ->
  inWidths cfg (instanceID h) (primitiveIndex h) ->
  (forall packed,
      HitInfo.getTriangleHit cfg (HitInfo.ofPacked packed)
      = HitInfo.getCurveHit cfg (HitInfo.ofPacked packed)) /\
  exists hi,
    HitInfo.ofCurveHit cfg h = Some hi /\
    HitInfo.getType cfg hi = Some (HitType.Curve, hi) /\
    HitInfo.getTriangleHit cfg hi = Some (h, hi).
Proof.
  intros Hfit Hc Htri Hcur Hty Hin. split.
  - intros packed.
    unfold HitInfo.getTriangleHit, HitInfo.getCurveHit, HitInfo.seq,
      HitInfo.getData, HitInfo.lift, TriangleHit.init, CurveHit.init.
    now rewrite Htri, Hcur, Hc.
  - destruct (curve_pack_open cfg h Hfit Hc Hcur Hin) as (a & b & Hp & Ha & Hu).
    unfold HitInfo.ofCurveHit. rewrite Hp. eexists. split; [reflexivity|]. split.
    + change {| data := a :: ?r |} with (HitInfo.ofPacked (a :: r)).
      rewrite getType_cons, Ha. do 2 f_equal.
      apply header_tag_bits; auto. intros; now apply headerLow_bits.
    + apply get_of_init.
      now apply (geometry_init_open cfg h a b Hc (Hu _)).
Qed.

Lemma accessors_do_not_check_tag_witness :
  exists hi,
    HitInfo.ofCurveHit cfgOpen (geomHit 5 77 (F32.lit 1 4) (F32.lit 3 4)) = Some hi /\
    HitInfo.getType cfgOpen hi = Some (HitType.Curve, hi) /\
    HitInfo.getTriangleHit cfgOpen hi
    = Some (geomHit 5 77 (F32.lit 1 4) (F32.lit 3 4), hi).
Proof.
  apply (accessors_do_not_check_tag cfgOpen (geomHit 5 77 (F32.lit 1 4) (F32.lit 3 4)));
    try reflexivity; concrete.
Defined.

(** * Rounding keeps the order of the grid *)

Section Monotone.

Variable fmt : Format.
Hypothesis Hprec : 2 <= prec fmt.
Hypothesis Hebits : 2 <= ebits fmt.

(** Rounding does not cross a power of two from below. *)
Lemma roundUnits_le_pow (T J : Z) :
  0 <= J -> 0 <= T <= 2 ^ J -> roundUnits fmt T <= 2 ^ J.
Proof using Hprec Hebits.
  intros HJ HT.
  assert (H1 : 1 < 2 ^ prec fmt) by (apply Z.pow_gt_1; lia).
  destruct (Z.eq_dec T (2 ^ J)) as [->|Hne].
  { rewrite <- (Z.mul_1_l (2 ^ J)) at 1.
    rewrite (roundUnits_exact fmt Hprec Hebits 1 J) by lia. lia. }
  destruct (Z.eq_dec T 0) as [->|Hz].
  { replace 0 with (0 * 2 ^ 0) at 1 by reflexivity.
    rewrite (roundUnits_exact fmt Hprec Hebits 0 0) by lia.
    pose proof (pow2_pos J HJ). lia. }
  assert (HL : Z.log2 T < J) by (apply Z.log2_lt_pow2; lia).
  pose proof (Z.log2_nonneg T) as HL0.
  pose proof (mbits_pos fmt Hprec Hebits) as Hm.
  unfold roundUnits.
  set (e := Z.max 0 (Z.log2 T - mbits fmt)).
  assert (He : 0 <= e <= J) by (unfold e; lia).
  assert (H2e : 0 < 2 ^ e) by (apply pow2_pos; lia).
  assert (EJ : 2 ^ J = 2 ^ (J - e) * 2 ^ e)
    by (rewrite <- Z.pow_add_r by lia; f_equal; lia).
  assert (Hq : T / 2 ^ e < 2 ^ (J - e))
    by (apply Z.div_lt_upper_bound; lia).
  destruct (rne_div_cases T (2 ^ e) H2e) as [->| ->]; rewrite EJ; nia.
Qed.

(** Rounding does not cross a representable value from above. *)
Lemma roundUnits_ge_grid (T M k : Z) :
  0 <= M < 2 ^ prec fmt -> 0 <= k -> M * 2 ^ k <= T ->
  M * 2 ^ k <= roundUnits fmt T.
Proof using Hprec Hebits.
  intros HM Hk Hle.
  pose proof (pow2_pos k Hk) as H2k.
  pose proof (mbits_pos fmt Hprec Hebits) as Hm.
  destruct (Z.eq_dec T 0) as [Hz|Hz].
  { subst T. pose proof (roundUnits_nonneg fmt Hprec Hebits 0 ltac:(lia)). nia. }
  assert (HT : 0 < T) by nia.
  pose proof (Z.log2_spec T HT) as [HLlo HLhi].
  pose proof (Z.log2_nonneg T) as HL0.
  unfold roundUnits.
  set (L := Z.log2 T) in *.
  set (e := Z.max 0 (L - mbits fmt)).
  assert (He : 0 <= e) by (unfold e; lia).
  assert (H2e : 0 < 2 ^ e) by (apply pow2_pos; lia).
  assert (Hq : T / 2 ^ e <= rne_div T (2 ^ e))
    by (destruct (rne_div_cases T (2 ^ e) H2e) as [->| ->]; lia).
  destruct (Z_le_gt_dec e k) as [Hek|Hek].
  - assert (Ek : 2 ^ k = 2 ^ (k - e) * 2 ^ e)
      by (rewrite <- Z.pow_add_r by lia; f_equal; lia).
    assert (M * 2 ^ (k - e) <= T / 2 ^ e).
    { apply Z.div_le_lower_bound; [lia|]. rewrite Ek in Hle. lia. }
    rewrite Ek. nia.
  - assert (Ee : e = L - mbits fmt) by (unfold e in *; lia).
    assert (EL : 2 ^ L = 2 ^ mbits fmt * 2 ^ e)
      by (rewrite <- Z.pow_add_r by lia; f_equal; lia).
    assert (2 ^ mbits fmt <= T / 2 ^ e)
      by (apply Z.div_le_lower_bound; lia).
    assert (Ek : 2 ^ e = 2 ^ (e - k) * 2 ^ k)
      by (rewrite <- Z.pow_add_r by lia; f_equal; lia).
    assert (2 <= 2 ^ (e - k)).
    { change 2 with (2 ^ 1) at 1. apply Z.pow_le_mono_r; lia. }
    rewrite (pow_prec fmt Hprec Hebits) in HM.
    pose proof (P_pos fmt Hprec Hebits).
    assert (M * 2 ^ k < 2 ^ mbits fmt * 2 ^ e) by (rewrite Ek; nia).
    nia.
Qed.

End Monotone.

(** * Negation and subtraction *)

Lemma magn_fields (b : Z) :
  fexpo binary32 (fmagn binary32 b) = fexpo binary32 b /\
  ffrac binary32 (fmagn binary32 b) = ffrac binary32 b.
Proof.
  unfold fexpo, ffrac, fmagn.
  change (width binary32 - 1) with 31. change (mbits binary32) with 23.
  change (ebits binary32) with 8.
  pose proof (Z.div_mod b (2 ^ 31) ltac:(lia)) as E.
  set (q := b / 2 ^ 31) in *. set (r := b mod 2 ^ 31) in *.
  assert (Eb : b = r + q * 2 ^ 8 * 2 ^ 23) by lia.
  split.
  - rewrite Eb at 1. rewrite Z.div_add by lia. now rewrite Z.mod_add by lia.
  - rewrite Eb at 1. now rewrite Z.mod_add by lia.
Qed.

Lemma neg_fields (y : float) :
  fsign binary32 (F32.neg y) = negb (fsign binary32 y) /\
  is_finite binary32 (F32.neg y) = is_finite binary32 y /\
  is_nan binary32 (F32.neg y) = is_nan binary32 y /\
  sval binary32 (F32.neg y) = sval binary32 y.
Proof.
  destruct (magn_fields y) as [Ee Ef].
  assert (Hm : 0 <= fmagn binary32 y < 2 ^ (width binary32 - 1))
    by (apply Z.mod_pos_bound; reflexivity).
  destruct (fields_withSign binary32 b32_prec b32_ebits
              (negb (fsign binary32 y)) (fmagn binary32 y) Hm) as (Hs & He & Hf & _).
  fold (F32.neg y) in Hs, He, Hf. rewrite Ee in He. rewrite Ef in Hf.
  split; [exact Hs|]. unfold is_finite, is_nan, sval. now rewrite He, Hf.
Qed.

(** Difference of two floats that are not negative, the larger first. *)
Lemma sub_nonneg (x y : float) (J : Z) :
  nonneg x -> nonneg y -> sval binary32 y <= sval binary32 x ->
  sval binary32 x < 2 ^ J -> 0 <= J <= 276 ->
  nonneg (F32.sub x y) /\
  sval binary32 (F32.sub x y) = roundUnits binary32 (sval binary32 x - sval binary32 y).
Proof.
  intros Hx Hy Hle Hlt HJ.
  destruct (nonneg_ssval x Hx) as [Hsx _]. destruct (nonneg_ssval y Hy) as [Hsy Hzy].
  destruct Hx as [Hfx Hpx]. destruct Hy as [Hfy Hpy].
  destruct (neg_fields y) as (Ns & Nf & Nn & Nv).
  pose proof (sval_nonneg binary32 b32_prec b32_ebits y) as Hy0.
  assert (Hn : ssval binary32 (F32.neg y) = - sval binary32 y).
  { unfold ssval. rewrite Ns, Nv. destruct (fsign binary32 y); cbn [negb]; [|reflexivity].
    rewrite Hzy by reflexivity. reflexivity. }
  unfold F32.sub, F32.add, F32.anyNan, F32.bothFinite.
  rewrite (finite_not_nan binary32 b32_prec b32_ebits x Hfx), Nn,
    (finite_not_nan binary32 b32_prec b32_ebits y Hfy), Hfx, Nf, Hfy, Hsx, Hn.
  cbn [orb andb].
  replace (sval binary32 x + - sval binary32 y)
    with (sval binary32 x - sval binary32 y) by ring.
  set (z := sval binary32 x - sval binary32 y) in *.
  destruct (Z.eqb_spec z 0) as [Ez|Ez].
  - rewrite Ez.
    destruct (withSign_finite binary32 b32_prec b32_ebits
                (fsign binary32 x && fsign binary32 (F32.neg y)) 0)
      as (Hv' & Hf' & Hs' & Hss'); [split; [lia|reflexivity]|].
    change (sval binary32 0) with 0 in *.
    replace (roundUnits binary32 0) with 0 by reflexivity.
    split; [split; [exact Hf'|]|exact Hv'].
    rewrite Hss'. destruct (_ && _); lia.
  - destruct (Z.ltb_spec z 0); [lia|].
    rewrite Z.abs_eq by lia.
    destruct (roundMag_units binary32 b32_prec b32_ebits z (2 ^ scale binary32) z J)
      as [HR Hv]; try lia.
    + reflexivity.
    + change (prec binary32) with 24. change (emaxField binary32) with 255. lia.
    + destruct (withSign_finite binary32 b32_prec b32_ebits false _ HR)
        as (Hv' & Hf' & Hs' & Hss').
      pose proof (roundUnits_nonneg binary32 b32_prec b32_ebits z ltac:(lia)).
      split; [split; [exact Hf'|rewrite Hss', Hv; assumption]|now rewrite Hv'].
Qed.

(** * Barycentric weights *)

(** Rounding on the unit interval: the result stays in it, within half a
    step of the binade below one. *)
Lemma round_unit (T : Z) :
  0 <= T <= S32 ->
  0 <= roundUnits binary32 T <= S32 /\
  Z.abs (roundUnits binary32 T - T) <= 2 ^ 124.
Proof.
  intros HT. split.
  - split; [apply (roundUnits_nonneg binary32 b32_prec b32_ebits); lia|].
    apply (roundUnits_le_pow binary32 b32_prec b32_ebits T 149); [lia|exact HT].
  - destruct (Z.eq_dec T S32) as [->|Hne].
    + unfold S32. rewrite <- (Z.mul_1_l (2 ^ 149)).
      rewrite (roundUnits_exact binary32 b32_prec b32_ebits 1 149) by (cbn; lia). lia.
    + pose proof (roundUnits_error binary32 b32_prec b32_ebits T 149) as H.
      change (Z.max 0 (149 - prec binary32)) with 125 in H.
      unfold S32 in *. lia.
Qed.

Lemma lit_one :
  nonneg (F32.lit 1 1) /\ sval binary32 (F32.lit 1 1) = S32.
Proof.
  destruct (ofUint_small 1 ltac:(lia)) as (Hn & _ & Hv).
  split; [exact Hn|]. unfold F32.ofUint in Hv. lia.
Qed.

Lemma inTriangle_units (b : float2) :
  inTriangle b ->
  nonneg (V2.x b) /\ nonneg (V2.y b) /\
  sval binary32 (V2.x b) + sval binary32 (V2.y b) <= S32.
Proof.
  intros (Hfx & Hfy & Hx & Hy & Hs).
  destruct (value_sign (V2.x b)) as (Ex & _). destruct (value_sign (V2.y b)) as (Ey & _).
  apply Ex in Hx. apply Ey in Hy.
  assert (Hnx : nonneg (V2.x b)) by (split; assumption).
  assert (Hny : nonneg (V2.y b)) by (split; assumption).
  destruct (nonneg_ssval _ Hnx) as [Sx _]. destruct (nonneg_ssval _ Hny) as [Sy _].
  split; [exact Hnx|]. split; [exact Hny|].
  revert Hs. unfold F32.value, Qle, Qplus. cbn [Qnum Qden].
  rewrite Sx, Sy. rewrite Pos2Z.inj_mul. change (Z.pos (2 ^ 149)) with S32.
  pose proof S32_pos. nia.
Qed.

Lemma value_sum_close (w x y : float) (n : Z) (d : positive) :
  Z.abs (ssval binary32 w + ssval binary32 x + ssval binary32 y - S32) * Z.pos d
  <= n * S32 ->
  (Qabs (F32.value w + F32.value x + F32.value y - 1) <= n # d)%Q.
Proof.
  intros H. unfold F32.value.
  set (sw := ssval binary32 w) in *. set (sx := ssval binary32 x) in *.
  set (sy := ssval binary32 y) in *.
  apply Qabs_Qle_condition. unfold Qle, Qminus, Qplus, Qopp. cbn [Qnum Qden].
  rewrite !Pos2Z.inj_mul.
  change (Z.pos (2 ^ 149)) with S32. change (Z.pos 1) with 1.
  pose proof S32_pos as HS. pose proof (Pos2Z.is_pos d) as Hd.
  revert H HS Hd. generalize S32 (Z.pos d). intros s dd H HS Hd.
  set (D := (sw + sx + sy - s) * dd).
  assert (HD : - (n * s) <= D <= n * s) by (unfold D; nia).
  assert (H2 : 0 < s * s) by nia.
  assert (- (n * s) * (s * s) <= D * (s * s) <= n * s * (s * s)) by nia.
  replace (((sw * s + sx * s) * s + sy * (s * s)) * 1 + -1 * (s * s * s * 1))
    with ((sw + sx + sy - s) * (s * s)) by ring.
  replace ((sw + sx + sy - s) * (s * s) * dd) with (D * (s * s)) by (unfold D; ring).
  split; lia.
Qed.

(** X10. Barycentric weights of a point of the triangle. For finite
    barycentrics that are not negative and sum to at most one,
    [getBarycentricWeights()] returns the two barycentrics as the second
    and third weight, and a first weight that is finite and in
    [[0, 1]]: the two rounded subtractions never take it below zero. The
    three weights sum to one within [2^-24]. *)
Theorem barycentric_weights_of_a_point (h : GeometryHit) :
  inTriangle (barycentrics h) ->
  V3.y (GeometryHit.getBarycentricWeights h) = V2.x (barycentrics h) /\
  V3.z (GeometryHit.getBarycentricWeights h) = V2.y (barycentrics h) /\
  F32.inClosedUnit (V3.x (GeometryHit.getBarycentricWeights h)) /\
  (Qabs (F32.value (V3.x (GeometryHit.getBarycentricWeights h))
         + F32.value (V3.y (GeometryHit.getBarycentricWeights h))
         + F32.value (V3.z (GeometryHit.getBarycentricWeights h)) - 1)
   <= 1 # 16777216)%Q.
Proof.
  intros Hb. destruct (inTriangle_units _ Hb) as (Hnx & Hny & Hsum).
  destruct lit_one as [Hn1 Hv1].
  set (x := V2.x (barycentrics h)) in *. set (y := V2.y (barycentrics h)) in *.
  pose proof (sval_nonneg binary32 b32_prec b32_ebits x) as Hx0.
  pose proof (sval_nonneg binary32 b32_prec b32_ebits y) as Hy0.
  destruct (sub_nonneg (F32.lit 1 1) x 150 Hn1 Hnx) as [Hna Hva];
    [rewrite Hv1; lia | rewrite Hv1; unfold S32; lia | lia |].
  rewrite Hv1 in Hva.
  destruct (round_unit (S32 - sval binary32 x) ltac:(lia)) as [Ha Hea].
  rewrite <- Hva in Ha, Hea.
  set (a := F32.sub (F32.lit 1 1) x) in *.
  assert (Hya : sval binary32 y <= sval binary32 a).
  { destruct (sval_onGrid y) as (M & k & HM & Hk & E).
    rewrite Hva, E. apply (roundUnits_ge_grid binary32 b32_prec b32_ebits);
      [exact HM|exact Hk|lia]. }
  destruct (sub_nonneg a y 150 Hna Hny Hya) as [Hnw Hvw];
    [unfold S32 in *; lia | lia |].
  destruct (round_unit (sval binary32 a - sval binary32 y) ltac:(lia)) as [Hw Hew].
  rewrite <- Hvw in Hw, Hew.
  change (GeometryHit.getBarycentricWeights h)
    with {| V3.x := F32.sub a y; V3.y := x; V3.z := y |}.
  cbn [V3.x V3.y V3.z].
  set (w := F32.sub a y) in *.
  destruct (nonneg_ssval w Hnw) as [Sw _]. destruct (nonneg_ssval x Hnx) as [Sx _].
  destruct (nonneg_ssval y Hny) as [Sy _].
  split; [reflexivity|]. split; [reflexivity|]. split.
  - destruct Hnw as [Hfw Hpw]. destruct (value_sign w) as (E0 & _ & E1).
    split; [exact Hfw|]. split; [apply E0; exact Hpw|apply E1; lia].
  - apply value_sum_close. rewrite Sw, Sx, Sy. unfold S32 in *. lia.
Qed.

Lemma inTriangle_concrete (b : float2) :
  is_finite binary32 (V2.x b) = true ->
  is_finite binary32 (V2.y b) = true ->
  (0 <=? ssval binary32 (V2.x b)) && (0 <=? ssval binary32 (V2.y b))
  && (ssval binary32 (V2.x b) + ssval binary32 (V2.y b) <=? 2 ^ 149) = true ->
  inTriangle b.
Proof.
  intros Hx Hy H. apply andb_prop in H as [H H3]. apply andb_prop in H as [H1 H2].
  apply Z.leb_le in H1, H2, H3.
  split; [exact Hx|]. split; [exact Hy|].
  destruct (value_sign (V2.x b)) as (Ex & _). destruct (value_sign (V2.y b)) as (Ey & _).
  split; [now apply Ex|]. split; [now apply Ey|].
  unfold F32.value, Qle, Qplus. cbn [Qnum Qden]. rewrite Pos2Z.inj_mul.
  change (Z.pos (2 ^ 149)) with (2 ^ 149). nia.
Qed.

Lemma barycentric_weights_of_a_point_witness :
  F32.inClosedUnit
    (V3.x (GeometryHit.getBarycentricWeights (geomHit 5 77 (F32.lit 1 4) (F32.lit 1 2)))) /\
  (Qabs (F32.value (V3.x (GeometryHit.getBarycentricWeights
                            (geomHit 5 77 (F32.lit 1 4) (F32.lit 1 2))))
         + F32.value (F32.lit 1 4) + F32.value (F32.lit 1 2) - 1)
   <= 1 # 16777216)%Q.
Proof.
  destruct (barycentric_weights_of_a_point (geomHit 5 77 (F32.lit 1 4) (F32.lit 1 2)))
    as (_ & _ & H1 & H2).
  - apply inTriangle_concrete; vm_compute; reflexivity.
  - split; [exact H1 | exact H2].
Defined.

(** * Decoded barycentrics *)

Lemma lor_below (a b n : Z) :
  0 <= n -> 0 <= a < 2 ^ n -> 0 <= b < 2 ^ n -> 0 <= Z.lor a b < 2 ^ n.
Proof.
  intros Hn Ha Hb. split; [apply Z.lor_nonneg; lia|].
  destruct (Z.eq_dec (Z.lor a b) 0) as [->|Hz]; [apply pow2_pos; lia|].
  assert (0 < Z.lor a b) by (pose proof (proj2 (Z.lor_nonneg a b)); lia).
  apply Z.log2_lt_pow2; [lia|].
  rewrite Z.log2_lor by lia.
  destruct (Z.eq_dec a 0) as [->|Ha0]; destruct (Z.eq_dec b 0) as [->|Hb0];
    try (cbn in Hz; lia).
  - rewrite Z.max_r by (pose proof (Z.log2_nonneg b); cbn; lia).
    apply Z.log2_lt_pow2; lia.
  - rewrite Z.max_l by (pose proof (Z.log2_nonneg a); cbn; lia).
    apply Z.log2_lt_pow2; lia.
  - apply Z.max_lub_lt; apply Z.log2_lt_pow2; lia.
Qed.

(** Every 24-bit code decodes to a float of the closed unit interval. *)
Lemma dequantize24_unit (u : Z) :
  0 <= u < 2 ^ 24 -> F32.inClosedUnit (dequantize24 u).
Proof.
  intros Hu. destruct (dequantize24_units u Hu) as [Hn Hv].
  destruct (nonneg_ssval _ Hn) as [Hs _]. destruct Hn as [Hf Hp].
  destruct (value_sign (dequantize24 u)) as (E0 & _ & E1).
  split; [exact Hf|]. split; [now apply E0|]. apply E1. rewrite Hs, Hv.
  set (T := u * (2 ^ 125 + 2 ^ 102)).
  destruct (Z_le_gt_dec T (2 ^ 149)) as [Hle|Hgt].
  - apply (roundUnits_le_pow binary32 b32_prec b32_ebits T 149); [lia|unfold T; lia].
  - assert (HT : T <= 2 ^ 149 + 2 ^ 125 - 2 ^ 102) by (unfold T; lia).
    rewrite (roundUnits_binade binary32 b32_prec b32_ebits T 149)
      by (change (mbits binary32) with 23; lia).
    change (149 - mbits binary32) with 126.
    assert (Eq : T / 2 ^ 126 = 2 ^ 23)
      by (symmetry; apply (Z.div_unique T (2 ^ 126) (2 ^ 23) (T - 2 ^ 149)); lia).
    assert (Er : T mod 2 ^ 126 = T - 2 ^ 149)
      by (symmetry; apply (Z.mod_unique T (2 ^ 126) (2 ^ 23) (T - 2 ^ 149)); lia).
    rewrite rne_div_low by lia. rewrite Eq. unfold S32. lia.
Qed.

(** X11. Unpacking a displaced-triangle hit from any four words gives
    barycentrics that are finite and in [[0, 1]]: both 24-bit codes are
    below [2^24] and the largest code times the rounded constant
    [1.f / 16777215] rounds to one. *)
Theorem decoded_barycentrics_in_unit cfg packed :
  SCENE_HAS_DISPLACED_TRIANGLE_MESH cfg = true ->
  HIT_INFO_USE_COMPRESSION cfg = false ->
  wf_packed cfg packed ->
  exists d,
    DisplacedTriangleHit.init cfg packed = Some d /\
    F32.inClosedUnit (V2.x (barycentrics (geometry d))) /\
    F32.inClosedUnit (V2.y (barycentrics (geometry d))).
Proof.
  intros Hen Hc Hwf.
  destruct (wf_packed_shape cfg packed Hwf) as [[Hc' _]|[_ (w0 & w1 & w2 & w3 & ->)]];
    [congruence|].
  destruct Hwf as [_ Hw].
  inversion Hw as [|? ? _ Hw1]; subst. inversion Hw1 as [|? ? _ Hw2]; subst.
  inversion Hw2 as [|? ? H2 Hw3]; subst. inversion Hw3 as [|? ? H3 _]; subst.
  unfold is_uint in *.
  destruct (displaced_init_words cfg w0 w1 w2 w3 Hen) as [hdr ->].
  eexists. split; [reflexivity|]. cbn [geometry barycentrics V2.x V2.y].
  split; apply dequantize24_unit.
  - unfold shr32. rewrite Z.shiftr_div_pow2 by lia.
    split; [apply Z.div_pos; lia|apply Z.div_lt_upper_bound; lia].
  - assert (Hl : 0 <= Z.land w2 255 < 2 ^ 8).
    { change 255 with (Z.ones 8). rewrite Z.land_ones by lia.
      apply Z.mod_pos_bound. lia. }
    apply lor_below; [lia| |].
    + rewrite shl32_small by lia. lia.
    + unfold shr32. rewrite Z.shiftr_div_pow2 by lia.
      split; [apply Z.div_pos; lia|apply Z.div_lt_upper_bound; lia].
Qed.

Lemma decoded_barycentrics_in_unit_witness :
  exists d,
    DisplacedTriangleHit.init cfgOpen [0; 0; 4294967295; 4294967295] = Some d /\
    F32.inClosedUnit (V2.x (barycentrics (geometry d))) /\
    F32.inClosedUnit (V2.y (barycentrics (geometry d))) /\
    V2.x (barycentrics (geometry d)) = F32.lit 1 1.
Proof.
  destruct (decoded_barycentrics_in_unit cfgOpen [0; 0; 4294967295; 4294967295])
    as (d & Hd & Hx & Hy); try reflexivity.
  - apply wf_packed_concrete; reflexivity.
  - exists d. split; [exact Hd|]. split; [exact Hx|]. split; [exact Hy|].
    assert (E : DisplacedTriangleHit.init cfgOpen [0; 0; 4294967295; 4294967295]
                = Some {| geometry := geomHit 0 0 (F32.lit 1 1) (F32.lit 1 1);
                          displacement := F32.f16tof32 65535 |})
      by (vm_compute; reflexivity).
    rewrite E in Hd. injection Hd as <-. reflexivity.
Defined.
